(** * The retrieval-and-ranking text pipeline of the educational chatbot

    A shallow embedding of [lib/search.ts], of the sectioner ([splitChapters]),
    of the extractive summarizer ([generateExtractiveSummary]) and of the
    rule-based answer composer ([demoAnswer] and what it calls), followed by
    the properties of these functions.

    Conventions of the embedding.
    - A JavaScript string is the list of its code units; the code units are
      those below 256 ([ascii]), so the white space class [\s] is
      [\t \n \v \f \r], the space and the no-break space.
      The bullet of the guidance messages, which lies beyond, is written as
      the bytes of its UTF-8 encoding.
    - Page numbers, counts and lengths are natural numbers ([nat]); JavaScript
      numbers agree with them below 2^53.
    - The weights and scores of [search.ts] and the sentence scores of the
      summarizer are the numbers of the language: the doubles of IEEE 754
      (binary64, [PrimFloat.float]), with addition, subtraction,
      multiplication and division rounded to nearest, ties to even, and
      with their infinities, signed zeros and NaN. [Math.sqrt] is the
      correctly rounded square root, as the engines compute it. A count
      becomes a double by [Num.ofNat], which is exact below 2^53.
    - [Math.log], whose result the language leaves to the implementation, is
      an oracle: the functions that weigh terms take it as [log].
    - A regular expression is a term of [Re.regex] and is run by a
      backtracking matcher that follows the matcher of the language
      definition (greedy quantifiers, capture groups, [^], [$] and a
      one-character look-behind).
    - [crypto.randomUUID] is an oracle: the n-th section pushed receives
      [uuid n]. *)

From Stdlib Require Import Floats.
From Stdlib Require Uint63.
From Stdlib Require Import ZArith.
From Stdlib Require Import List Ascii String Arith Bool Lia PeanoNat.
From Stdlib Require DecimalString Decimal DecimalNat.
From Stdlib Require Import Sorting.Sorted Sorting.Permutation.
Import ListNotations.

Set Implicit Arguments.
Set Warnings "-inexact-float".

Local Open Scope nat_scope.
Local Open Scope list_scope.

Abbreviation length := List.length.

(** ** Strings *)

Definition str : Type := list ascii.

(** A string literal as a list of code units. *)
Definition L (s : string) : str := list_ascii_of_string s.

Definition nl : ascii := ascii_of_nat 10.

Module Chars.

Definition code (c : ascii) : nat := nat_of_ascii c.

Definition between (lo hi : nat) (c : ascii) : bool :=
  (lo <=? code c) && (code c <=? hi).

Definition is_digit : ascii -> bool := between 48 57.
Definition is_upper : ascii -> bool := between 65 90.
Definition is_lower : ascii -> bool := between 97 122.

(** [\s]: white space and line terminators among the code units below 256. *)
Definition is_space (c : ascii) : bool :=
  between 9 13 c || (code c =? 32) || (code c =? 160).

(** [\w] *)
Definition is_word (c : ascii) : bool :=
  is_lower c || is_upper c || is_digit c || (code c =? 95).

(** [.]: anything but a line terminator. *)
Definition is_dot (c : ascii) : bool :=
  negb ((code c =? 10) || (code c =? 13)).

Definition eq (a : ascii) (c : ascii) : bool := Ascii.eqb a c.

Definition one_of (s : string) (c : ascii) : bool :=
  existsb (Ascii.eqb c) (L s).

Definition or (p q : ascii -> bool) (c : ascii) : bool := p c || q c.
Definition non (p : ascii -> bool) (c : ascii) : bool := negb (p c).

(** [String.prototype.toLowerCase] on one code unit below 256. *)
Definition lower (c : ascii) : ascii :=
  if is_upper c || between 192 214 c || between 216 222 c
  then ascii_of_nat (code c + 32) else c.

(** A class under the [i] flag: the letters of either case. *)
Definition nocase (p : ascii -> bool) (c : ascii) : bool :=
  p c || p (lower c) || (is_lower c && p (ascii_of_nat (code c - 32))).

End Chars.

Module Str.

Definition eqb (a b : str) : bool :=
  if list_eq_dec ascii_dec a b then true else false.

Definition is_empty (s : str) : bool :=
  match s with [] => true | _ => false end.

(** [Boolean(s)] for a string: it is not empty. *)
Definition truthy (s : str) : bool := negb (is_empty s).

Fixpoint dropWhile (p : ascii -> bool) (s : str) : str :=
  match s with
  | [] => []
  | c :: s' => if p c then dropWhile p s' else s
  end.

Definition trimStart (s : str) : str := dropWhile Chars.is_space s.
Definition trimEnd (s : str) : str := rev (dropWhile Chars.is_space (rev s)).
Definition trim (s : str) : str := trimEnd (trimStart s).

Definition toLowerCase (s : str) : str := map Chars.lower s.

Fixpoint prefix (p s : str) : bool :=
  match p, s with
  | [], _ => true
  | a :: p', b :: s' => Ascii.eqb a b && prefix p' s'
  | _ :: _, [] => false
  end.

(** [s.includes(p)] *)
Fixpoint includes (s p : str) : bool :=
  prefix p s || match s with [] => false | _ :: s' => includes s' p end.

(** [parts.join(sep)] *)
Fixpoint join (sep : str) (parts : list str) : str :=
  match parts with
  | [] => []
  | [p] => p
  | p :: ps => p ++ sep ++ join sep ps
  end.

(** Template interpolation of a non-negative integer. *)
Definition ofNat (n : nat) : str := L (DecimalString.NilEmpty.string_of_uint (Nat.to_uint n)).

Definition digit (c : ascii) : nat := Chars.code c - 48.

(** [parseInt(ds, 10)] on a run of decimal digits. *)
Definition parseInt (ds : str) : nat :=
  fold_left (fun acc c => 10 * acc + digit c) ds 0.

End Str.

(** ** Regular expressions *)

Module Re.

Inductive regex : Type :=
| Eps
| Chr (p : ascii -> bool)
| Seq (a b : regex)
| Alt (a b : regex)
| Rep (a : regex) (mn : nat) (mx : option nat)
| Grp (i : nat) (a : regex)
| Bol
| Eol
| Behind (p : ascii -> bool).

(** The matcher's state: the index reached, the code unit before it, the
    input from it on, and the captures made so far. *)
Record state : Type := mkState {
  pos : nat;
  prev : option ascii;
  rest : str;
  caps : list (nat * str)
}.

Definition start (p : nat) (pv : option ascii) (s : str) : state :=
  mkState p pv s [].

Definition step (c : ascii) (s : str) (st : state) : state :=
  mkState (S (pos st)) (Some c) s (caps st).

Definition capture (i : nat) (v : str) (st : state) : state :=
  mkState (pos st) (prev st) (rest st) ((i, v) :: caps st).

(** [match[i]]: the latest capture of group [i], if any. *)
Definition cap (i : nat) (st : state) : option str :=
  match find (fun kv => fst kv =? i) (caps st) with
  | Some kv => Some (snd kv)
  | None => None
  end.

(** [$i] in a replacement string. *)
Definition sub (i : nat) (st : state) : str :=
  match cap i st with Some v => v | None => [] end.

Definition cont : Type := state -> option state.

(** The quantifier [a{mn,mx}], greedy. An iteration of the optional part
    that consumes nothing is refused, so [mn] plus the length of the input
    bounds the number of iterations. *)
Fixpoint rep (fuel : nat) (m : cont -> cont) (mn : nat) (mx : option nat)
         (k : cont) (st : state) : option state :=
  match fuel with
  | 0 => None
  | S fuel' =>
      match mx with
      | Some 0 => k st
      | _ =>
          let d := fun st' =>
            if (mn =? 0) && (pos st' =? pos st) then None
            else rep fuel' m (pred mn) (option_map pred mx) k st' in
          if mn =? 0
          then match m d st with Some e => Some e | None => k st end
          else m d st
      end
  end.

Fixpoint run (r : regex) (k : cont) (st : state) : option state :=
  match r with
  | Eps => k st
  | Chr p =>
      match rest st with
      | c :: s => if p c then k (step c s st) else None
      | [] => None
      end
  | Seq a b => run a (run b k) st
  | Alt a b =>
      match run a k st with Some e => Some e | None => run b k st end
  | Rep a mn mx => rep (mn + length (rest st) + 1) (run a) mn mx k st
  | Grp i a =>
      run a (fun st' => k (capture i (firstn (pos st' - pos st) (rest st)) st')) st
  | Bol => if pos st =? 0 then k st else None
  | Eol => match rest st with [] => k st | _ :: _ => None end
  | Behind p =>
      match prev st with
      | Some c => if p c then k st else None
      | None => None
      end
  end.

(** The state after the code units [cs], read in front of [tl]. *)
Fixpoint advance (cs tl : str) (st : state) : state :=
  match cs with
  | [] => st
  | c :: cs' => advance cs' tl (step c (cs' ++ tl) st)
  end.

(** The quantifier [p{mn,}] over one class of code units, read off the
    input [s]: the longest run first, then shorter ones down to [mn]. *)
Fixpoint greedy (p : ascii -> bool) (mn : nat) (k : cont) (st : state) (s : str)
  : option state :=
  let stop := if mn =? 0 then k st else None in
  match s with
  | c :: s' =>
      if p c
      then match greedy p (pred mn) k (step c s' st) s' with
           | Some e => Some e
           | None => stop
           end
      else stop
  | [] => stop
  end.

(** [s] without its prefix [p], when it has it. *)
Fixpoint dropPrefix (p s : str) : option str :=
  match p, s with
  | [], _ => Some s
  | a :: p', b :: s' => if Ascii.eqb a b then dropPrefix p' s' else None
  | _ :: _, [] => None
  end.

(** A match that starts exactly at the state given. *)
Definition matchAt (r : regex) (st : state) : option state := run r Some st.

(** The leftmost match at or after index [p]: where it starts and the
    state at its end. *)
Fixpoint search (r : regex) (p : nat) (pv : option ascii) (s : str)
  : option (nat * state) :=
  match matchAt r (start p pv s) with
  | Some e => Some (p, e)
  | None =>
      match s with
      | [] => None
      | c :: s' => search r (S p) (Some c) s'
      end
  end.

(** [r.exec(s)] and [s.match(r)] without the [g] flag. *)
Definition exec (r : regex) (s : str) : option state :=
  option_map snd (search r 0 None s).

(** [r.test(s)] *)
Definition test (r : regex) (s : str) : bool :=
  match exec r s with Some _ => true | None => false end.

(** [s.replace(r, f)] without the [g] flag. *)
Definition replaceFirst (r : regex) (f : state -> str) (s : str) : str :=
  match search r 0 None s with
  | Some (p, e) => firstn p s ++ f e ++ skipn (pos e) s
  | None => s
  end.

(** [s.replace(r, f)] with the [g] flag. [skip] counts the code units of the
    current match that are still to be passed over. *)
Fixpoint replaceFrom (r : regex) (f : state -> str) (skip p : nat)
         (pv : option ascii) (s : str) : str :=
  match skip with
  | S n =>
      match s with
      | [] => []
      | c :: s' => replaceFrom r f n (S p) (Some c) s'
      end
  | 0 =>
      match matchAt r (start p pv s) with
      | Some e =>
          f e ++
          match s with
          | [] => []
          | c :: s' =>
              match pos e - p with
              | 0 => c :: replaceFrom r f 0 (S p) (Some c) s'
              | S n => replaceFrom r f n (S p) (Some c) s'
              end
          end
      | None =>
          match s with
          | [] => []
          | c :: s' => c :: replaceFrom r f 0 (S p) (Some c) s'
          end
      end
  end.

Definition replaceAll (r : regex) (f : state -> str) (s : str) : str :=
  replaceFrom r f 0 0 None s.

(** [s.split(r)] for a non-empty [s]; [acc] is the piece being read,
    reversed. A match that is empty at the start of a piece does not
    split. *)
Fixpoint splitFrom (r : regex) (skip : nat) (acc : str) (p : nat)
         (pv : option ascii) (s : str) : list str :=
  match s with
  | [] => [rev acc]
  | c :: s' =>
      match skip with
      | S n => splitFrom r n [] (S p) (Some c) s'
      | 0 =>
          match matchAt r (start p pv s) with
          | Some e =>
              match pos e - p with
              | 0 =>
                  match acc with
                  | [] => splitFrom r 0 [c] (S p) (Some c) s'
                  | _ :: _ => rev acc :: splitFrom r 0 [c] (S p) (Some c) s'
                  end
              | S n => rev acc :: splitFrom r n [] (S p) (Some c) s'
              end
          | None => splitFrom r 0 (c :: acc) (S p) (Some c) s'
          end
      end
  end.

Definition split (r : regex) (s : str) : list str :=
  match s with
  | [] => match matchAt r (start 0 None []) with Some _ => [] | None => [[]] end
  | _ :: _ => splitFrom r 0 [] 0 None s
  end.

(** [s.match(r)] with the [g] flag, counted: the number of matches. *)
Fixpoint countFrom (r : regex) (skip p : nat) (pv : option ascii) (s : str) : nat :=
  match skip with
  | S n =>
      match s with
      | [] => 0
      | c :: s' => countFrom r n (S p) (Some c) s'
      end
  | 0 =>
      match matchAt r (start p pv s) with
      | Some e =>
          S match s with
            | [] => 0
            | c :: s' => countFrom r (pred (pos e - p)) (S p) (Some c) s'
            end
      | None =>
          match s with
          | [] => 0
          | c :: s' => countFrom r 0 (S p) (Some c) s'
          end
      end
  end.

Definition count (r : regex) (s : str) : nat := countFrom r 0 0 None s.

(** Abbreviations for writing patterns. *)
Fixpoint seqs (rs : list regex) : regex :=
  match rs with
  | [] => Eps
  | [r] => r
  | r :: rs' => Seq r (seqs rs')
  end.

Fixpoint alts (rs : list regex) : regex :=
  match rs with
  | [] => Eps
  | [r] => r
  | r :: rs' => Alt r (alts rs')
  end.

(** A literal, and a literal under the [i] flag. *)
Definition lit (s : string) : regex := seqs (map (fun c => Chr (Chars.eq c)) (L s)).
Definition litI (s : string) : regex :=
  seqs (map (fun c => Chr (Chars.nocase (Chars.eq c))) (L s)).

Definition star (a : regex) : regex := Rep a 0 None.
Definition plus (a : regex) : regex := Rep a 1 None.
Definition atLeast (n : nat) (a : regex) : regex := Rep a n None.
Definition range (n m : nat) (a : regex) : regex := Rep a n (Some m).

End Re.

(** ** [Map] and [Set] of the language: keyed by strings, in insertion order *)

Module JsMap.

Section WithValues.
Variable V : Type.

Definition t : Type := list (str * V).

Definition empty : t := [].

Fixpoint get (m : t) (k : str) : option V :=
  match m with
  | [] => None
  | (k', v) :: m' => if Str.eqb k' k then Some v else get m' k
  end.

(** [m.get(k) || d], for values whose only falsy one is [d]. *)
Definition getOr (d : V) (m : t) (k : str) : V :=
  match get m k with Some v => v | None => d end.

(** [m.set(k, v)]: a key already there keeps its place. *)
Fixpoint set (m : t) (k : str) (v : V) : t :=
  match m with
  | [] => [(k, v)]
  | (k', v') :: m' =>
      if Str.eqb k' k then (k', v) :: m' else (k', v') :: set m' k v
  end.

Definition keys (m : t) : list str := map fst m.
End WithValues.

(** [m.set(k, (m.get(k) || 0) + 1)] *)
Definition bump (m : t nat) (k : str) : t nat := set m k (getOr 0 m k + 1).

End JsMap.

Module JsSet.

Definition has (s : list str) (k : str) : bool := existsb (Str.eqb k) s.

Definition add (s : list str) (k : str) : list str :=
  if has s k then s else s ++ [k].

(** [new Set(xs)], as the list of its members in insertion order. *)
Definition ofList (xs : list str) : list str := fold_left add xs [].

End JsSet.

(** ** Numbers *)

Module Num.

(** The count [n] as a double: the double nearest to [n], which is [n]
    itself below 2^53, for every [n] below 2^63. The counts of the code
    stay below 2^53, a string having fewer code units than that. *)
Definition ofNat (n : nat) : float := PrimFloat.of_uint63 (Uint63.of_Z (Z.of_nat n)).

(** [Boolean(x)]: every number but [0], [-0] and [NaN]. *)
Definition truthy (x : float) : bool := negb (PrimFloat.is_nan x) && negb (x =? 0)%float.

(** [x || 0], for [x] the entry of a map or [undefined]. *)
Definition orZero (x : option float) : float :=
  match x with
  | Some v => if truthy v then v else 0%float
  | None => 0%float
  end.

(** The value [v] of a comparator does not put its first argument after
    its second: [v <= 0], or [v] is [NaN], which [sort] reads as [+0]. *)
Definition notPositive (v : float) : bool := PrimFloat.is_nan v || (v <=? 0)%float.

End Num.

(** ** [lib/search.ts] *)

Module Search.

Import Re.

(** [/[^a-z0-9\s]/g] *)
Definition notTokenChar : regex :=
  Chr (Chars.non (Chars.or Chars.is_lower (Chars.or Chars.is_digit Chars.is_space))).

(** [/\s+/] *)
Definition spaces : regex := plus (Chr Chars.is_space).

Definition tokenize (text : str) : list str :=
  filter Str.truthy
    (split spaces (replaceAll notTokenChar (fun _ => L " ") (Str.toLowerCase text))).

(** The term frequencies of one token list: [tf] of the source. *)
Definition termCounts (toks : list str) : JsMap.t nat :=
  fold_left JsMap.bump toks (JsMap.empty nat).

(** The document frequencies: [df] of [tfidfParagraphs]. *)
Definition docCounts (docs : list (list str)) : JsMap.t nat :=
  fold_left (fun df d => fold_left JsMap.bump (JsSet.ofList d) df) docs (JsMap.empty nat).

Record corpus : Type := mkCorpus {
  vectors : list (JsMap.t float);
  vocabulary : JsMap.t nat
}.

Section WithLog.
(** [Math.log] *)
Variable log : float -> float.

(** [Math.log((N + 1) / ((df.get(t) || 0) + 1)) + 1] *)
Definition idf (df : JsMap.t nat) (N : nat) (t : str) : float :=
  (log (Num.ofNat (N + 1) / Num.ofNat (JsMap.getOr 0%nat df t + 1)) + 1)%float.

(** The loop [tf.forEach((f, t) => vec.set(t, f * idf))]. *)
Definition weigh (df : JsMap.t nat) (N : nat) (tf : JsMap.t nat) : JsMap.t float :=
  fold_left (fun vec tfe =>
               JsMap.set vec (fst tfe) (Num.ofNat (snd tfe) * idf df N (fst tfe))%float)
            tf (JsMap.empty float).

Definition tfidfParagraphs (paragraphs : list str) : corpus :=
  let docs := map tokenize paragraphs in
  let df := docCounts docs in
  let N := length docs in
  mkCorpus (map (fun d => weigh df N (termCounts d)) docs) df.

Definition vectorizeQuery (q : str) (df : JsMap.t nat) (N : nat) : JsMap.t float :=
  weigh df N (termCounts (tokenize q)).
End WithLog.

(** The accumulators of [cosine]: [dot += va * (b.get(k) || 0)] and
    [na += va * va], both from [0]. *)
Definition dotWith (a b : JsMap.t float) : float :=
  fold_left (fun dot kv => (dot + snd kv * Num.orZero (JsMap.get b (fst kv)))%float) a 0%float.

Definition sumSquares (a : JsMap.t float) : float :=
  fold_left (fun n kv => (n + snd kv * snd kv)%float) a 0%float.

Definition epsilon : float := 1e-8%float.

Definition cosine (a b : JsMap.t float) : float :=
  (dotWith a b / (PrimFloat.sqrt (sumSquares a) * PrimFloat.sqrt (sumSquares b) + epsilon))%float.

End Search.

(** ** The sectioner *)

Record Section_ : Type := mkSection {
  id : str;
  sourceId : str;
  title : str;
  startPage : option nat;
  endPage : option nat;
  text : str;
  tokensEstimated : option nat
}.

Module Sectioner.

Import Re.

Definition digit : regex := Chr Chars.is_digit.
Definition space : regex := Chr Chars.is_space.
Definition word : regex := Chr Chars.is_word.
Definition upper : regex := Chr Chars.is_upper.
Definition dot : regex := Chr Chars.is_dot.
Definition newline : regex := Chr (Chars.eq nl).

(** [Math.ceil(s.length / 4)] *)
Definition estimateTokens (s : str) : nat := (length s + 3) / 4.

(** [/(\w+)-\s*\n\s*(\w+)/g] *)
Definition hyphenBreak : regex :=
  seqs [Grp 1 (plus word); lit "-"; star space; newline; star space; Grp 2 (plus word)].

(** [/\s+([,.!?;:])/g] *)
Definition spaceBeforePunct : regex :=
  seqs [plus space; Grp 1 (Chr (Chars.one_of ",.!?;:"))].

(** [/\s{2,}/g] *)
Definition spaces2 : regex := atLeast 2 space.

(** [/\n\s*\n/g] *)
Definition blankLines : regex := seqs [newline; star space; newline].

Definition cleanTextContent (text : str) : str :=
  Str.trim
    (replaceAll blankLines (fun _ => [nl; nl])
      (replaceAll spaces2 (fun _ => L " ")
        (replaceAll spaceBeforePunct (sub 1)
          (replaceAll hyphenBreak (fun e => sub 1 e ++ sub 2 e) text)))).

(** [[PAGE:n]] followed by a line break, as the template writes it. *)
Definition pageTag (n : nat) : str := L "[[PAGE:" ++ Str.ofNat n ++ L "]]" ++ [nl].

(** [xs.map((x, i) => f(i0 + i, x))] *)
Fixpoint mapi (A B : Type) (f : nat -> A -> B) (i0 : nat) (xs : list A) : list B :=
  match xs with
  | [] => []
  | x :: xs' => f i0 x :: mapi f (S i0) xs'
  end.

(** [/\n{2,}/] and [/\n/] *)
Definition newlines2 : regex := atLeast 2 newline.

Definition chapterPatterns : list regex :=
  [ (* /^(chapter|section|part|unit)\s+([ivxlcdm]+|\d+)[\s\.:]+(.+)$/i *)
    seqs [Bol; Grp 1 (alts [litI "chapter"; litI "section"; litI "part"; litI "unit"]);
          plus space;
          Grp 2 (Alt (plus (Chr (Chars.nocase (Chars.one_of "ivxlcdm")))) (plus digit));
          plus (Chr (Chars.or Chars.is_space (Chars.one_of ".:")));
          Grp 3 (plus dot); Eol];
    (* /^(\d+[\.\)]\s+.+)$/ *)
    seqs [Bol; Grp 1 (seqs [plus digit; Chr (Chars.one_of ".)"); plus space; plus dot]); Eol];
    (* /^([A-Z][A-Z\s:'\-]{10,80})$/ *)
    seqs [Bol;
          Grp 1 (Seq upper
                   (range 10 80
                      (Chr (Chars.or Chars.is_upper (Chars.or Chars.is_space (Chars.one_of ":'-"))))));
          Eol];
    (* /^#{1,3}\s+(.+)$/ *)
    seqs [Bol; range 1 3 (lit "#"); plus space; Grp 1 (plus dot); Eol];
    (* /^(.+)\s+\.{3,}\s*\d+$/ *)
    seqs [Bol; Grp 1 (plus dot); plus space; atLeast 3 (lit "."); star space; plus digit; Eol];
    (* /^([A-Z][a-z\s:]+[A-Z][a-z\s:]{5,})$/ *)
    seqs [Bol;
          Grp 1 (seqs [upper;
                       plus (Chr (Chars.or Chars.is_lower (Chars.or Chars.is_space (Chars.eq ":"))));
                       upper;
                       atLeast 5 (Chr (Chars.or Chars.is_lower (Chars.or Chars.is_space (Chars.eq ":"))))]);
          Eol];
    (* /^(introduction|conclusion|summary|abstract|preface|acknowledgments?)$/i *)
    seqs [Bol;
          Grp 1 (alts [litI "introduction"; litI "conclusion"; litI "summary"; litI "abstract";
                       litI "preface"; Seq (litI "acknowledgment") (Rep (litI "s") 0 (Some 1))]);
          Eol] ].

(** [/^\[\[PAGE:\d+\]\]$/] *)
Definition markerLine : regex := seqs [Bol; lit "[[PAGE:"; plus digit; lit "]]"; Eol].

Definition contentPatterns : list regex :=
  [ (* /^\s*\d+\s*$/ *)
    seqs [Bol; star space; plus digit; star space; Eol];
    (* /^[\s\.\-_]{3,}$/ *)
    seqs [Bol; atLeast 3 (Chr (Chars.or Chars.is_space (Chars.one_of ".-_"))); Eol];
    markerLine ].

(** [/\[\[PAGE:(\d+)\]\]/] *)
Definition marker : regex := seqs [lit "[[PAGE:"; Grp 1 (plus digit); lit "]]"].

Definition firstPageOf (textBlock : str) : option nat :=
  match exec marker textBlock with
  | Some m => Some (Str.parseInt (sub 1 m))
  | None => None
  end.

(** [a || b] on optional strings: the first that is defined and not empty. *)
Definition orElse (a : option str) (b : str) : str :=
  match a with
  | Some v => if Str.truthy v then v else b
  | None => b
  end.

(** The first pattern of the list that matches, with its match. *)
Fixpoint firstMatch (ps : list regex) (s : str) : option state :=
  match ps with
  | [] => None
  | p :: ps' => match exec p s with Some m => Some m | None => firstMatch ps' s end
  end.

Record headerCheck : Type := mkHeaderCheck {
  isHeader : bool;
  headerTitle : option str
}.

(** The ratio test [ratio > 0.1 && ratio < 0.8] of [capitals / length],
    on integers: a quotient of two integers below 100 that differs from
    1/10 or 4/5 differs by more than the rounding of the division. *)
Definition ratioInRange (capitals len : nat) : bool :=
  (len <? 10 * capitals) && (5 * capitals <? 4 * len).

Definition isLikelyHeader (line : str) : headerCheck :=
  let trimmed := Str.trim line in
  if existsb (fun pattern => test pattern trimmed) contentPatterns
  then mkHeaderCheck false None
  else
    match firstMatch chapterPatterns trimmed with
    | Some m =>
        let title := orElse (cap 3 m) (orElse (cap 1 m) trimmed) in
        let title := Str.trim (replaceFirst (seqs [Bol; plus (lit "#"); star space])
                                            (fun _ => []) title) in
        mkHeaderCheck true (Some title)
    | None =>
        if (5 <? length trimmed) && (length trimmed <? 100)
           && test (Seq Bol upper) trimmed
           && negb (test (Seq (Chr (Chars.one_of ".!?")) Eol) trimmed)
           && ratioInRange (count upper trimmed) (length trimmed)
        then mkHeaderCheck true (Some trimmed)
        else mkHeaderCheck false None
    end.

(** [current] of [splitChapters]. *)
Record open : Type := mkOpen {
  curTitle : str;
  curStartPage : option nat;
  curText : list str
}.

(** The variables the loop of [splitChapters] updates. *)
Record loopState : Type := mkLoop {
  sections : list Section_;
  current : option open;
  autoIndex : nat
}.

Section WithSource.
Variable uuid : nat -> str.
Variable sourceId' : str.

Definition newSection (n : nat) (ttl : str) (sp ep : option nat) (cleanedText : str)
  : Section_ :=
  mkSection (uuid n) sourceId' ttl sp ep cleanedText (Some (estimateTokens cleanedText)).

Definition flush (endPage' : option nat) (st : loopState) : loopState :=
  match current st with
  | None => st
  | Some cur =>
      let rawText := Str.join [nl; nl] (curText cur) in
      let cleanedText := cleanTextContent rawText in
      let sections' :=
        if 50 <? length cleanedText
        then sections st ++
             [newSection (length (sections st)) (curTitle cur) (curStartPage cur)
                         endPage' cleanedText]
        else sections st in
      mkLoop sections' None (autoIndex st)
  end.

(** [firstPageOf(b) ? firstPageOf(b)! - 1 : undefined] *)
Definition pageBefore (b : str) : option nat :=
  match firstPageOf b with
  | Some 0 => None
  | Some (S p) => Some p
  | None => None
  end.

(** One turn of the loop over the blocks. *)
Definition processBlock (st : loopState) (b : str) : loopState :=
  let lines := filter (fun line => Str.truthy (Str.trim line)) (split newline b) in
  match lines with
  | [] => st
  | line0 :: _ =>
      let firstLine := Str.trim line0 in
      let check := isLikelyHeader firstLine in
      match isHeader check, headerTitle check with
      | true, Some ((_ :: _) as ttl) =>
          let st' := flush (pageBefore b) st in
          mkLoop (sections st') (Some (mkOpen ttl (firstPageOf b) [b])) (autoIndex st')
      | _, _ =>
          let st' :=
            match current st with
            | Some _ => st
            | None =>
                mkLoop (sections st)
                       (Some (mkOpen (L "Section " ++ Str.ofNat (autoIndex st))
                                     (Some (match firstPageOf b with Some p => p | None => 1 end))
                                     []))
                       (S (autoIndex st))
            end in
          match current st' with
          | Some cur =>
              mkLoop (sections st')
                     (Some (mkOpen (curTitle cur) (curStartPage cur) (curText cur ++ [b])))
                     (autoIndex st')
          | None => st'
          end
      end
  end.

Definition blocksOf (rawPages : list str) : list str :=
  let all := Str.join [nl; nl] (mapi (fun i t => pageTag (i + 1) ++ t) 0 rawPages) in
  filter Str.truthy (map Str.trim (split newlines2 all)).

(** The sections found by the headings, after the last flush. *)
Definition detected (rawPages : list str) : list Section_ :=
  sections (flush (Some (length rawPages))
                  (fold_left processBlock (blocksOf rawPages) (mkLoop [] None 1))).

(** The fallback loop [for (let i = 0; i < rawPages.length; i += chunk)];
    it turns at most [fuel] times. *)
Definition chunk : nat := 8.

Fixpoint windows (fuel : nat) (rawPages : list str) (i : nat) (acc : list Section_)
  : list Section_ :=
  match fuel with
  | 0 => acc
  | S fuel' =>
      if i <? length rawPages
      then
        let pages := firstn chunk (skipn i rawPages) in
        let rawText := Str.join [nl; nl] (mapi (fun k p => pageTag (i + k + 1) ++ p) 0 pages) in
        let cleanedText := cleanTextContent rawText in
        windows fuel' rawPages (i + chunk)
                (acc ++ [newSection (length acc)
                                    (L "Section " ++ Str.ofNat (i / chunk + 1))
                                    (Some (i + 1))
                                    (Some (Nat.min (i + chunk) (length rawPages)))
                                    cleanedText])
      else acc
  end.

Definition splitChapters (rawPages : list str) : list Section_ :=
  match detected rawPages with
  | [] => windows (length rawPages) rawPages 0 []
  | found => found
  end.

End WithSource.

End Sectioner.

(** ** [Array.prototype.sort] with a consistent comparator *)

Module Arr.

Section Sort.
Variable A : Type.

(** [notAfter x y]: the comparator does not put [x] after [y], that is
    [compare(x, y) <= 0]. The sort is stable: of two elements that compare
    equal, the one that came first stays first. Where the comparator is
    not consistent (a NaN among the scores compared by subtraction)
    the language leaves the order to the implementation: the order is
    stated only where the comparator is consistent. *)
Variable notAfter : A -> A -> bool.

Fixpoint insert (x : A) (l : list A) : list A :=
  match l with
  | [] => [x]
  | y :: l' => if notAfter x y then x :: l else y :: insert x l'
  end.

Definition sort (l : list A) : list A := fold_right insert [] l.
End Sort.

(** [xs.map((x, i) => (i, x))] *)
Definition indexed (A : Type) (xs : list A) : list (nat * A) :=
  combine (seq 0 (length xs)) xs.

End Arr.

(** ** The extractive summarizer *)

Module Summarize.

Import Re.

(** [/(?<=[.!?])\s+/] *)
Definition sentenceBreak : regex :=
  Seq (Behind (Chars.one_of ".!?")) (plus (Chr Chars.is_space)).

Definition sentencesOf (text : str) : list str :=
  filter (fun s => 0 <? length (Str.trim s)) (split sentenceBreak text).

(** [freq.get(w) || 1] *)
Definition freqOr1 (freq : JsMap.t nat) (w : str) : nat :=
  match JsMap.get freq w with
  | Some (S n) => S n
  | _ => 1
  end.

(** The score of one sentence: [sc += 1 / (freq.get(w) || 1)] over its
    tokens, from [0]. *)
Definition score (freq : JsMap.t nat) (s : str) : float :=
  fold_left (fun sc w => (sc + 1 / Num.ofNat (freqOr1 freq w))%float)
            (Search.tokenize s) 0%float.

(** [Math.min(6, Math.ceil(n * 0.25))] *)
Definition quota (n : nat) : nat := Nat.min 6 ((n + 3) / 4).

(** [(a, b) => b.sc - a.sc] is not positive. *)
Definition byScoreDesc (a b : nat * float) : bool := Num.notPositive (snd b - snd a)%float.

(** [(a, b) => a - b] is not positive. *)
Definition byIndex (a b : nat) : bool := a <=? b.

(** [pick]: the positions of the chosen sentences, in document order. *)
Definition pick (sentences : list str) (freq : JsMap.t nat) : list nat :=
  let scores := Arr.indexed (map (score freq) sentences) in
  Arr.sort byIndex
    (map fst (firstn (quota (length sentences)) (Arr.sort byScoreDesc scores))).

Definition generateExtractiveSummary (text : str) : str :=
  let sentences := sentencesOf text in
  if length sentences <=? 3 then Str.trim text
  else
    let freq := Search.termCounts (Search.tokenize text) in
    Str.join (L " ") (map (fun i => nth i sentences []) (pick sentences freq)).

End Summarize.

(** ** The answer composer *)

Module Chat.

Import Re.
Import Search.

Definition dq : ascii := ascii_of_nat 34.

(** [truthy] on an optional page number: defined and not zero. *)
Definition pageGiven (p : option nat) : bool :=
  match p with Some (S _) => true | _ => false end.

Definition pageText (p : option nat) : str :=
  match p with Some n => Str.ofNat n | None => L "undefined" end.

(** [sections.find(s => s.id === activeId)] *)
Definition findActive (sections : list Section_) (activeId : option str) : option Section_ :=
  match activeId with
  | Some a => find (fun s => Str.eqb (id s) a) sections
  | None => None
  end.

(** [pageInfo] of [getSourceInfo]. *)
Definition pageInfo (sec : Section_) : str :=
  if pageGiven (startPage sec) && pageGiven (endPage sec)
  then L "pages " ++ pageText (startPage sec) ++ L "-" ++ pageText (endPage sec)
  else if pageGiven (startPage sec)
  then L "page " ++ pageText (startPage sec)
  else L "source document".

Definition sourceUnavailable : str := L "Source information not available".

Definition getSourceInfo (sections : list Section_) (activeId : option str) : str :=
  let sec :=
    match findActive sections activeId with
    | Some s => Some s
    | None => nth_error sections 0
    end in
  match sec with
  | None => sourceUnavailable
  | Some sec => L "Based on " ++ [dq] ++ title sec ++ [dq] ++ L " from " ++ pageInfo sec
  end.

Definition pageMarker : regex := seqs [lit "[[PAGE:"; plus Sectioner.digit; lit "]]"].

(** [/(\w+)\s*-\s*(\w+)/g] *)
Definition hyphenated : regex :=
  seqs [Grp 1 (plus Sectioner.word); star Sectioner.space; lit "-"; star Sectioner.space;
        Grp 2 (plus Sectioner.word)].

Definition cleanContent (content : str) : str :=
  Str.trim
    (replaceAll Sectioner.spaces2 (fun _ => L " ")
      (replaceAll hyphenated (fun e => sub 1 e ++ sub 2 e)
        (replaceAll Sectioner.spaceBeforePunct (sub 1)
          (replaceAll spaces (fun _ => L " ")
            (replaceAll pageMarker (fun _ => []) content))))).

Definition explanationKeywords : list str :=
  map L [ "explain"; "simpler"; "simple"; "basic"; "beginner"; "easy";
          "understand"; "clarify"; "elaborate"; "break down"; "in detail";
          "what does"; "how does"; "why does"; "what is"; "define";
          "meaning"; "concept"; "examples"; "illustrate" ]%string.

Definition isEducationalExplanationRequest (question : str) : bool :=
  let lowerQuestion := Str.toLowerCase question in
  existsb (fun keyword => Str.includes lowerQuestion keyword) explanationKeywords.

Definition stopWords : list str :=
  JsSet.ofList (map L
    [ "what"; "how"; "why"; "when"; "where"; "who"; "which"; "that"; "this";
      "is"; "are"; "was"; "were"; "be"; "been"; "being"; "have"; "has"; "had";
      "do"; "does"; "did"; "will"; "would"; "could"; "should"; "may"; "might";
      "can"; "could"; "the"; "a"; "an"; "and"; "or"; "but"; "in"; "on"; "at";
      "to"; "for"; "of"; "with"; "by"; "about"; "into"; "through"; "during";
      "before"; "after"; "above"; "below"; "up"; "down"; "out"; "off"; "over";
      "under"; "again"; "further"; "then"; "once"; "explain"; "simpler"; "simple" ]%string).

(** [/[^\w\s]/g] *)
Definition notWordOrSpace : regex :=
  Chr (Chars.non (Chars.or Chars.is_word Chars.is_space)).

Definition extractKeyTerms (question : str) : list str :=
  firstn 5
    (filter (fun w => (2 <? length w) && negb (JsSet.has stopWords w))
      (split spaces (replaceAll notWordOrSpace (fun _ => L " ") (Str.toLowerCase question)))).

(** The paragraphs of a context that are longer than [minLen]. *)
Definition paragraphsOver (minLen : nat) (context : str) : list str :=
  filter (fun p => minLen <? length p) (map Str.trim (split Sectioner.newlines2 context)).

Definition findRelevantContentByTerms (context : str) (keyTerms : list str) : list str :=
  match keyTerms with
  | [] => []
  | _ :: _ =>
      let paragraphs := paragraphsOver 30 context in
      firstn 3
        (filter
           (fun paragraph =>
              let lowerParagraph := Str.toLowerCase paragraph in
              let matchCount :=
                fold_left (fun n term => if Str.includes lowerParagraph term then n + 1 else n)
                          keyTerms 0 in
              0 <? matchCount)
           paragraphs)
  end.

Definition asksSimpler (lowerQuestion : str) : bool :=
  Str.includes lowerQuestion (L "simpler") || Str.includes lowerQuestion (L "simple").

Definition asksDefinition (lowerQuestion : str) : bool :=
  Str.includes lowerQuestion (L "what is") || Str.includes lowerQuestion (L "define").

(** [/[.!?]+/] *)
Definition sentenceEnds : regex := plus (Chr (Chars.one_of ".!?")).

Definition generateEducationalResponse (question : str) (content keyTerms : list str) : str :=
  let lowerQuestion := Str.toLowerCase question in
  let response :=
    if asksSimpler lowerQuestion
    then L "Let me break this down in simpler terms:" ++ [nl; nl]
    else if asksDefinition lowerQuestion
    then L "Here's what I found about this concept:" ++ [nl; nl]
    else L "Based on the content, here's an explanation:" ++ [nl; nl] in
  let summary := firstn 400 (Str.join (L " ") content) in
  let sentences := filter (fun s => 10 <? length (Str.trim s)) (split sentenceEnds summary) in
  let response := response ++ Str.join (L ". ") (map Str.trim (firstn 3 sentences)) in
  let response := if 3 <? length sentences then response ++ L "..." else response in
  let response := response ++ [nl; nl] in
  let response :=
    match keyTerms with
    | [] => response
    | _ :: _ =>
        response ++ L "Key concepts mentioned: " ++ Str.join (L ", ") keyTerms ++ [nl; nl]
    end in
  response ++ L "Would you like me to elaborate on any specific aspect?".

(** The line of the guidance messages that names the source. *)
Definition workingWith (source : str) : str :=
  if Str.truthy source
  then L "Currently working with: *" ++ source ++ L "*"
  else L "Please upload a PDF or select a chapter to get started.".

Definition simplerGuidance (source : str) : str :=
  L "I'd be happy to explain this in simpler terms! However, I need more specific content to work with. 

Here are some suggestions:
• Try asking about a specific concept or term from the document
• Select a particular chapter that contains the topic you're interested in
• Upload a document that covers the subject you want explained

" ++ workingWith source ++ L "

What specific topic would you like me to explain?".

Definition definitionGuidance (source : str) : str :=
  L "I can help define concepts for you! To provide an accurate definition, I need to reference the relevant content from your documents.

Please try:
• Asking about terms that appear in the selected chapter
• Uploading a document that contains the concept you want defined
• Being more specific about which subject area you're exploring

" ++ workingWith source ++ L "

What term or concept would you like me to define?".

Definition explanationGuidance (source : str) : str :=
  L "I understand you're looking for an educational explanation. I'm designed to help explain concepts from your uploaded documents in a clear, accessible way.

To provide the best explanation:
• Make sure you have content selected from a chapter or document
• Ask about specific topics that appear in your materials
• I can break down complex concepts into simpler terms

" ++ workingWith source ++ L "

What would you like me to help explain?".

Definition handleEducationalExplanation
           (question context : str) (sections : list Section_) (activeId : option str) : str :=
  let lowerQuestion := Str.toLowerCase question in
  let keyTerms := extractKeyTerms question in
  let relevantContent := findRelevantContentByTerms context keyTerms in
  match relevantContent with
  | _ :: _ => generateEducationalResponse question relevantContent keyTerms
  | [] =>
      let source := getSourceInfo sections activeId in
      if asksSimpler lowerQuestion then simplerGuidance source
      else if asksDefinition lowerQuestion then definitionGuidance source
      else explanationGuidance source
  end.

Definition genericGuidance (source : str) : str :=
  L "I couldn't find specific information directly addressing your question in the current content. 

Here are some suggestions:
• Try rephrasing your question with different keywords
• Check if you've selected the most relevant chapter or section
• Ask about topics that are explicitly mentioned in the document

" ++ workingWith source ++ L "

What specific aspect would you like to explore?".

Definition generateEnhancedFallback
           (question context : str) (sections : list Section_) (activeId : option str) : str :=
  let source := getSourceInfo sections activeId in
  if isEducationalExplanationRequest question
  then handleEducationalExplanation question context sections activeId
  else genericGuidance source.

Definition generateIntroPhrase (question : str) : str :=
  let q := Str.toLowerCase question in
  if Str.includes q (L "what") || Str.includes q (L "explain") then []
  else if Str.includes q (L "how") then L "According to the content, "
  else if Str.includes q (L "why") then L "The document suggests that "
  else if Str.includes q (L "when") || Str.includes q (L "where")
  then L "Based on the information, "
  else if Str.includes q (L "who") then L "The text indicates that "
  else [].

Definition noClearAnswer : str :=
  L "I found some related content, but it's difficult to extract a clear answer to your specific question.".

Definition generateNaturalAnswer (question : str) (paragraphs : list str) : str :=
  let combinedText := firstn 1000 (Str.join (L " ") paragraphs) in
  let sentences :=
    firstn 6 (filter (fun s => 20 <? length s) (split Summarize.sentenceBreak combinedText)) in
  match sentences with
  | [] => noClearAnswer
  | _ :: _ =>
      let answer := Str.trim (replaceAll spaces (fun _ => L " ") (Str.join (L " ") sentences)) in
      generateIntroPhrase question ++ answer
  end.

Definition notEnoughContent : str :=
  L "I don't have enough content to answer your question. Please make sure you've selected a chapter with substantial content.".

Definition noContent : str :=
  L "No content available. Please upload a PDF or select a chapter.".

(** [(a, b) => b.score - a.score] is not positive. *)
Definition byScoreDesc (a b : nat * float) : bool := Num.notPositive (snd b - snd a)%float.

(** [s.score > 0.1] *)
Definition relevanceFloor : float := 0.1%float.
Definition aboveFloor (s : nat * float) : bool := (relevanceFloor <? snd s)%float.

Definition withSource (answer source : str) : str :=
  answer ++ [nl; nl] ++ L "*" ++ source ++ L "*".

(** The AI responder, when there is one: it answers or fails. *)
Definition responder : Type := str -> str -> option str.

Section WithLog.
(** [Math.log] *)
Variable log : float -> float.

(** [scored]: the three best paragraphs, with their positions. *)
Definition scored (question : str) (paras : list str) : list (nat * float) :=
  let c := tfidfParagraphs log paras in
  let qvec := vectorizeQuery log question (vocabulary c) (length paras) in
  firstn 3 (Arr.sort byScoreDesc (Arr.indexed (map (fun v => cosine qvec v) (vectors c)))).

Definition relevantParagraphs (question : str) (paras : list str) : list str :=
  map (fun s => nth (fst s) paras []) (filter aboveFloor (scored question paras)).

Definition generateRuleBasedAnswer
           (question cleanContext : str) (sections : list Section_) (activeId : option str)
  : str :=
  if isEducationalExplanationRequest question
  then handleEducationalExplanation question cleanContext sections activeId
  else
    let paras := paragraphsOver 50 cleanContext in
    match paras with
    | [] => notEnoughContent
    | _ :: _ =>
        match relevantParagraphs question paras with
        | [] => generateEnhancedFallback question cleanContext sections activeId
        | relevant =>
            let answer := generateNaturalAnswer question relevant in
            let source := getSourceInfo sections activeId in
            withSource answer source
        end
    end.

Definition demoAnswer (aiService : option responder)
           (question context : str) (sections : list Section_) (activeId : option str) : str :=
  if Str.is_empty context || (length (Str.trim context) =? 0) then noContent
  else
    let cleanContext := cleanContent context in
    let viaRules := generateRuleBasedAnswer question cleanContext sections activeId in
    match aiService with
    | Some ai =>
        match ai question cleanContext with
        | Some response => withSource response (getSourceInfo sections activeId)
        | None => viaRules
        end
    | None => viaRules
    end.
End WithLog.

End Chat.

(** ** Notions the properties are stated with *)

Module Spec.

(** The number of times [t] occurs in a token list. *)
Definition termFrequency (t : str) (toks : list str) : nat :=
  count_occ (list_eq_dec ascii_dec) toks t.

(** The number of paragraphs in which the token [t] occurs at least once. *)
Definition documentFrequency (t : str) (paragraphs : list str) : nat :=
  length (filter (fun p => JsSet.has (Search.tokenize p) t) paragraphs).

(** No token of the question occurs in a paragraph. *)
Definition noTermOverlap (question : str) (paras : list str) : Prop :=
  forall t p, In t (Search.tokenize question) -> In p paras -> ~ In t (Search.tokenize p).

(** A map of the language has each key once. *)
Definition wellFormed (V : Type) (m : JsMap.t V) : Prop := NoDup (JsMap.keys m).


(** [xs] is [ys] with some elements left out, the order kept. *)
Inductive subsequence (A : Type) : list A -> list A -> Prop :=
| sub_nil : subsequence [] []
| sub_skip : forall x xs ys, subsequence xs ys -> subsequence xs (x :: ys)
| sub_take : forall x xs ys, subsequence xs ys -> subsequence (x :: xs) (x :: ys).

(** The pages a section spans, when it carries both ends. *)
Definition pagesOf (s : Section_) : list nat :=
  match startPage s, endPage s with
  | Some a, Some b => seq a (b + 1 - a)
  | _, _ => []
  end.

(** The pages a list of sections spans, in order. *)
Definition pagesCovered (r : list Section_) : list nat := flat_map pagesOf r.

(** The [k]-th window of eight pages (counted from 0) of [rawPages]. *)
Definition windowAt (rawPages : list str) (k : nat) (s : Section_) : Prop :=
  title s = L "Section " ++ Str.ofNat (k + 1)
  /\ startPage s = Some (8 * k + 1)
  /\ endPage s = Some (Nat.min (8 * k + 8) (length rawPages))
  /\ text s =
     Sectioner.cleanTextContent
       (Str.join [nl; nl]
          (Sectioner.mapi (fun j p => Sectioner.pageTag (8 * k + j + 1) ++ p) 0
                          (firstn 8 (skipn (8 * k) rawPages)))).

(** [s] starts with a page marker whose digits are [ds]. *)
Definition markerAt (s ds : str) : Prop :=
  ds <> [] /\ Forall (fun c => Chars.is_digit c = true) ds
  /\ exists tl, s = L "[[PAGE:" ++ ds ++ L "]]" ++ tl.

(** No page marker occurs in [t]. *)
Definition markerFree (t : str) : Prop :=
  forall pre suf ds, t = pre ++ suf -> ~ markerAt suf ds.

(** No two line breaks in a row. *)
Definition noBlankLine (q : str) : Prop := forall a b, q <> a ++ nl :: nl :: b.

(** A piece of [S] cut at blank lines: it holds no blank line and, unless
    it is the first, it does not begin with a line break. *)
Definition blockOf (S q : str) : Prop :=
  exists pre post,
    S = pre ++ q ++ post
    /\ (pre <> [] -> forall q', q <> nl :: q')
    /\ noBlankLine q.

(** The pages from number [i0 + 1] on, each behind its marker, joined by
    blank lines: [all] of [splitChapters]. *)
Definition taggedFrom (i0 : nat) (pages : list str) : str :=
  Str.join [nl; nl] (Sectioner.mapi (fun i t => Sectioner.pageTag (i + 1) ++ t) i0 pages).

(** The lines of a block that are not blank: [lines] of [splitChapters]. *)
Definition linesOf (b : str) : list str :=
  filter (fun line => Str.truthy (Str.trim line)) (Re.split Sectioner.newline b).

(** A block in which a page marker, if there is one, gives a page from 1 to
    [n] and stands on a first line that is no heading. *)
Definition blockTamed (n : nat) (b : str) : Prop :=
  forall k, Sectioner.firstPageOf b = Some k ->
            1 <= k <= n
            /\ exists line0 rest,
                linesOf b = line0 :: rest
                /\ Sectioner.isHeader (Sectioner.isLikelyHeader (Str.trim line0)) = false.

(** [startPage <= endPage] for a section that carries both. *)
Definition pagesOrdered (s : Section_) : Prop :=
  forall a b, startPage s = Some a -> endPage s = Some b -> a <= b.

(** The state of the loop of [splitChapters] keeps the pages in order: the
    sections pushed are ordered and the open section starts on a page from
    1 to [n]. *)
Definition tame (n : nat) (st : Sectioner.loopState) : Prop :=
  Forall pagesOrdered (Sectioner.sections st)
  /\ forall cur a, Sectioner.current st = Some cur ->
                   Sectioner.curStartPage cur = Some a -> 1 <= a <= n.

End Spec.

(** ** Notions on doubles

    The properties of the scores are proved from the specification of the
    doubles as sign, mantissa and exponent ([spec_float]). *)

Module Ieee.

Local Open Scope Z_scope.

Definition nonNan (x : spec_float) : Prop :=
  match x with S754_nan => False | _ => True end.

(** A zero of either sign, or NaN: what a product with [0] can be. *)
Definition nullish (x : spec_float) : Prop :=
  match x with S754_zero _ | S754_nan => True | _ => False end.


(** Of the sign [s], and no NaN. *)
Definition signed (s : bool) (x : spec_float) : Prop :=
  match x with
  | S754_zero s' | S754_infinity s' | S754_finite s' _ _ => s' = s
  | S754_nan => False
  end.

(** Of the sign [s], and neither zero nor NaN. *)
Definition signedNonzero (s : bool) (x : spec_float) : Prop :=
  match x with
  | S754_infinity s' | S754_finite s' _ _ => s' = s
  | _ => False
  end.

(** The place of a double on the number line, as a triple to be compared
    lexicographically. *)
Definition key (x : spec_float) : Z * Z * Z :=
  match x with
  | S754_infinity true => (-2, 0, 0)
  | S754_finite true m e => (-1, - e, Zneg m)
  | S754_zero _ | S754_nan => (0, 0, 0)
  | S754_finite false m e => (1, e, Zpos m)
  | S754_infinity false => (2, 0, 0)
  end.

Definition lexLe (a b : Z * Z * Z) : Prop :=
  fst (fst a) < fst (fst b)
  \/ (fst (fst a) = fst (fst b)
      /\ (snd (fst a) < snd (fst b)
          \/ (snd (fst a) = snd (fst b) /\ snd a <= snd b))).

(** [Num.notPositive] on the specification. *)
Definition sfNotPositive (v : spec_float) : bool :=
  match v with S754_nan => true | _ => SFleb v (S754_zero false) end.

(** A double that is neither negative nor NaN; [-0] is not among them. *)
Definition unsigned (x : float) : Prop := signed false (Prim2SF x).

End Ieee.

(** ** Sample inputs *)

Module Samples.

Definition uuid (n : nat) : str := L "id-" ++ Str.ofNat n.

Definition twoSections : list Section_ :=
  [ mkSection (L "id-1") (L "doc") (L "Origins") (Some 1) (Some 3) (L "a") (Some 1);
    mkSection (L "id-2") (L "doc") (L "Growth") (Some 4) None (L "b") (Some 1) ].


(** The two pages of the "Origins" scenario. *)
Definition originsPages : list str :=
  [ L "Chapter 1: Origins" ++ [nl] ++ L "Long paragraph A..."; L "More text..." ].

Definition onePage : list str := [ L "short" ].

Definition shortText : str := L "  One. Two. Three.  ".


Definition explainQuestion : str := L "explain gravity".
Definition briefContext : str := L "Gravity pulls objects toward the Earth.".

Definition gravityContext : str :=
  L "Gravity is the force that pulls every object toward the centre of the Earth.".


Definition oneParagraph : list str := [ L "a b a" ].

(** [Math.log] where the language fixes its value: [Math.log(1)] is
    [+0]. Elsewhere this oracle answers [NaN]; the samples whose weights
    or scores are computed read it at 1 alone. *)
Definition logAtOne (x : float) : float :=
  if (x =? 1)%float then 0%float else PrimFloat.nan.





Definition gravityWord : str := L "gravity".

(** One paragraph in which the word of the question occurs once among
    fifteen others. *)
Definition applesContext : str :=
  L "gravity apple apple apple apple apple apple apple apple apple apple apple apple apple apple apple".

(** Four paragraphs over the same four words. *)
Definition fourParagraphs : str :=
  L "gravity apples apples apples down down down pulls pulls pulls" ++ [nl; nl]
  ++ L "gravity gravity gravity gravity gravity gravity gravity gravity apples apples down down pulls pulls"
  ++ [nl; nl]
  ++ L "gravity apples apples apples apples apples apples apples down down down down down down pulls pulls pulls pulls pulls pulls"
  ++ [nl; nl]
  ++ L "gravity apples apples apples apples apples apples apples apples down down down down down down down down pulls pulls pulls pulls pulls pulls pulls pulls".

(** Ten times one tenth and once one. *)
Definition tenthsText : str := L "a a a a a a a a a a. Zebra. b. b.".


(** A page whose text holds a page marker of its own. *)
Definition markerPages : list str :=
  [ [nl; nl] ++ L "Introduction" ++ [nl]
    ++ L "[[PAGE:9]] followed by some long text over fifty characters in total." ].

Definition zebraQuestion : str := L "zebra".

End Samples.

(** * Further parts of the code

    The podcast script ([lib/podcastScript.ts]), the times of the player
    ([lib/enhancedTTS.ts]) and the question box of the chat pane
    ([components/ChatPane.tsx]). Times are integers ([Z]), in milliseconds
    unless said otherwise. *)

Module Podcast.

Inductive Speaker : Type := host1 | host2.

Record PodcastSegment : Type := mkSegment {
  speaker : Speaker;
  text : str;
  duration : option nat
}.

Record PodcastScript : Type := mkScript {
  title : str;
  segments : list PodcastSegment;
  totalDuration : option nat
}.

(** [Math.ceil(totalText / 3)], in seconds. *)
Definition estimateTotalDuration (segments : list PodcastSegment) : nat :=
  let totalText := fold_left (fun sum segment => sum + length (text segment)) segments 0 in
  (totalText + 2) / 3.

(** [/[,;]+/] *)
Definition listMarks : Re.regex := Re.plus (Re.Chr (Chars.one_of ",;")).

(** [cleanContent] of [extractKeyPoints]. *)
Definition cleanContent (content : str) : str :=
  Str.trim
    (Re.replaceAll Search.spaces (fun _ => L " ")
      (Re.replaceAll Chat.pageMarker (fun _ => []) content)).

Definition extractKeyPoints (content : str) : list str :=
  let sentences :=
    firstn 8 (filter (fun s => 30 <? length s)
                     (map Str.trim (Re.split Chat.sentenceEnds (cleanContent content)))) in
  if length sentences <? 3
  then
    let phrases :=
      firstn 6 (filter (fun p => 20 <? length p)
                       (map Str.trim (Re.split listMarks (cleanContent content)))) in
    match phrases with
    | [] => [cleanContent content]
    | _ :: _ => phrases
    end
  else sentences.

Definition openings (title : str) : list str :=
  [ L "Hey everyone! So I just finished reading through " ++ [Chat.dq] ++ title ++ [Chat.dq]
      ++ L " and honestly, there's some fascinating stuff here that I think you'll find really interesting.";
    L "You know what? I've been diving deep into " ++ [Chat.dq] ++ title ++ [Chat.dq]
      ++ L " and there are some insights here that completely changed how I think about this topic.";
    L "Alright, so we're talking about " ++ [Chat.dq] ++ title ++ [Chat.dq]
      ++ L " today, and let me tell you - this isn't your typical dry academic stuff. There's some real gold here." ].

Definition responses : list str :=
  [ L "Oh really? I'm intrigued! What caught your attention first?";
    L "That sounds promising! I love it when something actually makes you think differently. What's the main thing that stood out?";
    L "Now you've got me curious! Break it down for me - what makes this so compelling?" ].

Definition reactions : list str :=
  [ L "Wow, that's actually really profound when you think about it. It reminds me of...";
    L "Hold on, that's interesting. So you're saying...";
    L "That's a great point! And what I find fascinating is how this connects to...";
    L "Hmm, I never thought about it that way. This actually explains why..." ].

Definition transitions : list str :=
  [ L "And here's another thing that blew my mind:";
    L "But wait, it gets even more interesting:";
    L "Now, this next part is where it really clicks:";
    L "Here's where things get really fascinating:";
    L "And then there's this insight that just makes so much sense:" ].

Definition engagedResponses : list str :=
  [ L "Oh my god, yes! That completely changes the whole perspective, doesn't it?";
    L "That's exactly what I was thinking! It's like suddenly everything just connects.";
    L "This is why I love this stuff! It's not just theory - you can actually see how it applies to real life.";
    L "Right?! And what's crazy is how this contradicts what most people assume.";
    L "I'm getting goosebumps just thinking about the implications of this!";
    L "This is the kind of insight that keeps me up at night thinking about it.";
    L "You know what? This actually happened to me last week - I saw exactly this pattern!" ].

Definition followUps : list str :=
  [ L "But here's what I'm wondering - how does this actually play out in practice?";
    L "The more I think about this, the more questions I have. Like, what does this mean for...";
    L "You know what's wild? I bet most people have experienced this without even realizing it.";
    L "This is making me rethink everything I thought I knew about this topic." ].

Definition conclusions : list str :=
  [ L "You know what? This conversation has been incredible. I feel like I understand this topic on a completely different level now.";
    L "This has been such an eye-opening discussion! I'm definitely going to be thinking about these ideas for days.";
    L "Wow, we've covered so much ground here. I love how everything connects together in ways you don't expect." ].

Definition closings : list str :=
  [ L "Absolutely! And honestly, this is just the tip of the iceberg. There's so much more to explore here. Thanks for diving deep with me on this one!";
    L "I couldn't agree more! These are the kinds of conversations that make everything click. Thanks for bringing such great insights to this discussion!";
    L "Exactly! And I love how we can take these complex ideas and make them feel so relatable. This has been awesome - thanks for the great conversation!" ].

(** [Math.random] is an oracle: [random call n] is
    [Math.floor(Math.random() * n)] at its [call]-th call, counted from 0;
    it is below [n], as [Math.random()] is below 1. The parameter [speakers]
    of the source is not read by the template. *)
Section WithRandom.
Variable random : nat -> nat -> nat.

(** [xs[Math.floor(Math.random() * xs.length)]] *)
Definition choose (call : nat) (xs : list str) : str := nth (random call (length xs)) xs [].

(** One turn of [points.forEach]: the segments pushed for the point at
    [index] of [total], and the number of calls of [Math.random] so far. *)
Definition discussPoint (total index : nat) (point : str) (calls : nat)
  : list PodcastSegment * nat :=
  let leadSpeaker := if index mod 2 =? 0 then host1 else host2 in
  let respondSpeaker := match leadSpeaker with host1 => host2 | host2 => host1 end in
  let exchange :=
    if index =? 0
    then [ mkSegment leadSpeaker (L "So here's what really got me thinking: " ++ point) None;
           mkSegment respondSpeaker (choose calls reactions) None ]
    else [ mkSegment leadSpeaker
                     (nth (index mod length transitions) transitions [] ++ L " " ++ point) None;
           mkSegment respondSpeaker (choose calls engagedResponses) None ] in
  if (index mod 3 =? 2) && (index <? total - 1)
  then (exchange ++ [ mkSegment respondSpeaker (choose (calls + 1) followUps) None ], calls + 2)
  else (exchange, calls + 1).

Fixpoint discuss (total index : nat) (points : list str) (calls : nat)
  : list PodcastSegment * nat :=
  match points with
  | [] => ([], calls)
  | point :: rest =>
      let here := discussPoint total index point calls in
      let after := discuss total (S index) rest (snd here) in
      (fst here ++ fst after, snd after)
  end.

Definition generateTemplatePodcastScript (title content : str) : PodcastScript :=
  let points := extractKeyPoints content in
  let middle := discuss (length points) 0 points 2 in
  let segments :=
    [ mkSegment host1 (choose 0 (openings title)) None;
      mkSegment host2 (choose 1 responses) None ]
    ++ fst middle
    ++ [ mkSegment host2 (choose (snd middle) conclusions) None;
         mkSegment host1 (choose (snd middle + 1) closings) None ] in
  mkScript (L "Podcast Discussion: " ++ title) segments (Some (estimateTotalDuration segments)).

End WithRandom.

End Podcast.

Module Tts.

(** [Math.ceil(text.length / 3) * 1000] *)
Definition estimateSegmentDuration (text : str) : nat := (length text + 2) / 3 * 1000.

(** [state.totalTime], as [playScript] sets it. *)
Definition totalTime (script : Podcast.PodcastScript) : nat :=
  fold_left (fun total segment => total + estimateSegmentDuration (Podcast.text segment))
            (Podcast.segments script) 0.

(** [n.toString()] for an integer. *)
Definition ofInt (z : Z) : str :=
  if (z <? 0)%Z then L "-" ++ Str.ofNat (Z.to_nat (- z)) else Str.ofNat (Z.to_nat z).

(** [s.padStart(n, c)] for a filler of one code unit. *)
Definition padStart (n : nat) (c : ascii) (s : str) : str := repeat c (n - length s) ++ s.

(** The times of the player are whole numbers of milliseconds. For such a
    time from 0 to 2^53 - 1 the doubles of the source compute exactly:
    [Math.floor(x / d)] is [Z.div] for [d] = 1000 and [d] = 60 (the quotient
    lies at least 1/1000 below the next whole number, more than the
    rounding of the division can bridge), and [%] is [Z.rem]. Beyond 2^53
    this definition does not follow the source. *)
Definition formatTime (milliseconds : Z) : str :=
  let seconds := (milliseconds / 1000)%Z in
  let minutes := (seconds / 60)%Z in
  let remainingSeconds := Z.rem seconds 60 in
  ofInt minutes ++ L ":" ++ padStart 2 "0"%char (ofInt remainingSeconds).

End Tts.

Module Ui.

Inductive Scope : Type := all | current.

Inductive Role : Type := user | assistant.

Record ChatTurn : Type := mkTurn {
  role : Role;
  content : str
}.

(** [context] of [ask]: the text of the active section, or the texts of all
    the sections with blank lines between them. *)
Definition contextOf (scope : Scope) (sections : list Section_) (activeSectionId : option str)
  : str :=
  match scope with
  | current =>
      match Chat.findActive sections activeSectionId with
      | Some s => text s
      | None => []
      end
  | all => Str.join [nl; nl] (map text sections)
  end.

(** [ask]: the turns it adds to the chat, in order. *)
Definition ask (log : float -> float) (aiService : option Chat.responder) (scope : Scope)
           (input : str) (sections : list Section_) (activeSectionId : option str)
  : list ChatTurn :=
  let context := contextOf scope sections activeSectionId in
  if Str.is_empty (Str.trim input) then []
  else
    let q := Str.trim input in
    [ mkTurn user q;
      mkTurn assistant (Chat.demoAnswer log aiService q context sections activeSectionId) ].

End Ui.

(** ** Notions the further properties are stated with *)

Module Notions.

(** The longest prefix of [s] within the class [p]. *)
Fixpoint takeWhile (p : ascii -> bool) (s : str) : str :=
  match s with
  | [] => []
  | c :: s' => if p c then c :: takeWhile p s' else []
  end.

(** No white space at either end. *)
Definition trimmed (s : str) : Prop :=
  (forall c r, s = c :: r -> Chars.is_space c = false)
  /\ (forall r c, s = r ++ [c] -> Chars.is_space c = false).

(** [a-z0-9] *)
Definition tokenChar (c : ascii) : bool := Chars.is_lower c || Chars.is_digit c.

(** [a-z0-9_] *)
Definition termChar (c : ascii) : bool := tokenChar c || (Chars.code c =? 95).

(** A code unit that, if it is white space, is the blank. *)
Definition singleSpaced (c : ascii) : Prop :=
  Chars.is_space c = true -> c = " "%char.

(** A section as [splitChapters] pushes it when [i] sections were pushed
    before: it carries the [i]-th identifier drawn and the source given, a
    title, a text with no white space at either end, and the token estimate
    of that text. *)
Definition wellMade (uuid : nat -> str) (src : str) (i : nat) (s : Section_) : Prop :=
  id s = uuid i
  /\ sourceId s = src
  /\ title s <> []
  /\ trimmed (text s)
  /\ tokensEstimated s = Some (Sectioner.estimateTokens (text s)).

(** The code units of the texts of some segments, and the thirds of them,
    each segment's rounded up. *)
Definition characters (segments : list Podcast.PodcastSegment) : nat :=
  list_sum (map (fun s => length (Podcast.text s)) segments).

Definition thirds (segments : list Podcast.PodcastSegment) : nat :=
  list_sum (map (fun s => (length (Podcast.text s) + 2) / 3) segments).

(** No two white-space code units in a row. *)
Fixpoint sparse (s : str) : Prop :=
  match s with
  | x :: ((y :: _) as s') =>
      (Chars.is_space x = true -> Chars.is_space y = false) /\ sparse s'
  | _ => True
  end.

(** The first code unit of a string is white space. *)
Definition startsBlank (s : str) : Prop :=
  match s with c :: _ => Chars.is_space c = true | [] => False end.

(** What the matcher keeps of an input all of whose code units satisfy [P]. *)
Definition within (P : ascii -> Prop) (st : Re.state) : Prop :=
  Forall P (Re.rest st) /\ Forall (fun kv => Forall P (snd kv)) (Re.caps st).

End Notions.

(** ** Facts on strings *)

Module StrFacts.

Lemma eqb_eq (a b : str) : Str.eqb a b = true <-> a = b.
Proof.
  unfold Str.eqb. destruct (list_eq_dec ascii_dec a b); split; congruence.
Qed.

Lemma eqb_refl (a : str) : Str.eqb a a = true.
Proof. now apply eqb_eq. Qed.

Lemma eqb_neq (a b : str) : Str.eqb a b = false <-> a <> b.
Proof.
  unfold Str.eqb. destruct (list_eq_dec ascii_dec a b); split; congruence.
Qed.

Lemma truthy_nonempty (s : str) : Str.truthy s = true <-> s <> [].
Proof. destruct s; unfold Str.truthy; simpl; split; congruence. Qed.

Lemma app_nonempty_l (a b : str) : a <> [] -> a ++ b <> [].
Proof. destruct a; simpl; congruence. Qed.

Lemma app_nonempty_r (a b : str) : b <> [] -> a ++ b <> [].
Proof. destruct a; simpl; [auto | congruence]. Qed.

End StrFacts.

(** ** Facts on doubles *)

Module FloatFacts.

Import Ieee.

Local Open Scope Z_scope.
#[local] Unset Implicit Arguments.

Section Format.
Variables prec emax : Z.
Hypothesis Hprec : 0 < prec.

Local Abbreviation emin' := (SpecFloat.emin prec emax).
Local Abbreviation fexp' := (SpecFloat.fexp prec emax).

Lemma digits_bounds (m : positive) :
  2 ^ (Zpos (digits2_pos m) - 1) <= Zpos m < 2 ^ Zpos (digits2_pos m).
Proof.
  induction m as [m IH|m IH|]; cbn [digits2_pos].
  - rewrite Pos2Z.inj_succ. replace (Z.succ (Zpos (digits2_pos m)) - 1) with (Zpos (digits2_pos m)) by lia.
    rewrite Z.pow_succ_r by lia.
    replace (Zpos (digits2_pos m)) with (Z.succ (Zpos (digits2_pos m) - 1)) at 1 by lia.
    rewrite Z.pow_succ_r by lia. lia.
  - rewrite Pos2Z.inj_succ. replace (Z.succ (Zpos (digits2_pos m)) - 1) with (Zpos (digits2_pos m)) by lia.
    rewrite Z.pow_succ_r by lia.
    replace (Zpos (digits2_pos m)) with (Z.succ (Zpos (digits2_pos m) - 1)) at 1 by lia.
    rewrite Z.pow_succ_r by lia. lia.
  - cbn. lia.
Qed.

Lemma fexp_ge_emin (e : Z) : emin' <= fexp' e.
Proof. unfold SpecFloat.fexp. lia. Qed.

(** What a canonical mantissa says. *)
Lemma canonical_facts (m : positive) (e : Z) :
  canonical_mantissa prec emax m e = true ->
  emin' <= e /\ Zpos (digits2_pos m) <= prec
  /\ (emin' < e -> Zpos (digits2_pos m) = prec).
Proof.
  unfold canonical_mantissa, SpecFloat.fexp. intros H. apply Z.eqb_eq in H. lia.
Qed.

Lemma iter_xO (m : positive) (d : positive) :
  Zpos (Pos.iter xO m d) = Zpos m * 2 ^ Zpos d.
Proof.
  induction d as [|d IH] using Pos.peano_ind.
  - cbn. lia.
  - rewrite Pos.iter_succ, Pos2Z.inj_succ, Z.pow_succ_r by lia.
    rewrite Pos2Z.inj_xO, IH. lia.
Qed.

Lemma shl_align_value (m : positive) (e e' : Z) :
  e' <= e ->
  Zpos (fst (shl_align m e e')) = Zpos m * 2 ^ (e - e')
  /\ snd (shl_align m e e') = e'.
Proof.
  intros Hle. unfold shl_align. destruct (e' - e) as [|d|d] eqn:E.
  - assert (e' = e) as -> by lia. cbn [fst snd]. rewrite Z.sub_diag. cbn. lia.
  - lia.
  - cbn [fst snd]. rewrite iter_xO. replace (e - e') with (Zpos d) by lia. lia.
Qed.

Lemma shl_align_snd_ge (m : positive) (e e' : Z) :
  Z.min e e' <= snd (shl_align m e e').
Proof. unfold shl_align. destruct (e' - e) eqn:E; cbn [snd]; lia. Qed.

Lemma shl_align_digits (m : positive) (e e' : Z) :
  Zpos (digits2_pos (fst (shl_align m e e'))) + snd (shl_align m e e')
  = Zpos (digits2_pos m) + e.
Proof.
  unfold shl_align. destruct (e' - e) as [|d|d] eqn:E; cbn [fst snd]; try reflexivity.
  assert (forall d m, Zpos (digits2_pos (Pos.iter xO m d)) = Zpos (digits2_pos m) + Zpos d) as H.
  { clear. intros d m. induction d as [|d IH] using Pos.peano_ind.
    - cbn. lia.
    - rewrite Pos.iter_succ. cbn [digits2_pos]. rewrite Pos2Z.inj_succ, IH. lia. }
  rewrite H. lia.
Qed.

(** Shifting to the right. *)
Lemma shr_1_m (mrs : shr_record) :
  0 <= shr_m mrs -> shr_m (shr_1 mrs) = Z.div2 (shr_m mrs).
Proof.
  destruct mrs as [m r s]. cbn [shr_m]. intros Hm. unfold shr_1.
  destruct m as [|[p|p|]|p]; cbn [shr_m]; try reflexivity; lia.
Qed.

Lemma iter_shr_m (p : positive) :
  forall mrs, 0 <= shr_m mrs ->
              shr_m (SpecFloat.iter_pos shr_1 p mrs) = Z.shiftr (shr_m mrs) (Zpos p).
Proof.
  induction p as [p IH|p IH|]; intros mrs Hm; cbn [SpecFloat.iter_pos].
  - assert (0 <= shr_m (shr_1 mrs)) as H1.
    { rewrite shr_1_m by exact Hm. rewrite Z.div2_div. apply Z.div_pos; lia. }
    assert (0 <= shr_m (SpecFloat.iter_pos shr_1 p (shr_1 mrs))) as H2.
    { rewrite IH by exact H1. apply Z.shiftr_nonneg. exact H1. }
    rewrite IH by exact H2. rewrite IH by exact H1. rewrite shr_1_m by exact Hm.
    rewrite Z.div2_spec, !Z.shiftr_shiftr by lia. f_equal. lia.
  - assert (0 <= shr_m (SpecFloat.iter_pos shr_1 p mrs)) as H2.
    { rewrite IH by exact Hm. apply Z.shiftr_nonneg. exact Hm. }
    rewrite IH by exact H2. rewrite IH by exact Hm.
    rewrite !Z.shiftr_shiftr by lia. f_equal. lia.
  - rewrite shr_1_m by exact Hm. now rewrite Z.div2_spec.
Qed.

Lemma shr_record_of_loc_m (m : Z) (l : location) : shr_m (shr_record_of_loc m l) = m.
Proof. destruct l as [|[]]; reflexivity. Qed.

(** A right shift to the format keeps a positive mantissa positive. *)
Lemma shr_fexp_pos (m : positive) (e : Z) (l : location) :
  emin' <= e ->
  0 < shr_m (fst (shr_fexp prec emax (Zpos m) e l))
  /\ emin' <= snd (shr_fexp prec emax (Zpos m) e l).
Proof.
  intros He. unfold shr_fexp, shr. cbn [Zdigits2].
  destruct (fexp' (Zpos (digits2_pos m) + e) - e) as [|n|n] eqn:En; cbn [fst snd].
  - rewrite shr_record_of_loc_m. lia.
  - rewrite iter_shr_m by (rewrite shr_record_of_loc_m; lia).
    rewrite shr_record_of_loc_m. split; [|lia].
    unfold SpecFloat.fexp in En.
    assert (Zpos n = Zpos (digits2_pos m) - prec) as Hn by lia.
    rewrite Z.shiftr_div_pow2 by lia.
    pose proof (digits_bounds m) as [Hlo _].
    apply Z.div_str_pos. split; [lia|].
    etransitivity; [|exact Hlo]. apply Z.pow_le_mono_r; lia.
  - rewrite shr_record_of_loc_m. lia.
Qed.

Lemma shr_fexp_nonneg (m e : Z) (l : location) :
  0 <= m -> 0 <= shr_m (fst (shr_fexp prec emax m e l)).
Proof.
  intros Hm. unfold shr_fexp, shr.
  destruct (fexp' (Zdigits2 m + e) - e) as [|n|n]; cbn [fst];
    try (rewrite shr_record_of_loc_m; exact Hm).
  rewrite iter_shr_m by (rewrite shr_record_of_loc_m; lia).
  rewrite shr_record_of_loc_m. now apply Z.shiftr_nonneg.
Qed.

Lemma round_nearest_even_ge (m : Z) (l : location) : m <= round_nearest_even m l.
Proof. unfold round_nearest_even. destruct l as [|[]]; try lia. destruct (Z.even m); lia. Qed.

Lemma round_aux_signed (s : bool) (m e : Z) (l : location) :
  0 <= m -> signed s (binary_round_aux prec emax s m e l).
Proof.
  intros Hm. unfold binary_round_aux.
  destruct (shr_fexp prec emax m e l) as [mrs' e'] eqn:E1.
  pose proof (shr_fexp_nonneg m e l Hm) as H1. rewrite E1 in H1. cbn [fst] in H1.
  destruct (shr_fexp prec emax (round_nearest_even (shr_m mrs') (loc_of_shr_record mrs')) e' loc_Exact)
    as [mrs'' e''] eqn:E2.
  pose proof (shr_fexp_nonneg (round_nearest_even (shr_m mrs') (loc_of_shr_record mrs')) e' loc_Exact) as H2.
  rewrite E2 in H2. cbn [fst] in H2.
  specialize (H2 ltac:(pose proof (round_nearest_even_ge (shr_m mrs') (loc_of_shr_record mrs')); lia)).
  destruct (shr_m mrs'') as [|p|p]; [reflexivity | | lia].
  destruct (e'' <=? emax - prec); reflexivity.
Qed.

Lemma round_aux_nonzero (s : bool) (m : positive) (e : Z) (l : location) :
  emin' <= e -> signedNonzero s (binary_round_aux prec emax s (Zpos m) e l).
Proof.
  intros He. unfold binary_round_aux.
  destruct (shr_fexp prec emax (Zpos m) e l) as [mrs' e'] eqn:E1.
  pose proof (shr_fexp_pos m e l He) as [H1 H1e]. rewrite E1 in H1, H1e. cbn [fst snd] in H1, H1e.
  pose proof (round_nearest_even_ge (shr_m mrs') (loc_of_shr_record mrs')) as Hr.
  destruct (round_nearest_even (shr_m mrs') (loc_of_shr_record mrs')) as [|m2|m2] eqn:Em2; try lia.
  destruct (shr_fexp prec emax (Zpos m2) e' loc_Exact) as [mrs'' e''] eqn:E2.
  pose proof (shr_fexp_pos m2 e' loc_Exact H1e) as [H2 _]. rewrite E2 in H2. cbn [fst] in H2.
  destruct (shr_m mrs'') as [|p|p]; [lia | | lia].
  destruct (e'' <=? emax - prec); reflexivity.
Qed.

Lemma round_nonzero (s : bool) (m : positive) (e : Z) :
  emin' <= e -> signedNonzero s (binary_round prec emax s m e).
Proof.
  intros He. unfold binary_round.
  destruct (shl_align m e (fexp' (Zpos (digits2_pos m) + e))) as [mz ez] eqn:E.
  apply round_aux_nonzero.
  pose proof (shl_align_snd_ge m e (fexp' (Zpos (digits2_pos m) + e))) as H.
  rewrite E in H. cbn [snd] in H.
  pose proof (fexp_ge_emin (Zpos (digits2_pos m) + e)). lia.
Qed.


Lemma round_signed (s : bool) (m : positive) (e : Z) :
  signed s (binary_round prec emax s m e).
Proof.
  unfold binary_round.
  destruct (shl_align m e (fexp' (Zpos (digits2_pos m) + e))) as [mz ez].
  apply round_aux_signed. lia.
Qed.

(** Two canonical mantissas compare as their aligned values do. *)
Lemma cmp_aligned (mx : positive) (ex : Z) (my : positive) (ey : Z) :
  canonical_mantissa prec emax mx ex = true ->
  canonical_mantissa prec emax my ey = true ->
  (Zpos (fst (shl_align mx ex (Z.min ex ey))) ?= Zpos (fst (shl_align my ey (Z.min ex ey))))
  = match ex ?= ey with Lt => Lt | Gt => Gt | Eq => Pos.compare_cont Eq mx my end.
Proof.
  intros Hx Hy.
  apply canonical_facts in Hx. destruct Hx as (Hex & Hdx & Hfx).
  apply canonical_facts in Hy. destruct Hy as (Hey & Hdy & Hfy).
  destruct (shl_align_value mx ex (Z.min ex ey) ltac:(lia)) as [Vx _].
  destruct (shl_align_value my ey (Z.min ex ey) ltac:(lia)) as [Vy _].
  rewrite Vx, Vy.
  pose proof (digits_bounds mx) as [Lx Ux]. pose proof (digits_bounds my) as [Ly Uy].
  assert (forall d, 0 < d -> 2 ^ prec = 2 * 2 ^ (prec - 1)) as Hpow.
  { intros _ _. replace prec with (Z.succ (prec - 1)) at 1 by lia. apply Z.pow_succ_r. lia. }
  destruct (Z.compare_spec ex ey) as [E|E|E].
  - subst ey. rewrite Z.min_id, Z.sub_diag. cbn [Z.pow]. rewrite !Z.mul_1_r. reflexivity.
  - rewrite Z.min_l by lia. rewrite Z.sub_diag, Z.pow_0_r, Z.mul_1_r.
    apply Z.compare_lt_iff.
    specialize (Hfy ltac:(lia)). rewrite Hfy in Ly.
    assert (Zpos mx < 2 ^ prec) as Hmx.
    { eapply Z.lt_le_trans; [exact Ux|]. apply Z.pow_le_mono_r; lia. }
    assert (2 <= 2 ^ (ey - ex)) as H2.
    { change 2 with (2 ^ 1) at 1. apply Z.pow_le_mono_r; lia. }
    specialize (Hpow 1 ltac:(lia)).
    assert (0 < 2 ^ (prec - 1)) by (apply Z.pow_pos_nonneg; lia).
    nia.
  - rewrite Z.min_r by lia. rewrite Z.sub_diag, Z.pow_0_r, Z.mul_1_r.
    apply Z.compare_gt_iff.
    specialize (Hfx ltac:(lia)). rewrite Hfx in Lx.
    assert (Zpos my < 2 ^ prec) as Hmy.
    { eapply Z.lt_le_trans; [exact Uy|]. apply Z.pow_le_mono_r; lia. }
    assert (2 <= 2 ^ (ex - ey)) as H2.
    { change 2 with (2 ^ 1) at 1. apply Z.pow_le_mono_r; lia. }
    specialize (Hpow 1 ltac:(lia)).
    assert (0 < 2 ^ (prec - 1)) by (apply Z.pow_pos_nonneg; lia).
    nia.
Qed.

Lemma compare_finite (sx : bool) (mx : positive) (ex : Z) (sy : bool) (my : positive) (ey : Z) :
  canonical_mantissa prec emax mx ex = true ->
  canonical_mantissa prec emax my ey = true ->
  SFcompare (S754_finite sx mx ex) (S754_finite sy my ey)
  = Some (cond_Zopp sx (Zpos (fst (shl_align mx ex (Z.min ex ey))))
          ?= cond_Zopp sy (Zpos (fst (shl_align my ey (Z.min ex ey))))).
Proof.
  intros Hx Hy. pose proof (@cmp_aligned mx ex my ey Hx Hy) as H.
  destruct sx, sy; cbn [SFcompare cond_Zopp]; try reflexivity.
  - rewrite !Pos2Z.opp_pos.
    change (Z.neg ?a ?= Z.neg ?b) with (CompOpp (Z.pos a ?= Z.pos b)).
    rewrite H. destruct (ex ?= ey); reflexivity.
  - rewrite H. reflexivity.
Qed.

Lemma valid_finite (s : bool) (m : positive) (e : Z) :
  SpecFloat.valid_binary prec emax (S754_finite s m e) = true ->
  canonical_mantissa prec emax m e = true.
Proof. cbn [SpecFloat.valid_binary]. unfold bounded. intros H. now apply andb_prop in H. Qed.

(** The sign of a difference is the comparison of its terms. *)
Lemma sub_sign (x y : spec_float) :
  SpecFloat.valid_binary prec emax x = true -> SpecFloat.valid_binary prec emax y = true ->
  nonNan x -> nonNan y ->
  sfNotPositive (SFsub prec emax y x) = SFleb y x.
Proof.
  intros Vx Vy Nx Ny.
  destruct y as [sy|sy| |sy my ey]; try contradiction;
    destruct x as [sx|sx| |sx mx ex]; try contradiction;
    try (destruct sx, sy; reflexivity).
  apply valid_finite in Vx, Vy.
  unfold SFleb. rewrite (@compare_finite sy my ey sx mx ex Vy Vx). cbn [SFsub].
  pose proof (@canonical_facts mx ex Vx) as (Hex & _). pose proof (@canonical_facts my ey Vy) as (Hey & _).
  set (a := cond_Zopp sy (Zpos (fst (shl_align my ey (Z.min ey ex))))).
  set (b := cond_Zopp sx (Zpos (fst (shl_align mx ex (Z.min ey ex))))).
  destruct (Z.compare_spec a b) as [E|E|E].
  - rewrite E, Z.sub_diag. reflexivity.
  - destruct (a - b) as [|p|p] eqn:D; try lia.
    cbn [binary_normalize].
    pose proof (round_nonzero true p (Z.min ey ex) ltac:(lia)) as H.
    destruct (binary_round prec emax true p (Z.min ey ex)); cbn in H; try contradiction; subst; reflexivity.
  - destruct (a - b) as [|p|p] eqn:D; try lia.
    cbn [binary_normalize].
    pose proof (round_nonzero false p (Z.min ey ex) ltac:(lia)) as H.
    destruct (binary_round prec emax false p (Z.min ey ex)); cbn in H; try contradiction; subst; reflexivity.
Qed.

Lemma add_signed (x y : spec_float) :
  signed false x -> signed false y -> signed false (SFadd prec emax x y).
Proof.
  destruct x as [sx|sx| |sx mx ex]; cbn [signed]; try contradiction; intros ->;
    destruct y as [sy|sy| |sy my ey]; cbn [signed]; try contradiction; intros ->;
    try reflexivity.
  cbn [SFadd cond_Zopp].
  destruct (Zpos (fst (shl_align mx ex (Z.min ex ey))) + Zpos (fst (shl_align my ey (Z.min ex ey))))
    as [|p|p] eqn:D; try lia; cbn [binary_normalize].
  apply round_signed.
Qed.

Lemma div_signed (mx : positive) (ex : Z) (y : spec_float) :
  signed false y -> signed false (SFdiv prec emax (S754_finite false mx ex) y).
Proof.
  destruct y as [sy|sy| |sy my ey]; cbn [signed]; try contradiction; intros ->;
    try reflexivity.
  cbn [SFdiv xorb]. unfold SFdiv_core_binary.
  set (m' := match _ with Z0 => _ | Zpos _ => _ | Zneg _ => _ end).
  assert (0 <= m') as Hm'.
  { subst m'. destruct (ex - ey - _); try lia. apply Z.shiftl_nonneg. lia. }
  pose proof (Z.div_pos m' (Zpos my) Hm' ltac:(lia)) as Hq.
  unfold Z.div in Hq. destruct (Z.div_eucl m' (Zpos my)) as [q r].
  apply round_aux_signed. exact Hq.
Qed.

Lemma normalize_signed (m e : Z) :
  0 <= m -> signed false (binary_normalize prec emax m e false).
Proof.
  intros Hm. destruct m as [|p|p]; try lia; cbn [binary_normalize]; [reflexivity|].
  apply round_signed.
Qed.

End Format.

(** The order of the doubles that are no NaN. *)
Lemma SFleb_key (x y : spec_float) :
  nonNan x -> nonNan y -> (SFleb x y = true <-> lexLe (key x) (key y)).
Proof.
  intros Nx Ny. unfold SFleb, lexLe.
  destruct x as [sx|sx| |sx mx ex]; try contradiction;
    destruct y as [sy|sy| |sy my ey]; try contradiction;
    destruct sx; destruct sy; cbn [SFcompare key fst snd];
    try (split; [intros _; lia | reflexivity]);
    try (split; [discriminate | intros H; exfalso; lia]).
  - 
    change (Pos.compare_cont Eq mx my) with (Pos.compare mx my).
    destruct (Z.compare_spec ex ey); destruct (Pos.compare_spec mx my); cbn [CompOpp];
    try (split; [intros _; lia | reflexivity]);
    try (split; [discriminate | intros H'; exfalso; lia]).
  - change (Pos.compare_cont Eq mx my) with (Pos.compare mx my).
    destruct (Z.compare_spec ex ey); destruct (Pos.compare_spec mx my);
    try (split; [intros _; lia | reflexivity]);
    try (split; [discriminate | intros H'; exfalso; lia]).
Qed.

Lemma SFleb_total (x y : spec_float) :
  nonNan x -> nonNan y -> SFleb x y = true \/ SFleb y x = true.
Proof.
  intros Nx Ny. rewrite !SFleb_key by assumption. unfold lexLe. lia.
Qed.

Lemma SFleb_nonNan (x y : spec_float) : SFleb x y = true -> nonNan x /\ nonNan y.
Proof.
  unfold SFleb. destruct x, y; cbn; try discriminate; intros _; split; exact I.
Qed.

Lemma SFleb_trans (x y z : spec_float) :
  SFleb x y = true -> SFleb y z = true -> SFleb x z = true.
Proof.
  intros H1 H2.
  destruct (SFleb_nonNan _ _ H1) as [Nx Ny]. destruct (SFleb_nonNan _ _ H2) as [_ Nz].
  rewrite SFleb_key in * by assumption. unfold lexLe in *. lia.
Qed.

Lemma mul_zero_nullish (x : spec_float) (s : bool) :
  nullish (SFmul FloatOps.prec FloatOps.emax x (S754_zero s)).
Proof. destruct x; exact I. Qed.

Lemma add_nullish (x y : spec_float) :
  nullish x -> nullish y -> nullish (SFadd FloatOps.prec FloatOps.emax x y).
Proof.
  destruct x as [sx| | |]; try contradiction; destruct y as [sy| | |]; try contradiction; intros _ _;
    try exact I. destruct sx, sy; exact I.
Qed.

Lemma div_nullish (x y : spec_float) :
  nullish x -> nullish (SFdiv FloatOps.prec FloatOps.emax x y).
Proof. destruct x; try contradiction; destruct y; intros _; exact I. Qed.

Lemma ltb_nullish (m : positive) (e : Z) (y : spec_float) :
  nullish y -> SFltb (S754_finite false m e) y = false.
Proof. destruct y; try contradiction; reflexivity. Qed.

(** ** From the specification to the primitive doubles *)

Lemma Prim2SF_zero : Prim2SF 0%float = S754_zero false.
Proof. reflexivity. Qed.

Lemma Prim2SF_one : Prim2SF 1%float = S754_finite false 4503599627370496 (-52).
Proof. reflexivity. Qed.

Lemma is_nan_spec (x : float) : PrimFloat.is_nan x = true -> Prim2SF x = S754_nan.
Proof. intros H. unfold Prim2SF. now rewrite H. Qed.

Lemma not_nan_spec (x : float) : PrimFloat.is_nan x = false -> nonNan (Prim2SF x).
Proof.
  intros H. unfold Prim2SF. rewrite H.
  destruct (is_zero x); [exact I|]. destruct (is_infinity x); [exact I|].
  destruct (Z.frexp x) as [r e].
  destruct (shr_fexp prec emax (Uint63Axioms.to_Z (normfr_mantissa r)) (e - prec) loc_Exact) as [m e'].
  destruct (shr_m m); exact I.
Qed.

Lemma nonNan_is_nan (x : float) : nonNan (Prim2SF x) -> PrimFloat.is_nan x = false.
Proof.
  intros H. destruct (PrimFloat.is_nan x) eqn:E; [|reflexivity].
  rewrite (is_nan_spec x E) in H. destruct H.
Qed.


Lemma notPositive_spec (v : float) : Num.notPositive v = sfNotPositive (Prim2SF v).
Proof.
  unfold Num.notPositive. destruct (PrimFloat.is_nan v) eqn:E.
  - now rewrite (is_nan_spec v E).
  - rewrite leb_spec, Prim2SF_zero. apply not_nan_spec in E.
    destruct (Prim2SF v); try reflexivity. destruct E.
Qed.

(** The comparator [(a, b) => b - a] orders doubles that are no NaN as
    [<=] does. *)
Lemma notPositive_sub (x y : float) :
  PrimFloat.is_nan x = false -> PrimFloat.is_nan y = false ->
  Num.notPositive (y - x) = (y <=? x)%float.
Proof.
  intros Hx Hy. rewrite notPositive_spec, sub_spec, leb_spec.
  apply sub_sign; try apply Prim2SF_valid; try (now apply not_nan_spec).
  reflexivity.
Qed.

Lemma leb_total (x y : float) :
  PrimFloat.is_nan x = false -> PrimFloat.is_nan y = false ->
  (x <=? y)%float = true \/ (y <=? x)%float = true.
Proof.
  intros Hx Hy. rewrite !leb_spec. apply SFleb_total; now apply not_nan_spec.
Qed.

Lemma leb_trans (x y z : float) :
  (x <=? y)%float = true -> (y <=? z)%float = true -> (x <=? z)%float = true.
Proof. rewrite !leb_spec. apply SFleb_trans. Qed.

Lemma signed_not_nan (x : float) : signed false (Prim2SF x) -> PrimFloat.is_nan x = false.
Proof.
  intros H. apply nonNan_is_nan. destruct (Prim2SF x); try exact I. destruct H.
Qed.

Lemma zero_signed : signed false (Prim2SF 0%float).
Proof. reflexivity. Qed.

Lemma ofNat_signed (n : nat) : signed false (Prim2SF (Num.ofNat n)).
Proof.
  unfold Num.ofNat. rewrite of_uint63_spec. apply normalize_signed.
  apply Uint63.to_Z_bounded.
Qed.

Lemma add_signed_prim (x y : float) :
  signed false (Prim2SF x) -> signed false (Prim2SF y) -> signed false (Prim2SF (x + y)%float).
Proof. intros Hx Hy. rewrite add_spec. now apply add_signed. Qed.

Lemma inv_signed_prim (y : float) :
  signed false (Prim2SF y) -> signed false (Prim2SF (1 / y)%float).
Proof.
  intros Hy. rewrite div_spec, Prim2SF_one. now apply div_signed.
Qed.

Lemma mul_zero_nullish_prim (x : float) : nullish (Prim2SF (x * 0)%float).
Proof. rewrite mul_spec, Prim2SF_zero. apply mul_zero_nullish. Qed.

Lemma add_nullish_prim (x y : float) :
  nullish (Prim2SF x) -> nullish (Prim2SF y) -> nullish (Prim2SF (x + y)%float).
Proof. intros Hx Hy. rewrite add_spec. now apply add_nullish. Qed.

Lemma div_nullish_prim (x y : float) : nullish (Prim2SF x) -> nullish (Prim2SF (x / y)%float).
Proof. intros Hx. rewrite div_spec. now apply div_nullish. Qed.

Lemma below_floor (x : float) : nullish (Prim2SF x) -> (0.1 <? x)%float = false.
Proof.
  intros Hx. rewrite ltb_spec.
  destruct (Prim2SF x); try contradiction; reflexivity.
Qed.

(** The comparator [(a, b) => b - a] is a total preorder on the doubles
    that are no NaN. *)
Lemma desc_total (x y : float) :
  PrimFloat.is_nan x = false -> PrimFloat.is_nan y = false ->
  Num.notPositive (y - x) = true \/ Num.notPositive (x - y) = true.
Proof.
  intros Hx Hy. rewrite (notPositive_sub x y Hx Hy), (notPositive_sub y x Hy Hx).
  destruct (leb_total x y Hx Hy); [now right | now left].
Qed.

Lemma desc_trans (x y z : float) :
  PrimFloat.is_nan x = false -> PrimFloat.is_nan y = false -> PrimFloat.is_nan z = false ->
  Num.notPositive (y - x) = true -> Num.notPositive (z - y) = true ->
  Num.notPositive (z - x) = true.
Proof.
  intros Hx Hy Hz.
  rewrite (notPositive_sub x y Hx Hy), (notPositive_sub y z Hy Hz), (notPositive_sub x z Hx Hz).
  intros H1 H2. now apply leb_trans with y.
Qed.

Lemma unsigned_not_nan (x : float) : unsigned x -> PrimFloat.is_nan x = false.
Proof. apply signed_not_nan. Qed.

(** Division by [1] is exact. *)
Lemma round_aux_exact (sx : bool) (m : positive) (e : Z) :
  canonical_mantissa prec emax m e = true -> (e <=? emax - prec) = true ->
  binary_round_aux prec emax sx (Zpos m) e loc_Exact = S754_finite sx m e.
Proof.
  intros Hc Hb. unfold canonical_mantissa in Hc. apply Z.eqb_eq in Hc.
  unfold binary_round_aux, shr_fexp. cbn [Zdigits2].
  rewrite Hc, Z.sub_diag. cbn [shr shr_record_of_loc shr_m loc_of_shr_record round_nearest_even].
  cbn [Zdigits2]. rewrite Hc, Z.sub_diag. cbn [shr shr_record_of_loc shr_m].
  now rewrite Hb.
Qed.

Lemma round_aux_even (sx : bool) (m : positive) (e : Z) :
  canonical_mantissa prec emax m e = true -> (e <=? emax - prec) = true ->
  binary_round_aux prec emax sx (Zpos m~0) (e - 1) loc_Exact = S754_finite sx m e.
Proof.
  intros Hc Hb. pose proof Hc as Hc'. unfold canonical_mantissa in Hc. apply Z.eqb_eq in Hc.
  unfold binary_round_aux, shr_fexp. cbn [Zdigits2 digits2_pos].
  replace (Zpos (Pos.succ (digits2_pos m)) + (e - 1)) with (Zpos (digits2_pos m) + e) by lia.
  rewrite Hc. replace (e - (e - 1)) with 1 by lia.
  cbn [shr shr_record_of_loc SpecFloat.iter_pos shr_1 shr_m loc_of_shr_record orb round_nearest_even].
  replace (e - 1 + 1) with e by lia.
  cbn [Zdigits2]. rewrite Hc, Z.sub_diag. cbn [shr shr_record_of_loc shr_m].
  now rewrite Hb.
Qed.

Lemma SFdiv_one (x : spec_float) :
  valid_binary x = true -> SFdiv prec emax x (Prim2SF 1%float) = x.
Proof.
  intros Hv. change (Prim2SF 1%float) with (S754_finite false 4503599627370496 (-52)).
  destruct x as [sx|sx| |sx m e]; cbn [SFdiv]; try (now rewrite xorb_false_r); try reflexivity.
  cbn [valid_binary SpecFloat.valid_binary] in Hv. unfold bounded in Hv.
  apply andb_prop in Hv. destruct Hv as [Hc Hb].
  pose proof Hc as Hc'. unfold canonical_mantissa, fexp, SpecFloat.emin in Hc'.
  apply Z.eqb_eq in Hc'. change prec with 53 in Hc'. change emax with 1024 in Hc'.
  rewrite xorb_false_r.
  unfold SFdiv_core_binary. cbn [Zdigits2].
  change (Zpos (digits2_pos 4503599627370496)) with 53.
  unfold fexp, SpecFloat.emin. change prec with 53. change emax with 1024.
  set (d := Zpos (digits2_pos m)) in *.
  destruct (Z.eq_dec e (-1074)) as [He|He].
  - replace (Z.min (Z.max (d + e - (53 + -52) - 53) (3 - 1024 - 53)) (e - -52)) with e by lia.
    replace (e - -52 - e) with 52 by lia. cbv iota beta.
    rewrite Z.shiftl_mul_pow2 by lia.
    destruct (Z.div_eucl (Zpos m * 2 ^ 52) 4503599627370496) as [q r] eqn:E.
    assert (q = Zpos m) as ->.
    { transitivity (Zpos m * 2 ^ 52 / 4503599627370496); [unfold Z.div; now rewrite E|].
      change 4503599627370496 with (2 ^ 52). apply Z.div_mul. lia. }
    assert (r = 0) as ->.
    { transitivity ((Zpos m * 2 ^ 52) mod 4503599627370496); [unfold Z.modulo; now rewrite E|].
      change 4503599627370496 with (2 ^ 52). apply Z.mod_mul. lia. }
    change (new_location 4503599627370496 0) with loc_Exact.
    now apply round_aux_exact.
  - assert (d = 53) as Hd by lia.
    replace (Z.min (Z.max (d + e - (53 + -52) - 53) (3 - 1024 - 53)) (e - -52)) with (e - 1) by lia.
    replace (e - -52 - (e - 1)) with 53 by lia. cbv iota beta.
    rewrite Z.shiftl_mul_pow2 by lia.
    destruct (Z.div_eucl (Zpos m * 2 ^ 53) 4503599627370496) as [q r] eqn:E.
    assert (Zpos m * 2 ^ 53 = Zpos m~0 * 2 ^ 52) as Hm by (change (2 ^ 53) with (2 * 2 ^ 52); lia).
    assert (q = Zpos m~0) as ->.
    { transitivity (Zpos m * 2 ^ 53 / 4503599627370496); [unfold Z.div; now rewrite E|].
      rewrite Hm. change 4503599627370496 with (2 ^ 52). apply Z.div_mul. lia. }
    assert (r = 0) as ->.
    { transitivity ((Zpos m * 2 ^ 53) mod 4503599627370496); [unfold Z.modulo; now rewrite E|].
      rewrite Hm. change 4503599627370496 with (2 ^ 52). apply Z.mod_mul. lia. }
    change (new_location 4503599627370496 0) with loc_Exact.
    now apply round_aux_even.
Qed.

Lemma div_one (x : float) : (x / 1)%float = x.
Proof.
  apply Prim2SF_inj. rewrite div_spec. apply SFdiv_one, Prim2SF_valid.
Qed.










End FloatFacts.

(** ** The citation line *)

Module SourceInfoFacts.

Import Chat.

Lemma findActive_none (sections : list Section_) (activeId : option str) :
  Forall (fun s => Some (id s) <> activeId) sections ->
  findActive sections activeId = None.
Proof.
  intros H. destruct activeId as [a|]; simpl; [|reflexivity].
  induction H as [|s l Hs _ IH]; simpl; [reflexivity|].
  destruct (Str.eqb (id s) a) eqn:E; [|exact IH].
  apply StrFacts.eqb_eq in E. congruence.
Qed.

Lemma citation_not_unavailable (sec : Section_) :
  L "Based on " ++ [dq] ++ title sec ++ [dq] ++ L " from " ++ pageInfo sec <> sourceUnavailable.
Proof. vm_compute. discriminate. Qed.

Lemma getSourceInfo_unavailable_iff (sections : list Section_) (activeId : option str) :
  getSourceInfo sections activeId = sourceUnavailable <-> sections = [].
Proof.
  unfold getSourceInfo. split.
  - destruct (findActive sections activeId) as [s|] eqn:E.
    + intros H. now apply citation_not_unavailable in H.
    + destruct sections as [|s0 rest]; simpl; [reflexivity|].
      intros H. now apply citation_not_unavailable in H.
  - intros ->. destruct activeId; reflexivity.
Qed.

(** C10. When the list of sections is not empty and no section has the
    active identifier, the citation is that of the first section of the
    list, its title and its page range; and the citation reads "Source
      information not available" exactly when the list is empty. *)
Theorem getSourceInfo_defaults_to_first_section :
  forall (sections : list Section_) (activeId : option str),
    Forall (fun s => Some (id s) <> activeId) sections ->
    (forall s0 rest, sections = s0 :: rest ->
       getSourceInfo sections activeId =
       L "Based on " ++ [dq] ++ title s0 ++ [dq] ++ L " from " ++ pageInfo s0)
    /\ (getSourceInfo sections activeId = L "Source information not available"
        <-> sections = []).
Proof.
  intros sections activeId H. split.
  - intros s0 rest ->. unfold getSourceInfo.
    now rewrite (findActive_none H).
  - apply getSourceInfo_unavailable_iff.
Qed.

Lemma getSourceInfo_defaults_to_first_section_witness :
  getSourceInfo Samples.twoSections None = L "Based on " ++ [dq] ++ L "Origins" ++ [dq] ++ L " from pages 1-3".
Proof.
  refine (proj1 (@getSourceInfo_defaults_to_first_section Samples.twoSections None _) _ _ eq_refl).
  repeat constructor; discriminate.
Defined.

End SourceInfoFacts.

(** ** The summarizer on short texts *)

Module ShortTextFacts.

Import Summarize.

(** C8. A text that splits into three sentences or fewer is returned as
    it is, trimmed. *)
Theorem summary_of_short_text_is_trimmed :
  forall text : str,
    length (sentencesOf text) <= 3 ->
    generateExtractiveSummary text = Str.trim text.
Proof.
  intros text H. unfold generateExtractiveSummary.
  apply Nat.leb_le in H. now rewrite H.
Qed.

Lemma summary_of_short_text_is_trimmed_witness :
  generateExtractiveSummary Samples.shortText = L "One. Two. Three.".
Proof.
  apply (@summary_of_short_text_is_trimmed Samples.shortText).
  vm_compute. lia.
Defined.

End ShortTextFacts.

(** ** The sectioner: the "Origins" scenario and the fallback windows *)

Module WindowFacts.

Import Sectioner.
Import Spec.

(** C1. On the two pages of the scenario the line "Chapter 1: Origins" is
    a heading titled "Origins" for [isLikelyHeader], but the first line of
    its block is the page marker, which is no heading: [splitChapters]
    emits one section, titled "Section 1", from page 1 to page 2. *)
Theorem splitChapters_origins_scenario :
  forall (uuid : nat -> str) (src : str),
    isLikelyHeader (L "Chapter 1: Origins") = mkHeaderCheck true (Some (L "Origins"))
    /\ isLikelyHeader (L "[[PAGE:1]]") = mkHeaderCheck false None
    /\ map (fun s => (title s, startPage s, endPage s))
           (splitChapters uuid src Samples.originsPages)
       = [ (L "Section 1", Some 1, Some 2) ].
Proof.
  intros uuid src. repeat split; vm_compute; reflexivity.
Qed.

Section WithSource.
Variable uuid : nat -> str.
Variable src : str.

Lemma windows_invariant (rawPages : list str) :
  forall fuel i acc,
    i = 8 * length acc ->
    length rawPages <= i + fuel ->
    (acc = [] \/ i < length rawPages + 8) ->
    (forall k s, nth_error acc k = Some s -> windowAt rawPages k s) ->
    pagesCovered acc = seq 1 (Nat.min i (length rawPages)) ->
    let r := windows uuid src fuel rawPages i acc in
    length rawPages <= 8 * length r
    /\ (r = [] \/ 8 * length r < length rawPages + 8)
    /\ (forall k s, nth_error r k = Some s -> windowAt rawPages k s)
    /\ pagesCovered r = seq 1 (length rawPages).
Proof.
  induction fuel as [|fuel IH]; intros i acc Hi Hfuel Hlast Hwin Hcov; cbn [windows].
  - split; [|split; [|split]]; try assumption; try lia.
    + destruct Hlast as [->|Hl]; [now left | right; lia].
    + rewrite Hcov. f_equal. lia.
  - destruct (i <? length rawPages) eqn:Ein.
    + apply Nat.ltb_lt in Ein.
      apply IH.
      * rewrite length_app. unfold chunk. simpl. lia.
      * unfold chunk. lia.
      * right. unfold chunk. lia.
      * intros k s Hk.
        destruct (Nat.lt_ge_cases k (length acc)) as [Hlt|Hge].
        { rewrite nth_error_app1 in Hk by assumption. now apply Hwin. }
        rewrite nth_error_app2 in Hk by assumption.
        destruct (k - length acc) as [|d] eqn:Ed; cbn [nth_error] in Hk.
        2:{ destruct d; discriminate. }
        apply (f_equal (fun o => match o with Some x => x | None => s end)) in Hk.
        cbv beta iota in Hk. subst s.
        assert (k = length acc) as -> by lia.
        subst i.
        lazy beta iota delta [windowAt newSection chunk title startPage endPage text].
        rewrite (Nat.mul_comm 8 (length acc)), Nat.div_mul by discriminate.
        repeat split; reflexivity.
      * unfold pagesCovered in *. rewrite flat_map_app, Hcov. simpl.
        rewrite app_nil_r.
        lazy beta iota delta [pagesOf newSection chunk startPage endPage].
        replace (Nat.min i (length rawPages)) with i by lia.
        replace (i + 1) with (1 + i) by lia.
        rewrite <- seq_app. f_equal. lia.
    + apply Nat.ltb_ge in Ein.
      split; [|split; [|split]]; try assumption; try lia.
      * destruct Hlast as [->|Hl]; [now left | right; lia].
      * rewrite Hcov. f_equal. lia.
Qed.

Lemma windows_from_start (rawPages : list str) :
  let r := windows uuid src (length rawPages) rawPages 0 [] in
  length r = (length rawPages + 7) / 8
  /\ (forall k s, nth_error r k = Some s -> windowAt rawPages k s)
  /\ pagesCovered r = seq 1 (length rawPages).
Proof.
  destruct (@windows_invariant rawPages (length rawPages) 0 []) as (Hlo & Hhi & Hwin & Hcov);
    try reflexivity; try lia; try (now left).
  - intros [|k] s Hk; discriminate.
  - cbv zeta. split; [|split]; try assumption.
    apply Nat.div_unique
      with (r := length rawPages + 7 - 8 * length (windows uuid src (length rawPages) rawPages 0 [])).
    + destruct Hhi as [Hnil | Hlt]; [rewrite Hnil in *; simpl in *|]; lia.
    + destruct Hhi as [Hnil | Hlt]; [rewrite Hnil in *; simpl in *|]; lia.
Qed.

Lemma splitChapters_nonempty (rawPages : list str) :
  rawPages <> [] -> splitChapters uuid src rawPages <> [].
Proof.
  intros Hne. unfold splitChapters.
  destruct (detected uuid src rawPages) as [|s found]; [|discriminate].
  destruct (windows_from_start rawPages) as (Hlen & _).
  intros Hnil. rewrite Hnil in Hlen. cbv zeta in Hlen.
  assert (1 <= (length rawPages + 7) / 8) as Hone.
  { apply Nat.div_le_lower_bound; [discriminate|].
    destruct rawPages; [congruence | cbn [length]; lia]. }
  change (length (@nil Section_)) with 0 in Hlen. lia.
Qed.

End WithSource.

(** C3. When the headings yield no section, [splitChapters] returns the
    windows of eight consecutive pages: window [k] (from 0) is titled
    "Section k+1" and spans the pages [8k+1] to [min(8k+8, n)], the windows
    are ceil(n/8) in number, and their page ranges, put end to end, are the
    pages 1 to n, each once; so a page sequence that is not empty yields at
    least one section. *)
Theorem splitChapters_fallback_windows :
  forall (uuid : nat -> str) (src : str) (rawPages : list str),
    detected uuid src rawPages = [] ->
    let r := splitChapters uuid src rawPages in
    length r = (length rawPages + 7) / 8
    /\ (forall k s, nth_error r k = Some s -> windowAt rawPages k s)
    /\ pagesCovered r = seq 1 (length rawPages)
    /\ (rawPages <> [] -> r <> []).
Proof.
  intros uuid src rawPages Hnone. simpl.
  split; [|split; [|split]]; try (now apply splitChapters_nonempty);
    unfold splitChapters; rewrite Hnone; apply windows_from_start.
Qed.

Lemma splitChapters_fallback_windows_witness :
  map (fun s => (title s, startPage s, endPage s))
      (splitChapters Samples.uuid (L "doc") Samples.onePage)
  = [ (L "Section 1", Some 1, Some 1) ].
Proof.
  destruct (@splitChapters_fallback_windows Samples.uuid (L "doc") Samples.onePage)
    as (Hlen & Hwin & _).
  - vm_compute. reflexivity.
  - destruct (splitChapters Samples.uuid (L "doc") Samples.onePage) as [|s [|s' r]] eqn:E;
      try discriminate Hlen.
    destruct (Hwin 0 s eq_refl) as (Ht & Hs & He & _).
    simpl. rewrite Ht, Hs, He. reflexivity.
Defined.

End WindowFacts.

(** ** Facts on sorting and on the selection of the best elements *)

Module ArrFacts.

Import Arr.
Import Spec.

Section SortFacts.
Variable A : Type.
Variable notAfter : A -> A -> bool.

Let R (x y : A) : Prop := notAfter x y = true.

Lemma insert_perm (x : A) (l : list A) : Permutation (insert notAfter x l) (x :: l).
Proof.
  induction l as [|y l IH]; simpl; [reflexivity|].
  destruct (notAfter x y); [reflexivity|].
  rewrite IH. apply perm_swap.
Qed.

Lemma sort_perm (l : list A) : Permutation (sort notAfter l) l.
Proof.
  induction l as [|x l IH]; simpl; [reflexivity|].
  rewrite insert_perm. now constructor.
Qed.

(** The comparator is consistent on the elements of [dom]: there it is
    a total preorder. *)
Variable dom : A -> Prop.
Hypothesis total : forall x y, dom x -> dom y -> R x y \/ R y x.
Hypothesis trans : forall x y z, dom x -> dom y -> dom z -> R x y -> R y z -> R x z.

Lemma insert_sorted (x : A) (l : list A) :
  dom x -> Forall dom l -> StronglySorted R l -> StronglySorted R (insert notAfter x l).
Proof.
  intros Hx Hd Hs. induction Hs as [|y l Hl IH Hy]; simpl.
  - repeat constructor.
  - inversion Hd as [|? ? Hdy Hdl]; subst.
    destruct (notAfter x y) eqn:E.
    + constructor; [now constructor|].
      constructor; [exact E|].
      apply Forall_forall. intros z Hz.
      apply trans with y; try assumption.
      * exact (proj1 (Forall_forall _ _) Hdl z Hz).
      * exact (proj1 (Forall_forall _ _) Hy z Hz).
    + constructor; [now apply IH|].
      assert (R y x) as Hyx
          by (destruct (total Hx Hdy) as [H|H]; [unfold R in H; congruence | exact H]).
      apply Forall_forall. intros z Hz.
      apply (Permutation_in _ (insert_perm x l)) in Hz.
      destruct Hz as [<-|Hz]; [exact Hyx|].
      now apply (proj1 (Forall_forall _ _) Hy).
Qed.

Lemma sort_dom (l : list A) : Forall dom l -> Forall dom (sort notAfter l).
Proof.
  intros Hd. apply Forall_forall. intros x Hx.
  apply (Permutation_in _ (sort_perm l)) in Hx.
  exact (proj1 (Forall_forall _ _) Hd x Hx).
Qed.

Lemma sort_sorted (l : list A) : Forall dom l -> StronglySorted R (sort notAfter l).
Proof.
  induction l as [|x l IH]; intros Hd; simpl; [constructor|].
  inversion Hd; subst. apply insert_sorted; [assumption | now apply sort_dom | now apply IH].
Qed.
End SortFacts.

Lemma sorted_split (A : Type) (R : A -> A -> Prop) (l : list A) :
  StronglySorted R l ->
  forall k x y, In x (firstn k l) -> In y (skipn k l) -> R x y.
Proof.
  induction 1 as [|a l Hl IH Ha]; intros k x y Hx Hy.
  - rewrite firstn_nil in Hx. destruct Hx.
  - destruct k as [|k]; simpl in Hx, Hy; [destruct Hx|].
    destruct Hx as [<-|Hx].
    + apply (proj1 (Forall_forall _ _) Ha).
      rewrite <- (firstn_skipn k l). apply in_or_app. now right.
    + now apply IH with k.
Qed.

Lemma sorted_firstn (A : Type) (R : A -> A -> Prop) (l : list A) (k : nat) :
  StronglySorted R l -> StronglySorted R (firstn k l).
Proof.
  intros H. revert k. induction H as [|a l Hl IH Ha]; intros [|k]; simpl; try constructor.
  - apply IH.
  - apply Forall_forall. intros x Hx.
    apply (proj1 (Forall_forall _ _) Ha).
    rewrite <- (firstn_skipn k l). apply in_or_app. now left.
Qed.

Lemma indexed_from (A : Type) (xs : list A) :
  forall i0 i x, In (i, x) (combine (seq i0 (length xs)) xs) <->
                 i0 <= i /\ nth_error xs (i - i0) = Some x.
Proof.
  induction xs as [|y xs IH]; intros i0 i x; simpl.
  - split; [tauto|]. intros [_ H]. destruct (i - i0); discriminate.
  - rewrite IH. split.
    + intros [H | [Hle H]].
      * injection H as <- <-. rewrite Nat.sub_diag. split; [lia | reflexivity].
      * split; [lia|]. replace (i - i0) with (S (i - S i0)) by lia. exact H.
    + intros [Hle H]. destruct (i - i0) as [|d] eqn:E.
      * left. simpl in H. injection H as <-. f_equal. lia.
      * right. split; [lia|]. simpl in H. replace (i - S i0) with d by lia. exact H.
Qed.

Lemma indexed_In (A : Type) (xs : list A) (i : nat) (x : A) :
  In (i, x) (indexed xs) <-> nth_error xs i = Some x.
Proof.
  unfold indexed. rewrite indexed_from, Nat.sub_0_r. split; [tauto | split; [lia | assumption]].
Qed.

Lemma map_fst_combine (A B : Type) (l1 : list A) :
  forall l2 : list B, length l1 = length l2 -> map fst (combine l1 l2) = l1.
Proof.
  induction l1 as [|a l1 IH]; intros [|b l2] H; simpl in *; try congruence.
  f_equal. apply IH. congruence.
Qed.

Lemma map_fst_indexed (A : Type) (xs : list A) : map fst (indexed xs) = seq 0 (length xs).
Proof.
  unfold indexed. apply map_fst_combine. now rewrite length_seq.
Qed.

(** The [k] best of a list, by a comparator on pairs of a position and a key. *)
Section Best.
Variable K : Type.
Variable notAfter : nat * K -> nat * K -> bool.
Let R (x y : nat * K) : Prop := notAfter x y = true.
Variable dom : nat * K -> Prop.
Hypothesis total : forall x y, dom x -> dom y -> R x y \/ R y x.
Hypothesis trans : forall x y z, dom x -> dom y -> dom z -> R x y -> R y z -> R x z.

Variable xs : list K.
Variable k : nat.
Hypothesis inDom : Forall dom (indexed xs).

Local Abbreviation best := (firstn k (sort notAfter (indexed xs))).

Lemma best_length : length best = Nat.min k (length xs).
Proof.
  rewrite length_firstn.
  rewrite (Permutation_length (sort_perm notAfter (indexed xs))).
  unfold indexed. rewrite length_combine, length_seq. lia.
Qed.

Lemma best_sorted : StronglySorted R best.
Proof. apply sorted_firstn. now apply sort_sorted with dom. Qed.

Lemma best_in (i : nat) (x : K) : In (i, x) best -> nth_error xs i = Some x.
Proof.
  intros H. apply indexed_In.
  apply (Permutation_in _ (sort_perm notAfter (indexed xs))).
  rewrite <- (firstn_skipn k (sort notAfter (indexed xs))).
  apply in_or_app. now left.
Qed.

Lemma best_nodup : NoDup (map fst best).
Proof.
  assert (NoDup (map fst (sort notAfter (indexed xs)))) as H.
  { apply (Permutation_NoDup (l := seq 0 (length xs))); [|apply seq_NoDup].
    rewrite <- map_fst_indexed. apply Permutation_map. symmetry. apply sort_perm. }
  rewrite <- (firstn_skipn k (sort notAfter (indexed xs))), map_app in H.
  now apply NoDup_app_remove_r in H.
Qed.

Lemma best_dominates (p : nat * K) (j : nat) (x : K) :
  In p best -> nth_error xs j = Some x -> ~ In j (map fst best) -> R p (j, x).
Proof.
  intros Hp Hj Hout.
  apply indexed_In in Hj.
  apply (Permutation_in _ (Permutation_sym (sort_perm notAfter (indexed xs)))) in Hj.
  rewrite <- (firstn_skipn k (sort notAfter (indexed xs))) in Hj.
  apply in_app_or in Hj. destruct Hj as [Hj|Hj].
  - exfalso. apply Hout. change j with (fst (j, x)). now apply in_map.
  - eapply sorted_split; [apply sort_sorted with dom; eassumption | exact Hp | exact Hj].
Qed.
End Best.

(** Increasing positions select a subsequence. *)
Lemma shift_positions (l : list nat) :
  Forall (fun i => 0 < i) l -> l = map S (map pred l).
Proof.
  induction 1 as [|i l Hi _ IH]; simpl; [reflexivity|].
  rewrite <- IH. f_equal. lia.
Qed.

Lemma sorted_pred (l : list nat) :
  Forall (fun i => 0 < i) l -> StronglySorted lt l -> StronglySorted lt (map pred l).
Proof.
  intros Hpos Hs. induction Hs as [|i l Hl IH Hi]; simpl; constructor.
  - apply IH. now inversion Hpos.
  - inversion Hpos as [|? ? Hi0 Hl0]; subst.
    apply Forall_map. rewrite Forall_forall in *. intros j Hj.
    specialize (Hi j Hj). specialize (Hl0 j Hj). lia.
Qed.

Lemma subsequence_nil (A : Type) (ys : list A) : subsequence [] ys.
Proof. induction ys; constructor; assumption. Qed.

Lemma positions_subsequence (A : Type) (d : A) (ss : list A) :
  forall l, StronglySorted lt l -> Forall (fun i => i < length ss) l ->
            subsequence (map (fun i => nth i ss d) l) ss.
Proof.
  induction ss as [|x ss IH]; intros l Hs Hb.
  - destruct l as [|i l]; [constructor|]. inversion Hb; subst. simpl in *. lia.
  - destruct l as [|i l]; [apply subsequence_nil|].
    assert (forall l', Forall (fun i => 0 < i) l' -> StronglySorted lt l' ->
                       Forall (fun i => i < length (x :: ss)) l' ->
                       subsequence (map (fun i => nth i (x :: ss) d) l') ss) as Hshift.
    { intros l' Hpos Hs' Hb'.
      rewrite (shift_positions Hpos), map_map. simpl.
      apply IH; [now apply sorted_pred|].
      apply Forall_map. rewrite Forall_forall in *. intros j Hj.
      specialize (Hpos j Hj). specialize (Hb' j Hj). simpl in Hb'. lia. }
    inversion Hs as [|? ? Hs' Hlt]; subst. inversion Hb as [|? ? Hi Hb']; subst.
    destruct i as [|i].
    + simpl. apply sub_take. apply Hshift; try assumption.
    + apply sub_skip. apply Hshift; try assumption.
      constructor; [lia|]. eapply Forall_impl; [|exact Hlt]. simpl. intros; lia.
Qed.

Lemma sorted_le_nodup_lt (l : list nat) :
  StronglySorted le l -> NoDup l -> StronglySorted lt l.
Proof.
  induction 1 as [|i l Hl IH Hi]; intros Hnd; constructor.
  - apply IH. now inversion Hnd.
  - inversion Hnd as [|? ? Hnotin _]; subst.
    rewrite Forall_forall in *. intros j Hj. specialize (Hi j Hj).
    assert (i <> j) by (intros ->; contradiction). lia.
Qed.

End ArrFacts.

(** ** The summarizer on long texts *)

Module SummaryFacts.

Import Summarize.
Import Spec.
Import ArrFacts.
Import Ieee.

(** A pair whose score is a number. *)
Local Abbreviation numeric := (fun p : nat * float => PrimFloat.is_nan (snd p) = false).

Lemma byScoreDesc_total (x y : nat * float) :
  numeric x -> numeric y -> byScoreDesc x y = true \/ byScoreDesc y x = true.
Proof. intros Hx Hy. unfold byScoreDesc. now apply FloatFacts.desc_total. Qed.

Lemma byScoreDesc_trans (x y z : nat * float) :
  numeric x -> numeric y -> numeric z ->
  byScoreDesc x y = true -> byScoreDesc y z = true -> byScoreDesc x z = true.
Proof. intros Hx Hy Hz. unfold byScoreDesc. now apply FloatFacts.desc_trans. Qed.

Lemma byIndex_total (x y : nat) : True -> True -> byIndex x y = true \/ byIndex y x = true.
Proof. intros _ _. unfold byIndex. rewrite !Nat.leb_le. lia. Qed.

Lemma byIndex_trans (x y z : nat) :
  True -> True -> True ->
  byIndex x y = true -> byIndex y z = true -> byIndex x z = true.
Proof. intros _ _ _. unfold byIndex. rewrite !Nat.leb_le. lia. Qed.

(** The score of a sentence is neither negative nor NaN: a sum, from [0],
    of quotients of [1] by a count. *)
Lemma score_unsigned (freq : JsMap.t nat) (s : str) : unsigned (score freq s).
Proof.
  unfold score.
  assert (forall toks acc,
             unsigned acc ->
             unsigned (fold_left (fun sc w => (sc + 1 / Num.ofNat (freqOr1 freq w))%float)
                                 toks acc)) as H.
  { induction toks as [|w toks IH]; intros acc Hacc; cbn [fold_left]; [exact Hacc|].
    apply IH. apply FloatFacts.add_signed_prim; [exact Hacc|].
    apply FloatFacts.inv_signed_prim, FloatFacts.ofNat_signed. }
  apply H. exact FloatFacts.zero_signed.
Qed.

Lemma scores_numeric (freq : JsMap.t nat) (sentences : list str) :
  Forall numeric (Arr.indexed (map (score freq) sentences)).
Proof.
  apply Forall_forall. intros [i x] Hin. apply indexed_In in Hin.
  apply nth_error_In, in_map_iff in Hin. destruct Hin as (s & <- & _).
  cbn [snd]. apply FloatFacts.unsigned_not_nan, score_unsigned.
Qed.

Lemma sorted_impl (A : Type) (R R' : A -> A -> Prop) (l : list A) :
  (forall x y, R x y -> R' x y) -> StronglySorted R l -> StronglySorted R' l.
Proof.
  intros Himp. induction 1 as [|a l Hl IH Ha]; constructor; [exact IH|].
  eapply Forall_impl; [|exact Ha]. intros; now apply Himp.
Qed.

(** [quota n] is the least number of quarters that covers [n], capped at 6. *)
Lemma quota_is_ceiling (n : nat) :
  exists c, n <= 4 * c /\ 4 * c < n + 4 /\ quota n = Nat.min 6 c.
Proof.
  exists ((n + 3) / 4). unfold quota.
  pose proof (Nat.div_mod_eq (n + 3) 4) as Hd.
  pose proof (Nat.mod_upper_bound (n + 3) 4) as Hm.
  repeat split; lia.
Qed.

Lemma quota_le (n : nat) : quota n <= n.
Proof.
  destruct (quota_is_ceiling n) as (c & H1 & H2 & ->). lia.
Qed.

Section Picked.
Variable sentences : list str.
Variable freq : JsMap.t nat.

Let sc (i : nat) : float := score freq (nth i sentences []).
Local Abbreviation chosen :=
  (firstn (quota (length sentences))
          (Arr.sort byScoreDesc (Arr.indexed (map (score freq) sentences)))).

Lemma pick_perm : Permutation (pick sentences freq) (map fst chosen).
Proof. apply sort_perm. Qed.

Lemma pick_length : length (pick sentences freq) = quota (length sentences).
Proof.
  rewrite (Permutation_length pick_perm), length_map, best_length, length_map.
  pose proof (quota_le (length sentences)). lia.
Qed.

Lemma chosen_score (i : nat) (s : float) :
  In (i, s) chosen -> i < length sentences /\ s = sc i.
Proof.
  intros H. apply best_in in H.
  assert (i < length sentences) as Hi.
  { rewrite <- (length_map (score freq)). apply nth_error_Some. congruence. }
  split; [exact Hi|].
  rewrite nth_error_map, (nth_error_nth' sentences [] Hi) in H. simpl in H.
  unfold sc. congruence.
Qed.

Lemma pick_in (i : nat) : In i (pick sentences freq) -> In (i, sc i) chosen.
Proof.
  intros H. apply (Permutation_in _ pick_perm) in H.
  apply in_map_iff in H. destruct H as ([i' s] & Hfst & Hin). simpl in Hfst. subst i'.
  pose proof Hin as Hc. apply chosen_score in Hc. destruct Hc as [_ Hc].
  now rewrite <- Hc.
Qed.

Lemma pick_bound : Forall (fun i => i < length sentences) (pick sentences freq).
Proof.
  apply Forall_forall. intros i Hi. apply pick_in in Hi. now apply chosen_score in Hi.
Qed.

Lemma pick_increasing : StronglySorted lt (pick sentences freq).
Proof.
  apply sorted_le_nodup_lt.
  - apply sorted_impl with (R := fun x y => byIndex x y = true).
    + intros x y. apply Nat.leb_le.
    + apply sort_sorted with (dom := fun _ => True);
        [apply byIndex_total | apply byIndex_trans | apply Forall_forall; intros; exact I].
  - apply (Permutation_NoDup (Permutation_sym pick_perm)). apply best_nodup.
Qed.

Lemma pick_best (i j : nat) :
  In i (pick sentences freq) -> j < length sentences -> ~ In j (pick sentences freq) ->
  (sc j <=? sc i)%float = true.
Proof.
  intros Hi Hj Hout.
  apply pick_in in Hi.
  assert (nth_error (map (score freq) sentences) j = Some (sc j)) as Hnth.
  { rewrite nth_error_map, (nth_error_nth' sentences [] Hj). reflexivity. }
  assert (~ In j (map fst chosen)) as Hout'.
  { intros H. apply Hout. now apply (Permutation_in _ (Permutation_sym pick_perm)). }
  pose proof (@best_dominates float byScoreDesc numeric byScoreDesc_total byScoreDesc_trans
                (map (score freq) sentences) (quota (length sentences))
                (scores_numeric freq sentences)
                (i, sc i) j (sc j) Hi Hnth Hout') as H.
  unfold byScoreDesc in H. cbn [snd] in H.
  rewrite FloatFacts.notPositive_sub in H;
    [exact H | | ]; apply FloatFacts.unsigned_not_nan, score_unsigned.
Qed.
End Picked.

(** C9. For a text of more than three sentences the summarizer picks
    min(6, ceil(n / 4)) sentences, n being their number; no sentence left
    out scores more than one picked, the scores being the doubles the
    code computes; the picked positions are increasing and the summary
    joins the sentences at these positions, so the sentences of the
    summary are a subsequence of those of the text. *)
Theorem summary_selects_best_in_order :
  forall text : str,
    3 < length (sentencesOf text) ->
    let ss := sentencesOf text in
    let freq := Search.termCounts (Search.tokenize text) in
    let p := pick ss freq in
    (exists c, length ss <= 4 * c /\ 4 * c < length ss + 4 /\ length p = Nat.min 6 c)
    /\ StronglySorted lt p
    /\ Forall (fun i => i < length ss) p
    /\ (forall i j, In i p -> j < length ss -> ~ In j p ->
                    (score freq (nth j ss []) <=? score freq (nth i ss []))%float = true)
    /\ generateExtractiveSummary text = Str.join (L " ") (map (fun i => nth i ss []) p)
    /\ subsequence (map (fun i => nth i ss []) p) ss.
Proof.
  intros text Hlong ss freq p.
  split; [|split; [|split; [|split; [|split]]]].
  - destruct (quota_is_ceiling (length ss)) as (c & H1 & H2 & H3).
    exists c. repeat split; try assumption.
    unfold p. now rewrite pick_length.
  - apply pick_increasing.
  - apply pick_bound.
  - intros i j. apply pick_best.
  - unfold generateExtractiveSummary. fold ss.
    destruct (length ss <=? 3) eqn:E; [apply Nat.leb_le in E; unfold ss in E; lia | reflexivity].
  - apply positions_subsequence; [apply pick_increasing | apply pick_bound].
Qed.

(** Ten tokens that occur ten times each give a sentence the score
    0.9999999999999999: the sentence of one token that occurs once,
    whose score is 1, is picked before it. *)
Lemma summary_selects_best_in_order_witness :
  score (Search.termCounts (Search.tokenize Samples.tenthsText)) (L "a a a a a a a a a a.")
  = 0.9999999999999999%float
  /\ generateExtractiveSummary Samples.tenthsText = L "Zebra."
  /\ subsequence [ L "Zebra." ] (sentencesOf Samples.tenthsText).
Proof.
  assert (3 < length (sentencesOf Samples.tenthsText)) as Hlong by (vm_compute; lia).
  destruct (@summary_selects_best_in_order Samples.tenthsText Hlong)
    as (_ & _ & _ & _ & Hsum & Hsub).
  split; [vm_compute; reflexivity|]. split.
  - rewrite Hsum. vm_compute. reflexivity.
  - vm_compute in Hsub |- *. exact Hsub.
Defined.

End SummaryFacts.

(** ** The answer composer *)

Module ChatFacts.

Import Chat.
Import Search.
Import ArrFacts.
Import StrFacts.

Lemma literal_app_nonempty (c : ascii) (s t : str) : (c :: s) ++ t <> [].
Proof. discriminate. Qed.

Lemma getSourceInfo_nonempty (sections : list Section_) (activeId : option str) :
  getSourceInfo sections activeId <> [].
Proof.
  unfold getSourceInfo.
  destruct (match findActive sections activeId with
            | Some s => Some s
            | None => nth_error sections 0
            end); discriminate.
Qed.

Lemma simplerGuidance_nonempty (source : str) : simplerGuidance source <> [].
Proof. discriminate. Qed.

Lemma definitionGuidance_nonempty (source : str) : definitionGuidance source <> [].
Proof. discriminate. Qed.

Lemma explanationGuidance_nonempty (source : str) : explanationGuidance source <> [].
Proof. discriminate. Qed.

Lemma genericGuidance_nonempty (source : str) : genericGuidance source <> [].
Proof. discriminate. Qed.

Lemma withSource_nonempty (answer source : str) : withSource answer source <> [].
Proof. unfold withSource. apply app_nonempty_r. discriminate. Qed.

Lemma generateEducationalResponse_nonempty (question : str) (content keyTerms : list str) :
  generateEducationalResponse question content keyTerms <> [].
Proof. unfold generateEducationalResponse. apply app_nonempty_r. discriminate. Qed.

(** What the keyword path answers: a response built from the paragraphs
    that mention a key term, or one of the three guidance messages. *)
Lemma handleEducationalExplanation_cases
      (question context : str) (sections : list Section_) (activeId : option str) :
  let a := handleEducationalExplanation question context sections activeId in
  let keyTerms := extractKeyTerms question in
  let source := getSourceInfo sections activeId in
  (findRelevantContentByTerms context keyTerms <> []
   /\ a = generateEducationalResponse question
                                      (findRelevantContentByTerms context keyTerms) keyTerms)
  \/ (findRelevantContentByTerms context keyTerms = []
      /\ (a = simplerGuidance source \/ a = definitionGuidance source
          \/ a = explanationGuidance source)).
Proof.
  unfold handleEducationalExplanation.
  destruct (findRelevantContentByTerms context (extractKeyTerms question)) as [|p ps].
  - right. split; [reflexivity|].
    destruct (asksSimpler (Str.toLowerCase question)); [now left|].
    destruct (asksDefinition (Str.toLowerCase question)); [right; now left | right; now right].
  - left. split; [discriminate | reflexivity].
Qed.

Lemma handleEducationalExplanation_nonempty
      (question context : str) (sections : list Section_) (activeId : option str) :
  handleEducationalExplanation question context sections activeId <> [].
Proof.
  destruct (handleEducationalExplanation_cases question context sections activeId)
    as [[_ ->] | [_ [-> | [-> | ->]]]].
  - apply generateEducationalResponse_nonempty.
  - apply simplerGuidance_nonempty.
  - apply definitionGuidance_nonempty.
  - apply explanationGuidance_nonempty.
Qed.

Lemma generateEnhancedFallback_nonempty
      (question context : str) (sections : list Section_) (activeId : option str) :
  generateEnhancedFallback question context sections activeId <> [].
Proof.
  unfold generateEnhancedFallback.
  destruct (isEducationalExplanationRequest question).
  - apply handleEducationalExplanation_nonempty.
  - apply genericGuidance_nonempty.
Qed.

Lemma generateRuleBasedAnswer_nonempty (log : float -> float)
      (question cleanContext : str) (sections : list Section_) (activeId : option str) :
  generateRuleBasedAnswer log question cleanContext sections activeId <> [].
Proof.
  unfold generateRuleBasedAnswer.
  destruct (isEducationalExplanationRequest question).
  - apply handleEducationalExplanation_nonempty.
  - destruct (paragraphsOver 50 cleanContext) as [|p ps]; [discriminate|].
    destruct (relevantParagraphs log question (p :: ps)).
    + apply generateEnhancedFallback_nonempty.
    + apply withSource_nonempty.
Qed.

Lemma context_blank (context : str) :
  Str.is_empty context || (length (Str.trim context) =? 0) = true <-> Str.trim context = [].
Proof.
  split.
  - intros H. apply orb_true_iff in H. destruct H as [H|H].
    + destruct context; [reflexivity | discriminate].
    + apply Nat.eqb_eq in H. now destruct (Str.trim context).
  - intros ->. apply orb_true_r.
Qed.

(** The answer is never empty, with or without an AI responder. *)
Lemma demoAnswer_nonempty (log : float -> float) (aiService : option responder)
      (question context : str) (sections : list Section_) (activeId : option str) :
  demoAnswer log aiService question context sections activeId <> [].
Proof.
  unfold demoAnswer.
  destruct (Str.is_empty context || (length (Str.trim context) =? 0)); [discriminate|].
  destruct aiService as [ai|]; [destruct (ai question (cleanContent context))|].
  - apply withSource_nonempty.
  - apply generateRuleBasedAnswer_nonempty.
  - apply generateRuleBasedAnswer_nonempty.
Qed.

End ChatFacts.

(** ** The ranking of the paragraphs *)

Module RankingFacts.

Import Chat.
Import Search.
Import ArrFacts.

(** A pair whose score is a number. *)
Local Abbreviation numeric := (fun p : nat * float => PrimFloat.is_nan (snd p) = false).

Lemma byScore_total (x y : nat * float) :
  numeric x -> numeric y -> byScoreDesc x y = true \/ byScoreDesc y x = true.
Proof. intros Hx Hy. unfold byScoreDesc. now apply FloatFacts.desc_total. Qed.

Lemma byScore_trans (x y z : nat * float) :
  numeric x -> numeric y -> numeric z ->
  byScoreDesc x y = true -> byScoreDesc y z = true -> byScoreDesc x z = true.
Proof. intros Hx Hy Hz. unfold byScoreDesc. now apply FloatFacts.desc_trans. Qed.

(** A list of scored positions, read through its positions alone. *)
Section ByPosition.
Variable scoreOf : nat -> float.
Variable l : list (nat * float).
Hypothesis agrees : Forall (fun p => snd p = scoreOf (fst p)) l.

Lemma filter_positions :
  map fst (filter aboveFloor l)
  = filter (fun i => (relevanceFloor <? scoreOf i)%float) (map fst l).
Proof.
  induction agrees as [|p l' Hp Hl IH]; simpl; [reflexivity|].
  unfold aboveFloor at 1. rewrite Hp.
  destruct (relevanceFloor <? scoreOf (fst p))%float; simpl; now rewrite IH.
Qed.

Hypothesis numbers : Forall numeric l.

Lemma sorted_positions :
  StronglySorted (fun x y => byScoreDesc x y = true) l ->
  StronglySorted (fun i j => (scoreOf j <=? scoreOf i)%float = true) (map fst l).
Proof.
  intros Hs. induction Hs as [|p l' Hl IH Hp]; simpl; constructor.
  - apply IH; [now inversion agrees | now inversion numbers].
  - inversion agrees as [|? ? Hp0 Hl0]; inversion numbers as [|? ? Hn0 Hnl]; subst.
    apply Forall_map. rewrite Forall_forall in *. intros q Hq.
    specialize (Hp q Hq). unfold byScoreDesc in Hp.
    rewrite FloatFacts.notPositive_sub in Hp; [|exact Hn0 | exact (Hnl q Hq)].
    now rewrite <- Hp0, <- (Hl0 q Hq).
Qed.
End ByPosition.

Section Ranked.
Variable log : float -> float.
Variable question : str.
Variable paras : list str.

Let c : corpus := tfidfParagraphs log paras.
Let qvec : JsMap.t float := vectorizeQuery log question (vocabulary c) (length paras).
Let scoreOf (i : nat) : float := cosine qvec (nth i (vectors c) []).

Lemma vectors_length : length (vectors c) = length paras.
Proof. unfold c, tfidfParagraphs. simpl. now rewrite !length_map. Qed.

Lemma scored_agrees :
  Forall (fun p => snd p = scoreOf (fst p)) (scored log question paras).
Proof.
  apply Forall_forall. intros [i s] Hin. unfold scored in Hin.
  apply best_in in Hin. fold c qvec in Hin. simpl.
  assert (i < length (vectors c)) as Hi.
  { rewrite <- (length_map (fun v => cosine qvec v)). apply nth_error_Some. congruence. }
  rewrite nth_error_map, (nth_error_nth' (vectors c) [] Hi) in Hin.
  cbn [option_map] in Hin. unfold scoreOf. congruence.
Qed.

Lemma scored_positions_length :
  length (map fst (scored log question paras)) = Nat.min 3 (length paras).
Proof.
  unfold scored. rewrite length_map, best_length, length_map. fold c.
  now rewrite vectors_length.
Qed.

Lemma scored_positions_bound :
  Forall (fun i => i < length paras) (map fst (scored log question paras)).
Proof.
  apply Forall_map, Forall_forall. intros [i s] Hin. unfold scored in Hin.
  apply best_in in Hin. simpl. fold c qvec in Hin.
  rewrite <- vectors_length, <- (length_map (fun v => cosine qvec v)).
  apply nth_error_Some. congruence.
Qed.

Lemma relevantParagraphs_by_position :
  relevantParagraphs log question paras
  = map (fun i => nth i paras [])
        (filter (fun i => (0.1 <? scoreOf i)%float) (map fst (scored log question paras))).
Proof.
  unfold relevantParagraphs. change 0.1%float with relevanceFloor.
  rewrite <- (@filter_positions scoreOf (scored log question paras) scored_agrees), map_map.
  reflexivity.
Qed.

(** No score is NaN: the comparator of the sort is consistent. *)
Hypothesis numbers : forall i, i < length paras -> PrimFloat.is_nan (scoreOf i) = false.

Lemma cosines_numeric :
  Forall numeric (Arr.indexed (map (fun v => cosine qvec v) (vectors c))).
Proof.
  apply Forall_forall. intros [i x] Hin. apply indexed_In in Hin. cbn [snd].
  assert (i < length (vectors c)) as Hi.
  { rewrite <- (length_map (fun v => cosine qvec v)). apply nth_error_Some. congruence. }
  rewrite nth_error_map, (nth_error_nth' (vectors c) [] Hi) in Hin.
  cbn [option_map] in Hin. injection Hin as <-.
  apply numbers. now rewrite <- vectors_length.
Qed.

Lemma scored_numeric : Forall numeric (scored log question paras).
Proof.
  apply Forall_forall. intros p Hin. unfold scored in Hin. fold c qvec in Hin.
  pose proof (@sort_dom _ byScoreDesc numeric _ cosines_numeric) as Hd.
  apply (proj1 (Forall_forall _ _) Hd p).
  rewrite <- (firstn_skipn 3 (Arr.sort byScoreDesc _)). apply in_or_app. now left.
Qed.

Lemma scored_positions_sorted :
  StronglySorted (fun i j => (scoreOf j <=? scoreOf i)%float = true)
                 (map fst (scored log question paras)).
Proof.
  apply sorted_positions; [apply scored_agrees | apply scored_numeric|].
  unfold scored. fold c qvec.
  apply best_sorted with (dom := numeric);
    [apply byScore_total | apply byScore_trans | apply cosines_numeric].
Qed.

Lemma scored_positions_best (i j : nat) :
  In i (map fst (scored log question paras)) -> j < length paras ->
  ~ In j (map fst (scored log question paras)) ->
  (scoreOf j <=? scoreOf i)%float = true.
Proof.
  intros Hi Hj Hout.
  apply in_map_iff in Hi. destruct Hi as ([i' s] & Hfst & Hin). simpl in Hfst. subst i'.
  pose proof (proj1 (Forall_forall _ _) scored_agrees _ Hin) as Hs. simpl in Hs.
  pose proof (proj1 (Forall_forall _ _) scored_numeric _ Hin) as Hn. simpl in Hn.
  assert (nth_error (map (fun v => cosine qvec v) (vectors c)) j = Some (scoreOf j)) as Hnth.
  { rewrite <- vectors_length in Hj.
    rewrite nth_error_map, (nth_error_nth' (vectors c) [] Hj). reflexivity. }
  pose proof (@best_dominates float byScoreDesc numeric byScore_total byScore_trans
                (map (fun v => cosine qvec v) (vectors c)) 3 cosines_numeric
                (i, s) j (scoreOf j) Hin Hnth Hout) as H.
  unfold byScoreDesc in H. cbn [snd] in H.
  rewrite FloatFacts.notPositive_sub in H; [|exact Hn | now apply numbers].
  now rewrite <- Hs.
Qed.
End Ranked.

(** C4, as the code has it. On the retrieval path (the question is no
    request for an explanation and the context has a paragraph of more
    than 50 characters), and when no score is NaN, the candidates are the
    positions of the three paragraphs (all, when there are fewer) whose
    cosine with the query vector is greatest, in descending order of that
    score; the paragraphs kept are those of the candidates whose score is
    above 0.1, in that order. When none is kept the answer is the generic
    guidance with the source line, a fixed message: nothing is matched by
    keyword or by topic. Otherwise the answer is composed from the
    paragraphs kept and cites the source. It is never empty. *)
Theorem generateRuleBasedAnswer_ranks_paragraphs :
  forall (log : float -> float) (question cleanContext : str)
         (sections : list Section_) (activeId : option str),
    isEducationalExplanationRequest question = false ->
    paragraphsOver 50 cleanContext <> [] ->
    let paras := paragraphsOver 50 cleanContext in
    let c := tfidfParagraphs log paras in
    let qvec := vectorizeQuery log question (vocabulary c) (length paras) in
    let scoreOf := fun i => cosine qvec (nth i (vectors c) []) in
    let answer := generateRuleBasedAnswer log question cleanContext sections activeId in
    (forall i, i < length paras -> PrimFloat.is_nan (scoreOf i) = false) ->
    exists cand : list nat,
      length cand = Nat.min 3 (length paras)
      /\ NoDup cand
      /\ Forall (fun i => i < length paras) cand
      /\ StronglySorted (fun i j => (scoreOf j <=? scoreOf i)%float = true) cand
      /\ (forall i j, In i cand -> j < length paras -> ~ In j cand ->
                      (scoreOf j <=? scoreOf i)%float = true)
      /\ relevantParagraphs log question paras
         = map (fun i => nth i paras []) (filter (fun i => (0.1 <? scoreOf i)%float) cand)
      /\ answer
         = match relevantParagraphs log question paras with
           | [] => genericGuidance (getSourceInfo sections activeId)
           | _ :: _ =>
               withSource
                 (generateNaturalAnswer question (relevantParagraphs log question paras))
                 (getSourceInfo sections activeId)
           end
      /\ answer <> [].
Proof.
  intros log question cleanContext sections activeId Hedu Hparas paras c qvec scoreOf answer
         Hnum.
  exists (map fst (scored log question paras)).
  split; [apply scored_positions_length|].
  split; [apply best_nodup|].
  split; [apply scored_positions_bound|].
  split; [now apply scored_positions_sorted|].
  split; [now apply scored_positions_best|].
  split; [apply relevantParagraphs_by_position|].
  split; [|apply ChatFacts.generateRuleBasedAnswer_nonempty].
  unfold answer, generateRuleBasedAnswer. rewrite Hedu. fold paras.
  destruct paras as [|p ps] eqn:Ep; [contradiction|].
  destruct (relevantParagraphs log question (p :: ps)); [|reflexivity].
  unfold generateEnhancedFallback. now rewrite Hedu.
Qed.

Lemma fourParagraphs_scores :
  let paras := paragraphsOver 50 Samples.fourParagraphs in
  let c := tfidfParagraphs Samples.logAtOne paras in
  let qvec := vectorizeQuery Samples.logAtOne Samples.gravityWord (vocabulary c) (length paras) in
  length paras = 4
  /\ map (fun v => cosine qvec v) (vectors c)
     = [ 0.18898223614747076; 0.91766293442961533;
         0.090535745960551306; 0.07198157502305598 ]%float.
Proof. vm_compute. split; reflexivity. Qed.

(** Of four paragraphs the second, the first and the third are the
    candidates, in this order; the third is below the floor. *)
Lemma generateRuleBasedAnswer_ranks_paragraphs_witness :
  let paras := paragraphsOver 50 Samples.fourParagraphs in
  let c := tfidfParagraphs Samples.logAtOne paras in
  let qvec := vectorizeQuery Samples.logAtOne Samples.gravityWord (vocabulary c) (length paras) in
  let scoreOf := fun i => cosine qvec (nth i (vectors c) []) in
  exists cand : list nat,
    length cand = 3
    /\ NoDup cand
    /\ StronglySorted (fun i j => (scoreOf j <=? scoreOf i)%float = true) cand
    /\ (forall i, In i cand -> (scoreOf 3%nat <=? scoreOf i)%float = true)
    /\ relevantParagraphs Samples.logAtOne Samples.gravityWord paras
       = map (fun i => nth i paras []) (filter (fun i => (0.1 <? scoreOf i)%float) cand)
    /\ relevantParagraphs Samples.logAtOne Samples.gravityWord paras
       = [ nth 1 paras []; nth 0 paras [] ]
    /\ generateRuleBasedAnswer Samples.logAtOne Samples.gravityWord Samples.fourParagraphs [] None
       = withSource (generateNaturalAnswer Samples.gravityWord [ nth 1 paras []; nth 0 paras [] ])
                    sourceUnavailable.
Proof.
  intros paras c qvec scoreOf.
  destruct fourParagraphs_scores as [Hlen Hscores]. fold paras c qvec in Hlen, Hscores.
  assert (relevantParagraphs Samples.logAtOne Samples.gravityWord paras
          = [ nth 1 paras []; nth 0 paras [] ]) as Hrel by (vm_compute; reflexivity).
  assert (forall i, i < length paras -> PrimFloat.is_nan (scoreOf i) = false) as Hnum.
  { intros i Hi. rewrite Hlen in Hi.
    assert (length (vectors c) = 4) as Hv by (vm_compute; reflexivity).
    assert (scoreOf i = nth i (map (fun v => cosine qvec v) (vectors c)) (cosine qvec [])) as ->
        by (unfold scoreOf; now rewrite (map_nth (fun v => cosine qvec v))).
    rewrite Hscores.
    destruct i as [|[|[|[|i]]]]; try reflexivity. lia. }
  destruct (@generateRuleBasedAnswer_ranks_paragraphs
              Samples.logAtOne Samples.gravityWord Samples.fourParagraphs [] None)
    as (cand & Hl & Hnd & Hb & Hs & Hbest & Hfilter & Hans & _).
  - vm_compute. reflexivity.
  - vm_compute. discriminate.
  - exact Hnum.
  - fold paras c qvec scoreOf in Hl, Hb, Hs, Hbest, Hfilter, Hans.
    exists cand. rewrite Hlen in Hl.
    split; [exact Hl|]. split; [exact Hnd|]. split; [exact Hs|].
    split.
    { intros i Hi. destruct (in_dec Nat.eq_dec 3 cand) as [H3|H3].
      - assert (scoreOf i = nth i (map (fun v => cosine qvec v) (vectors c)) (cosine qvec [])) as Ei
            by (unfold scoreOf; now rewrite (map_nth (fun v => cosine qvec v))).
        assert (scoreOf 3 = 0.07198157502305598%float) as E3
            by (unfold scoreOf; vm_compute; reflexivity).
        rewrite E3, Ei, Hscores.
        pose proof (proj1 (Forall_forall _ _) Hb i Hi) as Hi4. rewrite Hlen in Hi4.
        destruct i as [|[|[|[|i]]]]; try reflexivity. lia.
      - apply Hbest; [exact Hi | rewrite Hlen; lia | exact H3]. }
    split; [exact Hfilter|]. split; [exact Hrel|].
    rewrite Hans, Hrel. reflexivity.
Defined.

(** C4, as stated, fails: the one paragraph holds the word of the question,
    which retrieval by key terms finds, but its score, 0.0665, is below
    the floor, and the answer is the generic guidance. *)
Lemma generateRuleBasedAnswer_skips_keyword_matching :
  isEducationalExplanationRequest Samples.gravityWord = false
  /\ paragraphsOver 50 Samples.applesContext = [ Samples.applesContext ]
  /\ scored Samples.logAtOne Samples.gravityWord [ Samples.applesContext ]
     = [ (0, 0.066519010479526144%float) ]
  /\ relevantParagraphs Samples.logAtOne Samples.gravityWord [ Samples.applesContext ] = []
  /\ findRelevantContentByTerms Samples.applesContext (extractKeyTerms Samples.gravityWord)
     = [ Samples.applesContext ]
  /\ generateRuleBasedAnswer Samples.logAtOne Samples.gravityWord Samples.applesContext [] None
     = genericGuidance sourceUnavailable.
Proof. vm_compute. repeat split; reflexivity. Qed.

End RankingFacts.

(** ** Facts on maps and sets *)

Module MapFacts.

Import JsMap.
Import StrFacts.

Section WithValues.
Variable V : Type.

Lemma get_set (m : t V) (k : str) (v : V) (k' : str) :
  get (set m k v) k' = if Str.eqb k k' then Some v else get m k'.
Proof.
  induction m as [|[k0 v0] m IH]; simpl; [reflexivity|].
  destruct (Str.eqb k0 k) eqn:E0; simpl.
  - apply eqb_eq in E0. subst k0. now destruct (Str.eqb k k').
  - rewrite IH. destruct (Str.eqb k0 k') eqn:E1; [|reflexivity].
    apply eqb_eq in E1. subst k0. now rewrite (proj2 (eqb_neq k k')) by (apply eqb_neq in E0; congruence).
Qed.

Lemma get_none (m : t V) (k : str) : get m k = None <-> ~ In k (keys m).
Proof.
  induction m as [|[k0 v0] m IH]; simpl; [tauto|].
  destruct (Str.eqb k0 k) eqn:E.
  - apply eqb_eq in E. split; [discriminate | intros H; exfalso; apply H; now left].
  - apply eqb_neq in E. rewrite IH. tauto.
Qed.

Lemma keys_set (m : t V) (k : str) (v : V) :
  keys (set m k v) = if existsb (Str.eqb k) (keys m) then keys m else keys m ++ [k].
Proof.
  induction m as [|[k0 v0] m IH]; simpl; [reflexivity|].
  destruct (Str.eqb k0 k) eqn:E; simpl.
  - apply eqb_eq in E. subst k0. now rewrite eqb_refl.
  - rewrite IH. apply eqb_neq in E.
    rewrite (proj2 (eqb_neq k k0)) by congruence. simpl.
    now destruct (existsb (Str.eqb k) (keys m)).
Qed.

Lemma existsb_eqb (k : str) (l : list str) : existsb (Str.eqb k) l = true <-> In k l.
Proof.
  rewrite existsb_exists. split.
  - intros (x & Hx & E). apply eqb_eq in E. now subst.
  - intros H. exists k. split; [exact H | apply eqb_refl].
Qed.

Lemma set_wellFormed (m : t V) (k : str) (v : V) :
  Spec.wellFormed m -> Spec.wellFormed (set m k v).
Proof.
  unfold Spec.wellFormed. intros H. rewrite keys_set.
  destruct (existsb (Str.eqb k) (keys m)) eqn:E; [exact H|].
  apply NoDup_app; [exact H | repeat constructor; intros [] |].
  intros a Ha [<-|[]]. apply existsb_eqb in Ha. congruence.
Qed.


End WithValues.

(** A loop that sets one value for each entry of a well-formed map. *)
Lemma get_fold_set (V W : Type) (g : str * V -> W) (m : t V) :
  Spec.wellFormed m ->
  forall (vec : t W) (k : str),
    get (fold_left (fun vec e => set vec (fst e) (g e)) m vec) k
    = match get m k with
      | Some f => Some (g (k, f))
      | None => get vec k
      end.
Proof.
  unfold Spec.wellFormed.
  induction m as [|[k0 f0] m IH]; intros Hnd vec k; simpl; [reflexivity|].
  inversion Hnd as [|? ? Hout Hnd']; subst.
  rewrite (IH Hnd'). simpl. rewrite get_set.
  destruct (Str.eqb k0 k) eqn:E.
  - apply eqb_eq in E. subst k0.
    now rewrite (proj2 (get_none m k) Hout).
  - reflexivity.
Qed.

Lemma has_In (s : list str) (k : str) : JsSet.has s k = true <-> In k s.
Proof. apply existsb_eqb. Qed.

Lemma ofList_from (xs : list str) :
  forall s, NoDup s ->
            NoDup (fold_left JsSet.add xs s)
            /\ (forall k, In k (fold_left JsSet.add xs s) <-> In k s \/ In k xs).
Proof.
  induction xs as [|x xs IH]; intros s Hs; simpl; [split; [exact Hs | tauto]|].
  assert (NoDup (JsSet.add s x)) as Hadd.
  { unfold JsSet.add. destruct (JsSet.has s x) eqn:E; [exact Hs|].
    apply NoDup_app; [exact Hs | repeat constructor; intros [] |].
    intros a Ha [<-|[]]. apply has_In in Ha. congruence. }
  destruct (IH _ Hadd) as [Hnd Hin]. split; [exact Hnd|].
  intros k. rewrite Hin. unfold JsSet.add.
  destruct (JsSet.has s x) eqn:E.
  - apply has_In in E. split; [tauto|]. intros [H|[<-|H]]; tauto.
  - rewrite in_app_iff. simpl. tauto.
Qed.

Lemma ofList_NoDup (xs : list str) : NoDup (JsSet.ofList xs).
Proof. apply ofList_from. constructor. Qed.

Lemma ofList_In (xs : list str) (k : str) : In k (JsSet.ofList xs) <-> In k xs.
Proof.
  unfold JsSet.ofList. rewrite (proj2 (ofList_from xs (@NoDup_nil str))). simpl. tauto.
Qed.

Lemma getOr_bump (m : t nat) (k k' : str) :
  get (bump m k) k' = if Str.eqb k k' then Some (getOr 0 m k' + 1) else get m k'.
Proof.
  unfold bump. rewrite get_set. destruct (Str.eqb k k') eqn:E; [|reflexivity].
  apply eqb_eq in E. now subst.
Qed.

(** Counting by [bump]: the count of a key grows by its occurrences. *)
Lemma get_fold_bump (toks : list str) :
  forall (m : t nat) (k : str),
    get (fold_left bump toks m) k
    = match count_occ (list_eq_dec ascii_dec) toks k with
      | 0 => get m k
      | S c => Some (getOr 0 m k + S c)
      end.
Proof.
  induction toks as [|x toks IH]; intros m k; simpl; [reflexivity|].
  rewrite IH. unfold getOr. rewrite getOr_bump.
  destruct (list_eq_dec ascii_dec x k) as [->|Hne].
  - rewrite eqb_refl.
    destruct (count_occ (list_eq_dec ascii_dec) toks k); f_equal; unfold getOr; lia.
  - rewrite (proj2 (eqb_neq x k) Hne). reflexivity.
Qed.

Lemma bump_wellFormed (toks : list str) :
  forall m : t nat, Spec.wellFormed m -> Spec.wellFormed (fold_left bump toks m).
Proof.
  induction toks as [|x toks IH]; intros m Hm; simpl; [exact Hm|].
  apply IH. now apply set_wellFormed.
Qed.

End MapFacts.

(** ** TF-IDF weights and the cosine *)

Module SearchFacts.

Import Search.
Import Spec.
Import MapFacts.

Lemma termCounts_get (toks : list str) (k : str) :
  In k toks -> JsMap.get (termCounts toks) k = Some (termFrequency k toks).
Proof.
  intros Hin. unfold termCounts, termFrequency. rewrite get_fold_bump.
  apply (count_occ_In (list_eq_dec ascii_dec)) in Hin.
  destruct (count_occ (list_eq_dec ascii_dec) toks k); [lia | reflexivity].
Qed.

Lemma termCounts_wellFormed (toks : list str) : wellFormed (termCounts toks).
Proof. apply bump_wellFormed. constructor. Qed.

(** One document adds one to the count of each of its distinct tokens. *)
Lemma get_fold_bump_set (d : list str) (m : JsMap.t nat) (k : str) :
  JsMap.get (fold_left JsMap.bump (JsSet.ofList d) m) k
  = if JsSet.has d k then Some (JsMap.getOr 0 m k + 1) else JsMap.get m k.
Proof.
  rewrite get_fold_bump.
  destruct (JsSet.has d k) eqn:E.
  - apply has_In, ofList_In in E.
    rewrite (proj1 (NoDup_count_occ' (list_eq_dec ascii_dec) _) (ofList_NoDup d) k E).
    reflexivity.
  - assert (~ In k (JsSet.ofList d)) as Hout.
    { rewrite ofList_In. intros H. apply has_In in H. congruence. }
    apply (count_occ_not_In (list_eq_dec ascii_dec)) in Hout. now rewrite Hout.
Qed.

Lemma docCounts_from (docs : list (list str)) :
  forall (m : JsMap.t nat) (k : str),
    JsMap.get (fold_left (fun df d => fold_left JsMap.bump (JsSet.ofList d) df) docs m) k
    = match length (filter (fun d => JsSet.has d k) docs) with
      | 0 => JsMap.get m k
      | S c => Some (JsMap.getOr 0 m k + S c)
      end.
Proof.
  induction docs as [|d docs IH]; intros m k; simpl; [reflexivity|].
  rewrite IH. unfold JsMap.getOr. rewrite get_fold_bump_set.
  destruct (JsSet.has d k); simpl.
  - destruct (length (filter (fun d0 => JsSet.has d0 k) docs)); f_equal; unfold JsMap.getOr; lia.
  - reflexivity.
Qed.

Lemma filter_tokenize (paragraphs : list str) (k : str) :
  length (filter (fun d => JsSet.has d k) (map tokenize paragraphs))
  = documentFrequency k paragraphs.
Proof.
  unfold documentFrequency.
  induction paragraphs as [|p ps IH]; simpl; [reflexivity|].
  destruct (JsSet.has (tokenize p) k); simpl; now rewrite IH.
Qed.

Lemma docCounts_getOr (paragraphs : list str) (k : str) :
  JsMap.getOr 0 (docCounts (map tokenize paragraphs)) k = documentFrequency k paragraphs.
Proof.
  unfold JsMap.getOr, docCounts. rewrite docCounts_from, filter_tokenize.
  destruct (documentFrequency k paragraphs); reflexivity.
Qed.

Lemma documentFrequency_pos (paragraphs : list str) (i : nat) (p k : str) :
  nth_error paragraphs i = Some p -> In k (tokenize p) -> 1 <= documentFrequency k paragraphs.
Proof.
  intros Hnth Hin. apply nth_error_In in Hnth.
  unfold documentFrequency.
  assert (In p (filter (fun p => JsSet.has (tokenize p) k) paragraphs)) as H.
  { apply filter_In. split; [exact Hnth | now apply has_In]. }
  destruct (filter (fun p => JsSet.has (tokenize p) k) paragraphs); [destruct H | simpl; lia].
Qed.

Lemma documentFrequency_le (paragraphs : list str) (k : str) :
  documentFrequency k paragraphs <= length paragraphs.
Proof. apply filter_length_le. Qed.

Lemma docCounts_get (paragraphs : list str) (i : nat) (p k : str) :
  nth_error paragraphs i = Some p -> In k (tokenize p) ->
  JsMap.get (docCounts (map tokenize paragraphs)) k = Some (documentFrequency k paragraphs).
Proof.
  intros Hnth Hin. pose proof (@documentFrequency_pos paragraphs i p k Hnth Hin) as Hpos.
  unfold docCounts. rewrite docCounts_from, filter_tokenize.
  destruct (documentFrequency k paragraphs); [lia | reflexivity].
Qed.

Lemma weigh_get (log : float -> float) (df : JsMap.t nat) (N : nat) (toks : list str)
      (k : str) :
  In k toks ->
  JsMap.get (weigh log df N (termCounts toks)) k
  = Some (Num.ofNat (termFrequency k toks) * idf log df N k)%float.
Proof.
  intros Hin. unfold weigh.
  rewrite (get_fold_set (fun e => (Num.ofNat (snd e) * idf log df N (fst e))%float)
                        (termCounts_wellFormed toks)).
  now rewrite (@termCounts_get toks k Hin).
Qed.

Lemma tfidf_weight_at (log : float -> float) (paragraphs : list str) (i : nat) (p t : str) :
  nth_error paragraphs i = Some p ->
  In t (tokenize p) ->
  exists vec,
    nth_error (vectors (tfidfParagraphs log paragraphs)) i = Some vec
    /\ JsMap.get vec t
       = Some (Num.ofNat (termFrequency t (tokenize p))
               * (log (Num.ofNat (length paragraphs + 1)
                       / Num.ofNat (documentFrequency t paragraphs + 1)) + 1))%float.
Proof.
  intros Hnth Ht.
  exists (weigh log (docCounts (map tokenize paragraphs)) (length (map tokenize paragraphs))
                (termCounts (tokenize p))).
  split.
  - unfold tfidfParagraphs. cbn [vectors].
    rewrite !nth_error_map, Hnth. reflexivity.
  - rewrite (@weigh_get log _ _ (tokenize p) t Ht). unfold idf.
    now rewrite docCounts_getOr, length_map.
Qed.

(** C6. In [tfidfParagraphs] a term [t] of paragraph [i] has the weight
    tf(t) * (log((N + 1) / (df(t) + 1)) + 1), computed in doubles with the
    [Math.log] of the implementation, where tf counts [t] in the
    paragraph, N is the number of paragraphs and df(t), the entry of [t]
    in the vocabulary returned, is the number of paragraphs of the same
    corpus in which [t] occurs. In [vectorizeQuery] a term [u] of the query
    has the weight given by the same formula with tf counted in the
    query and df read from the table given, 0 for a term the table does
    not have: its weight is then tf(u) * (log(N + 1) + 1), the division by
    1 being exact. *)
Theorem tfidf_weight_formula :
  forall (log : float -> float) (paragraphs : list str) (i : nat) (p t : str)
         (q : str) (df : JsMap.t nat) (N : nat) (u : str),
    nth_error paragraphs i = Some p ->
    In t (tokenize p) ->
    In u (tokenize q) ->
    let c := tfidfParagraphs log paragraphs in
    (exists vec,
        nth_error (vectors c) i = Some vec
        /\ JsMap.get vec t
           = Some (Num.ofNat (termFrequency t (tokenize p))
                   * (log (Num.ofNat (length paragraphs + 1)
                           / Num.ofNat (documentFrequency t paragraphs + 1)) + 1))%float)
    /\ JsMap.get (vocabulary c) t = Some (documentFrequency t paragraphs)
    /\ JsMap.get (vectorizeQuery log q df N) u
       = Some (Num.ofNat (termFrequency u (tokenize q))
               * (log (Num.ofNat (N + 1) / Num.ofNat (JsMap.getOr 0%nat df u + 1)) + 1))%float
    /\ (JsMap.get df u = None ->
        JsMap.get (vectorizeQuery log q df N) u
        = Some (Num.ofNat (termFrequency u (tokenize q))
                * (log (Num.ofNat (N + 1)) + 1))%float).
Proof.
  intros log paragraphs i p t q df N u Hnth Ht Hu c.
  split; [|split; [|split]].
  - now apply tfidf_weight_at.
  - unfold c, tfidfParagraphs. cbn [vocabulary]. now apply docCounts_get with i p.
  - unfold vectorizeQuery. now rewrite (@weigh_get log df N (tokenize q) u Hu).
  - intros Hnone. unfold vectorizeQuery. rewrite (@weigh_get log df N (tokenize q) u Hu).
    unfold idf, JsMap.getOr. rewrite Hnone.
    change (Num.ofNat (0 + 1)) with 1%float. now rewrite FloatFacts.div_one.
Qed.

(** In a corpus of one paragraph the quotient under the logarithm is 1:
    the weight of a term is its count. *)
Lemma tfidf_weight_formula_witness :
  (exists vec,
      nth_error (vectors (tfidfParagraphs Samples.logAtOne Samples.oneParagraph)) 0 = Some vec
      /\ JsMap.get vec (L "a") = Some 2%float)
  /\ JsMap.get (vocabulary (tfidfParagraphs Samples.logAtOne Samples.oneParagraph)) (L "a")
     = Some 1
  /\ JsMap.get (vectorizeQuery Samples.logAtOne (L "a zebra") [] 2) (L "zebra")
     = Some (1 * (Samples.logAtOne 3 + 1))%float.
Proof.
  destruct (@tfidf_weight_formula Samples.logAtOne Samples.oneParagraph 0 (L "a b a") (L "a")
                                  (L "a zebra") [] 2 (L "zebra"))
    as ((vec & Hvec & Hget) & Hdf & _ & Hnew).
  - reflexivity.
  - vm_compute. tauto.
  - vm_compute. tauto.
  - split; [|split; [exact Hdf | exact (Hnew eq_refl)]].
    exists vec. split; [exact Hvec|]. rewrite Hget. vm_compute. reflexivity.
Defined.

End SearchFacts.

(** ** The cosine *)

Module CosineFacts.

Import Search.
Import Spec.
Import MapFacts.
Import Ieee.



















End CosineFacts.

(** ** Facts on the matcher *)

Module ReFacts.

Import Re.

Lemma pos_advance (cs tl : str) : forall st, pos (advance cs tl st) = pos st + length cs.
Proof.
  induction cs as [|c cs IH]; intros st; simpl; [lia|].
  rewrite IH. simpl. lia.
Qed.

Lemma caps_advance (cs tl : str) : forall st, caps (advance cs tl st) = caps st.
Proof.
  induction cs as [|c cs IH]; intros st; simpl; [reflexivity|].
  now rewrite IH.
Qed.

Lemma rest_advance (cs tl : str) :
  forall st, rest st = cs ++ tl -> rest (advance cs tl st) = tl.
Proof.
  induction cs as [|c cs IH]; intros st H; simpl; [exact H|].
  now apply IH.
Qed.

(** The quantifier over one class runs as [greedy] reads. *)
Lemma rep_greedy (p : ascii -> bool) (k : cont) :
  forall fuel mn st,
    length (rest st) < fuel ->
    rep fuel (run (Chr p)) mn None k st = greedy p mn k st (rest st).
Proof.
  induction fuel as [|fuel IH]; intros mn st Hfuel; [lia|].
  cbn [rep run]. destruct (rest st) as [|c s] eqn:Es.
  - cbn [greedy]. destruct (mn =? 0); reflexivity.
  - cbn [greedy]. destruct (p c); [|destruct (mn =? 0); reflexivity].
    assert ((pos (step c s st) =? pos st) = false) as Hpos
        by (apply Nat.eqb_neq; simpl; lia).
    rewrite Hpos, andb_false_r.
    rewrite IH by (simpl in *; lia).
    cbn [rest step]. destruct (mn =? 0); [reflexivity|].
    now destruct (greedy p (pred mn) k (step c s st) s).
Qed.

Lemma run_rep_chr (p : ascii -> bool) (mn : nat) (k : cont) (st : state) :
  run (Rep (Chr p) mn None) k st = greedy p mn k st (rest st).
Proof. cbn [run]. apply rep_greedy. lia. Qed.

Lemma greedy_some (p : ascii -> bool) (k : cont) (e : state) :
  forall s mn st,
    greedy p mn k st s = Some e ->
    exists cs tl,
      s = cs ++ tl /\ Forall (fun c => p c = true) cs /\ mn <= length cs
      /\ k (advance cs tl st) = Some e.
Proof.
  induction s as [|c s IH]; intros mn st H; cbn [greedy] in H.
  - destruct (mn =? 0) eqn:E; [|discriminate]. apply Nat.eqb_eq in E.
    exists [], []. repeat split; [constructor | simpl; lia | exact H].
  - assert ((if mn =? 0 then k st else None) = Some e ->
            exists cs tl, c :: s = cs ++ tl /\ Forall (fun c => p c = true) cs
                          /\ mn <= length cs /\ k (advance cs tl st) = Some e) as Hstop.
    { intros H0. destruct (mn =? 0) eqn:E; [|discriminate]. apply Nat.eqb_eq in E.
      exists [], (c :: s). repeat split; [constructor | simpl; lia | exact H0]. }
    destruct (p c) eqn:Ep; [|now apply Hstop].
    destruct (greedy p (pred mn) k (step c s st) s) as [e'|] eqn:Eg; [|now apply Hstop].
    injection H as <-.
    destruct (IH _ _ Eg) as (cs & tl & -> & Hcs & Hmn & Hk).
    exists (c :: cs), tl. repeat split; [now constructor | simpl; lia | exact Hk].
Qed.

(** When the whole run of the class is followed by something the
    continuation accepts, that is the match. *)
Lemma greedy_full (p : ascii -> bool) (k : cont) (e : state) (tl : str) :
  (forall c tl', tl = c :: tl' -> p c = false) ->
  forall cs mn st,
    Forall (fun c => p c = true) cs -> mn <= length cs ->
    k (advance cs tl st) = Some e ->
    greedy p mn k st (cs ++ tl) = Some e.
Proof.
  intros Htl. induction cs as [|c cs IH]; intros mn st Hcs Hmn Hk; simpl in *.
  - assert (mn = 0) as -> by lia.
    destruct tl as [|c tl']; cbn [greedy]; [exact Hk|].
    now rewrite (Htl c tl' eq_refl).
  - inversion Hcs as [|? ? Hc Hcs']; subst. rewrite Hc.
    now rewrite (IH (pred mn) _ Hcs' ltac:(lia) Hk).
Qed.

Lemma dropPrefix_some (cs s tl : str) : dropPrefix cs s = Some tl <-> s = cs ++ tl.
Proof.
  revert s. induction cs as [|a cs IH]; intros s; simpl.
  - split; congruence.
  - destruct s as [|b s]; [split; discriminate|].
    destruct (Ascii.eqb a b) eqn:E.
    + apply Ascii.eqb_eq in E. subst. rewrite IH. split; congruence.
    + apply Ascii.eqb_neq in E. split; [discriminate | congruence].
Qed.

(** A sequence of given code units matches them and nothing else. *)
Lemma run_literal (cs : str) (k : cont) :
  forall st,
    run (seqs (map (fun c => Chr (Chars.eq c)) cs)) k st
    = match dropPrefix cs (rest st) with
      | Some tl => k (advance cs tl st)
      | None => None
      end.
Proof.
  induction cs as [|c cs IH]; intros st; [reflexivity|].
  assert (run (Seq (Chr (Chars.eq c)) (seqs (map (fun c => Chr (Chars.eq c)) cs))) k st
          = match dropPrefix (c :: cs) (rest st) with
            | Some tl => k (advance (c :: cs) tl st)
            | None => None
            end) as Hseq.
  { cbn [run dropPrefix]. destruct (rest st) as [|b s] eqn:Es; [reflexivity|].
    unfold Chars.eq. destruct (Ascii.eqb c b) eqn:Ecb; [|reflexivity].
    apply Ascii.eqb_eq in Ecb. subst b.
    rewrite IH. cbn [rest step].
    destruct (dropPrefix cs s) as [tl|] eqn:Ed; [|reflexivity].
    apply dropPrefix_some in Ed. subst s. reflexivity. }
  destruct cs as [|c' cs]; [|exact Hseq].
  cbn [map seqs] in *. rewrite <- Hseq. cbn [run]. 
  destruct (rest st) as [|b s]; [reflexivity|].
  destruct (Chars.eq c b); reflexivity.
Qed.

Lemma run_lit (s : string) (k : cont) (st : state) :
  run (lit s) k st
  = match dropPrefix (L s) (rest st) with
    | Some tl => k (advance (L s) tl st)
    | None => None
    end.
Proof. apply run_literal. Qed.

(** Where [search] finds a match and where it finds none. *)
Lemma search_none (r : regex) :
  forall s p pv,
    search r p pv s = None ->
    forall pre suf, s = pre ++ suf ->
                    exists p' pv', matchAt r (start p' pv' suf) = None.
Proof.
  induction s as [|c s IH]; intros p pv H pre suf Hs; cbn [search] in H.
  - destruct pre; [|discriminate]. simpl in Hs. subst suf.
    exists p, pv. now destruct (matchAt r (start p pv [])).
  - destruct (matchAt r (start p pv (c :: s))) eqn:Em; [discriminate|].
    destruct pre as [|c' pre]; simpl in Hs.
    + subst suf. now exists p, pv.
    + injection Hs as <- ->. now apply (IH _ _ H pre suf).
Qed.

Lemma search_some (r : regex) (q : nat) (e : state) :
  forall s p pv,
    search r p pv s = Some (q, e) ->
    exists pre suf p' pv', s = pre ++ suf /\ matchAt r (start p' pv' suf) = Some e.
Proof.
  induction s as [|c s IH]; intros p pv H; cbn [search] in H.
  - destruct (matchAt r (start p pv [])) eqn:Em; [|discriminate].
    injection H as <- <-. now exists [], [], p, pv.
  - destruct (matchAt r (start p pv (c :: s))) eqn:Em.
    + injection H as <- <-. now exists [], (c :: s), p, pv.
    + destruct (IH _ _ H) as (pre & suf & p' & pv' & -> & Hm).
      now exists (c :: pre), suf, p', pv'.
Qed.

End ReFacts.

(** ** Page markers *)

Module MarkerFacts.

Import Re.
Import ReFacts.
Import Sectioner.
Import Spec.

(** Decimal numerals. *)
Lemma parse_numeral (d : Decimal.uint) :
  forall acc,
    fold_left (fun acc c => 10 * acc + Str.digit c)
              (L (DecimalString.NilEmpty.string_of_uint d)) acc
    = Nat.of_uint_acc d acc.
Proof.
  induction d; intros acc; cbn [DecimalString.NilEmpty.string_of_uint L list_ascii_of_string
                                fold_left Nat.of_uint_acc];
    try reflexivity; fold (L (DecimalString.NilEmpty.string_of_uint d));
    rewrite IHd, Nat.tail_mul_spec; f_equal; unfold Str.digit, Chars.code; simpl; lia.
Qed.

Lemma parseInt_ofNat (n : nat) : Str.parseInt (Str.ofNat n) = n.
Proof.
  unfold Str.parseInt, Str.ofNat. rewrite parse_numeral.
  apply DecimalNat.Unsigned.of_to.
Qed.

Lemma numeral_digits (d : Decimal.uint) :
  Forall (fun c => Chars.is_digit c = true) (L (DecimalString.NilEmpty.string_of_uint d)).
Proof.
  induction d; cbn [DecimalString.NilEmpty.string_of_uint L list_ascii_of_string];
    constructor; try reflexivity; assumption.
Qed.

Lemma ofNat_digits (n : nat) : Forall (fun c => Chars.is_digit c = true) (Str.ofNat n).
Proof. apply numeral_digits. Qed.

Lemma ofNat_nonempty (n : nat) : Str.ofNat n <> [].
Proof.
  unfold Str.ofNat. intros H.
  assert (Nat.to_uint n = Decimal.Nil) as Hnil.
  { destruct (Nat.to_uint n); try reflexivity; discriminate. }
  pose proof (DecimalNat.Unsigned.of_to n) as Hn. rewrite Hnil in Hn.
  simpl in Hn. subst n. discriminate.
Qed.

(** What the marker pattern matches. *)
Lemma matchAt_marker_some (st e : state) :
  matchAt marker st = Some e ->
  exists ds, markerAt (rest st) ds /\ sub 1 e = ds.
Proof.
  unfold matchAt, marker. cbn [seqs run]. rewrite run_lit.
  destruct (dropPrefix (L "[[PAGE:") (rest st)) as [tl|] eqn:Ed; [|discriminate].
  apply dropPrefix_some in Ed.
  unfold plus, digit. rewrite run_rep_chr.
  rewrite (rest_advance _ _ _ Ed).
  intros H. apply greedy_some in H.
  destruct H as (ds & tl2 & -> & Hds & Hlen & Hk).
  rewrite run_lit in Hk. cbn [rest capture] in Hk.
  rewrite (rest_advance ds tl2) in Hk
    by (rewrite (rest_advance _ _ _ Ed); reflexivity).
  destruct (dropPrefix (L "]]") tl2) as [tl3|] eqn:Ed2; [|discriminate].
  apply dropPrefix_some in Ed2. subst tl2.
  assert (forall a b : state, Some a = Some b -> a = b) as Hinj by (intros; congruence).
  apply Hinj in Hk. subst e.
  exists ds. split.
  - split; [|split].
    + destruct ds; [simpl in Hlen; lia | discriminate].
    + exact Hds.
    + exists tl3. exact Ed.
  - unfold sub, cap. rewrite caps_advance. cbn [caps capture find fst snd Nat.eqb].
    rewrite pos_advance.
    replace (pos (advance (L "[[PAGE:") (ds ++ L "]]" ++ tl3) st) + length ds
             - pos (advance (L "[[PAGE:") (ds ++ L "]]" ++ tl3) st))
      with (length ds) by lia.
    now rewrite firstn_app, Nat.sub_diag, firstn_all, firstn_O, app_nil_r.
Qed.

Lemma matchAt_marker_full (st : state) (ds : str) :
  markerAt (rest st) ds -> matchAt marker st <> None.
Proof.
  intros (Hne & Hds & tl & Hrest).
  unfold matchAt, marker. cbn [seqs run]. rewrite run_lit.
  rewrite (proj2 (dropPrefix_some _ _ _) Hrest).
  unfold plus, digit. rewrite run_rep_chr, (rest_advance _ _ _ Hrest).
  erewrite greedy_full; [discriminate | | exact Hds | | ].
  - intros c tl' Htl. injection Htl as <- _. reflexivity.
  - destruct ds; [congruence | simpl; lia].
  - rewrite run_lit. cbn [rest capture].
    rewrite (rest_advance ds (L "]]" ++ tl))
      by (rewrite (rest_advance _ _ _ Hrest); reflexivity).
    rewrite (proj2 (dropPrefix_some (L "]]") _ tl) eq_refl). reflexivity.
Qed.

Lemma firstPageOf_some (b : str) (k : nat) :
  firstPageOf b = Some k ->
  exists pre suf ds, b = pre ++ suf /\ markerAt suf ds /\ k = Str.parseInt ds.
Proof.
  unfold firstPageOf, exec.
  destruct (search marker 0 None b) as [[q e]|] eqn:Es; [|discriminate].
  cbn [option_map snd]. intros H. injection H as <-.
  apply search_some in Es. destruct Es as (pre & suf & p' & pv' & -> & Hm).
  apply matchAt_marker_some in Hm. destruct Hm as (ds & Hat & <-).
  exists pre, suf, (sub 1 e). split; [reflexivity | split; [exact Hat | reflexivity]].
Qed.

Lemma firstPageOf_none (t : str) : firstPageOf t = None -> markerFree t.
Proof.
  unfold firstPageOf, exec.
  destruct (search marker 0 None t) as [[q e]|] eqn:Es; [discriminate|].
  intros _ pre suf ds Ht Hat.
  destruct (@search_none marker t 0 None Es pre suf Ht) as (p' & pv' & Hm).
  now apply (@matchAt_marker_full (start p' pv' suf) ds).
Qed.

(** A marker at the head of a block is found there. *)
Lemma firstPageOf_head (b ds : str) :
  markerAt b ds -> firstPageOf b = Some (Str.parseInt ds).
Proof.
  intros Hat. unfold firstPageOf, exec.
  destruct b as [|c b'].
  { destruct Hat as (_ & _ & tl & Htl). discriminate. }
  cbn [search].
  destruct (matchAt marker (start 0 None (c :: b'))) as [e|] eqn:Em.
  - cbn [option_map snd]. apply matchAt_marker_some in Em.
    destruct Em as (ds' & Hat' & ->).
    destruct Hat as (_ & Hds & tl & Htl). destruct Hat' as (_ & Hds' & tl' & Htl').
    cbn [rest start] in Htl'. rewrite Htl in Htl'.
    apply app_inv_head in Htl'.
    assert (ds = ds') as ->; [|reflexivity].
    clear -Hds Hds' Htl'. revert ds' Hds' Htl'.
    induction Hds as [|d ds Hd _ IH]; intros ds' Hds' H.
    + destruct Hds' as [|d' ds' Hd' _]; [reflexivity|].
      simpl in H. injection H as <- _. discriminate.
    + destruct Hds' as [|d' ds' Hd' Hds']; simpl in H.
      * injection H as -> _. discriminate.
      * injection H as <- H. f_equal. now apply IH.
  - exfalso. revert Em. now apply (@matchAt_marker_full (start 0 None (c :: b')) ds).
Qed.

(** A line that is a marker is content for [isLikelyHeader]. *)
Lemma markerLine_test (ds : str) :
  ds <> [] -> Forall (fun c => Chars.is_digit c = true) ds ->
  test markerLine (L "[[PAGE:" ++ ds ++ L "]]") = true.
Proof.
  intros Hne Hds. unfold test, exec.
  assert (matchAt markerLine (start 0 None (L "[[PAGE:" ++ ds ++ L "]]")) <> None) as Hm.
  { unfold matchAt, markerLine. cbn [seqs run]. cbn [pos start Nat.eqb].
    rewrite run_lit. cbn [rest start].
    rewrite (proj2 (dropPrefix_some (L "[[PAGE:") _ (ds ++ L "]]")) eq_refl).
    unfold plus, digit. rewrite run_rep_chr.
    rewrite (rest_advance (L "[[PAGE:") (ds ++ L "]]")) by reflexivity.
    erewrite greedy_full; [discriminate | | exact Hds | | ].
    - intros c tl' Htl. injection Htl as <- _. reflexivity.
    - destruct ds; [congruence | simpl; lia].
    - rewrite run_lit.
      rewrite (rest_advance ds (L "]]"))
        by (rewrite (rest_advance (L "[[PAGE:") (ds ++ L "]]")); reflexivity).
      rewrite (proj2 (dropPrefix_some (L "]]") (L "]]") []) eq_refl).
      cbn [run]. rewrite rest_advance; [reflexivity|].
      rewrite (rest_advance ds (L "]]")); [reflexivity|].
      rewrite (rest_advance (L "[[PAGE:") (ds ++ L "]]")); reflexivity. }
  destruct (L "[[PAGE:" ++ ds ++ L "]]") as [|c s] eqn:E; [discriminate|].
  cbn [search].
  destruct (matchAt markerLine (start 0 None (c :: s))); [reflexivity | contradiction].
Qed.

Lemma trim_id (c c' : ascii) (m : str) :
  Chars.is_space c = false -> Chars.is_space c' = false ->
  Str.trim (c :: m ++ [c']) = c :: m ++ [c'].
Proof.
  intros Hc Hc'. unfold Str.trim, Str.trimStart, Str.trimEnd.
  cbn [Str.dropWhile]. rewrite Hc.
  replace (rev (c :: m ++ [c'])) with (c' :: rev (c :: m))
    by (change (c :: m ++ [c']) with ((c :: m) ++ [c']); now rewrite rev_app_distr).
  cbn [Str.dropWhile]. rewrite Hc'.
  change (c' :: rev (c :: m)) with ([c'] ++ rev (c :: m)).
  now rewrite rev_app_distr, rev_involutive.
Qed.

Lemma trim_marker (ds : str) :
  Str.trim (L "[[PAGE:" ++ ds ++ L "]]") = L "[[PAGE:" ++ ds ++ L "]]".
Proof.
  replace (L "[[PAGE:" ++ ds ++ L "]]")
    with ("["%char :: (L "[PAGE:" ++ ds ++ L "]") ++ [ "]"%char ])
    by (simpl; now rewrite <- app_assoc).
  now apply trim_id.
Qed.

Lemma isLikelyHeader_marker (ds : str) :
  ds <> [] -> Forall (fun c => Chars.is_digit c = true) ds ->
  isHeader (isLikelyHeader (L "[[PAGE:" ++ ds ++ L "]]")) = false.
Proof.
  intros Hne Hds. unfold isLikelyHeader.
  rewrite trim_marker.
  unfold contentPatterns. cbn [existsb].
  rewrite (markerLine_test Hne Hds), !orb_true_r. reflexivity.
Qed.

End MarkerFacts.

(** ** Splitting at line breaks *)

Module SplitFacts.

Import Re.
Import ReFacts.
Import Sectioner.
Import Spec.

Lemma noBlankLine_nil : noBlankLine [].
Proof. intros a b H. destruct a; discriminate. Qed.

Lemma noBlankLine_snoc (x : str) (c : ascii) :
  noBlankLine x -> (forall x', x = x' ++ [nl] -> c <> nl) -> noBlankLine (x ++ [c]).
Proof.
  intros Hx Hc a b H.
  destruct (exists_last (l := nl :: nl :: b)) as (b' & c' & Hb); [discriminate|].
  rewrite Hb, app_assoc in H. apply app_inj_tail in H. destruct H as [Hx' <-].
  destruct b' as [|n1 [|n2 b'']].
  - simpl in Hb. discriminate.
  - simpl in Hb. injection Hb as <- <-.
    apply (Hc a); [now rewrite Hx' | reflexivity].
  - simpl in Hb. injection Hb as <- <- Hb'.
    apply (Hx a b''). now rewrite Hx'.
Qed.

(** The matches of [/\n/] and of [/\n{2,}/]. *)
Lemma matchAt_newline (p : nat) (pv : option ascii) (s : str) :
  matchAt newline (start p pv s)
  = match s with
    | c :: s' => if Ascii.eqb nl c then Some (step c s' (start p pv s)) else None
    | [] => None
    end.
Proof. reflexivity. Qed.

Lemma matchAt_newlines2_none (p : nat) (pv : option ascii) (s : str) :
  (forall s', s <> nl :: nl :: s') -> matchAt newlines2 (start p pv s) = None.
Proof.
  intros Hs. unfold matchAt, newlines2, atLeast, newline. rewrite run_rep_chr.
  destruct (greedy (Chars.eq nl) 2 Some (start p pv s) (rest (start p pv s))) as [e|] eqn:Eg;
    [|reflexivity].
  apply greedy_some in Eg. destruct Eg as (cs & tl & Hrest & Hcs & Hlen & _).
  cbn [rest start] in Hrest. exfalso.
  destruct cs as [|c1 [|c2 cs]]; simpl in Hlen; try lia.
  inversion Hcs as [|? ? H1 Hcs']; subst. inversion Hcs' as [|? ? H2 _]; subst.
  unfold Chars.eq in *. apply Ascii.eqb_eq in H1, H2. subst.
  now apply (Hs (cs ++ tl)).
Qed.

Lemma matchAt_newlines2_some (p : nat) (pv : option ascii) (cs tl : str) :
  Forall (fun c => c = nl) cs -> 2 <= length cs -> (forall tl', tl <> nl :: tl') ->
  exists e, matchAt newlines2 (start p pv (cs ++ tl)) = Some e /\ pos e - p = length cs.
Proof.
  intros Hcs Hlen Htl.
  exists (advance cs tl (start p pv (cs ++ tl))). split.
  - unfold matchAt, newlines2, atLeast, newline. rewrite run_rep_chr.
    cbn [rest start]. apply greedy_full; try assumption; try reflexivity.
    + intros c tl' ->. unfold Chars.eq. apply Ascii.eqb_neq. intros <-. now apply (Htl tl').
    + eapply Forall_impl; [|exact Hcs]. intros c ->. unfold Chars.eq. apply Ascii.eqb_refl.
  - rewrite pos_advance. cbn [pos start]. lia.
Qed.

(** The run of line breaks at the head of a string. *)
Lemma leading_newlines (s : str) :
  exists cs tl, s = cs ++ tl /\ Forall (fun c => c = nl) cs /\ (forall tl', tl <> nl :: tl').
Proof.
  induction s as [|c s (cs & tl & -> & Hcs & Htl)].
  - exists [], []. repeat split; [constructor | discriminate].
  - destruct (ascii_dec c nl) as [->|Hne].
    + exists (nl :: cs), tl. repeat split; [now constructor | exact Htl].
    + exists [], (c :: cs ++ tl). repeat split; [constructor | congruence].
Qed.

(** Passing over the rest of a separator. *)
Lemma splitFrom_skip (r : regex) (tl : str) :
  forall cs p pv,
    exists p' pv',
      splitFrom r (length cs) [] p pv (cs ++ tl) = splitFrom r 0 [] p' pv' tl.
Proof.
  induction cs as [|c cs IH]; intros p pv; simpl.
  - exists p, pv. reflexivity.
  - apply IH.
Qed.

Section Blocks.
Variable S : str.

Lemma splitFrom_blocks :
  forall n s, length s <= n ->
  forall acc p pv pre,
    S = pre ++ rev acc ++ s ->
    noBlankLine (rev acc) ->
    (pre <> [] -> forall x, rev acc ++ s <> nl :: x) ->
    (forall acc', acc = nl :: acc' -> forall s', s <> nl :: s') ->
    Forall (blockOf S) (splitFrom newlines2 0 acc p pv s).
Proof.
  induction n as [|n IH]; intros s Hn acc p pv pre HS Hacc Hfirst Hlast.
  - destruct s; [|simpl in Hn; lia]. cbn [splitFrom].
    constructor; [|constructor].
    exists pre, []. rewrite app_nil_r in *. repeat split; assumption.
  - destruct s as [|c s].
    { cbn [splitFrom]. constructor; [|constructor].
      exists pre, []. rewrite app_nil_r in *. repeat split; assumption. }
    cbn [splitFrom].
    destruct (leading_newlines (c :: s)) as (cs & tl & Hs & Hcs & Htl).
    destruct (Nat.lt_ge_cases (length cs) 2) as [Hshort|Hlong].
    + (* no separator here *)
      rewrite matchAt_newlines2_none.
      2:{ intros s' Hs'. rewrite Hs' in Hs.
          destruct cs as [|c1 [|c2 cs]]; simpl in Hshort; try lia.
          - simpl in Hs. apply (Htl (nl :: s')). congruence.
          - simpl in Hs. apply (Htl s'). congruence. }
      apply (IH s ltac:(simpl in Hn; lia) (c :: acc) (Datatypes.S p) (Some c) pre).
      * simpl. rewrite <- !app_assoc. exact HS.
      * simpl. apply noBlankLine_snoc; [exact Hacc|].
        intros x' Hx' ->.
        assert (exists acc', acc = nl :: acc') as (acc' & Hacc').
        { destruct acc as [|a acc']; [destruct x'; discriminate|].
          simpl in Hx'. apply app_inj_tail in Hx'. destruct Hx' as [_ ->]. now exists acc'. }
        now apply (Hlast acc' Hacc' s).
      * intros Hpre x. simpl. rewrite <- app_assoc. now apply Hfirst.
      * intros acc' Hacc' s' ->. injection Hacc' as -> _.
        destruct cs as [|c1 [|c2 cs]]; simpl in Hshort; try lia.
        -- simpl in Hs. apply (Htl (nl :: s')). congruence.
        -- simpl in Hs. apply (Htl s'). congruence.
    + (* a separator: the run [cs] of line breaks *)
      destruct (@matchAt_newlines2_some p pv cs tl Hcs Hlong Htl) as (e & Hm & Hpos).
      rewrite Hs, Hm, Hpos.
      destruct cs as [|c1 cs]; [simpl in Hlong; lia|].
      simpl in Hs. injection Hs as -> ->.
      cbn [length].
      constructor.
      * exists pre, (c1 :: cs ++ tl). repeat split; try assumption.
        intros Hpre q' Hq. apply (Hfirst Hpre (q' ++ c1 :: cs ++ tl)).
        now rewrite Hq.
      * destruct (splitFrom_skip newlines2 tl cs (Datatypes.S p) (Some c1))
          as (p' & pv' & ->).
        apply (IH tl) with (pre := pre ++ rev acc ++ c1 :: cs).
        -- simpl in Hn. rewrite length_app in Hn. lia.
        -- simpl. rewrite HS, <- !app_assoc. reflexivity.
        -- apply noBlankLine_nil.
        -- intros _ x. simpl. apply Htl.
        -- discriminate.
Qed.

Lemma split_blocks : Forall (blockOf S) (split newlines2 S).
Proof.
  unfold split. destruct S as [|c s] eqn:ES.
  - rewrite matchAt_newlines2_none by (intros s' H; discriminate).
    constructor; [|constructor].
    exists [], []. repeat split; [congruence | apply noBlankLine_nil].
  - rewrite <- ES.
    apply (@splitFrom_blocks (length S) S (Nat.le_refl _) [] 0 None []);
      try reflexivity; try congruence.
    apply noBlankLine_nil.
Qed.
End Blocks.

(** The first piece of a split at line breaks. *)
Lemma splitFrom_newline_head (tl : str) :
  (tl = [] \/ exists r, tl = nl :: r) ->
  forall m acc p pv,
    Forall (fun c => c <> nl) m ->
    exists pieces, splitFrom newline 0 acc p pv (m ++ tl) = (rev acc ++ m) :: pieces.
Proof.
  intros Htl. induction m as [|c m IH]; intros acc p pv Hm.
  - rewrite app_nil_r. simpl. destruct Htl as [->|(r & ->)].
    + exists []. reflexivity.
    + cbn [splitFrom]. rewrite matchAt_newline, Ascii.eqb_refl.
      cbn [pos step start]. replace (Datatypes.S p - p) with 1 by lia.
      eexists. reflexivity.
  - inversion Hm as [|? ? Hc Hm']; subst. simpl app. cbn [splitFrom].
    rewrite matchAt_newline.
    rewrite (proj2 (Ascii.eqb_neq nl c)) by congruence.
    destruct (IH (c :: acc) (Datatypes.S p) (Some c) Hm') as (pieces & ->).
    exists pieces. simpl. now rewrite <- app_assoc.
Qed.

Lemma trim_infix (q : str) : exists w1 w2, q = w1 ++ Str.trim q ++ w2.
Proof.
  assert (forall p s, exists w, s = w ++ Str.dropWhile p s) as Hdrop.
  { intros p s. induction s as [|c s (w & Hw)]; simpl.
    - now exists [].
    - destruct (p c); [exists (c :: w); simpl; now f_equal | now exists []]. }
  unfold Str.trim, Str.trimEnd, Str.trimStart.
  destruct (Hdrop Chars.is_space q) as (w1 & H1).
  destruct (Hdrop Chars.is_space (rev (Str.dropWhile Chars.is_space q))) as (w2 & H2).
  exists w1, (rev w2).
  rewrite <- rev_app_distr, <- H2, rev_involutive. exact H1.
Qed.

End SplitFacts.

(** ** The page markers of the tagged document *)

Module TaggedFacts.

Import Sectioner.
Import Spec.
Import MarkerFacts.

Lemma digit_not_bracket (c : ascii) : Chars.is_digit c = true -> c <> "["%char.
Proof. intros H ->. discriminate. Qed.

Lemma digit_not_newline (c : ascii) : Chars.is_digit c = true -> c <> nl.
Proof. intros H ->. discriminate. Qed.

Lemma digit_run_unique (a b x y : str) :
  Forall (fun c => Chars.is_digit c = true) a ->
  Forall (fun c => Chars.is_digit c = true) b ->
  a ++ "]"%char :: x = b ++ "]"%char :: y -> a = b /\ x = y.
Proof.
  intros Ha. revert b. induction Ha as [|d a Hd _ IH]; intros b Hb H.
  - destruct Hb as [|d' b Hd' _]; simpl in H.
    + injection H as ->. now split.
    + injection H as <- _. discriminate.
  - destruct Hb as [|d' b Hd' Hb]; simpl in H.
    + injection H as -> _. discriminate.
    + injection H as <- H. destruct (IH b Hb H) as [-> ->]. now split.
Qed.

Lemma markerAt_head (s ds : str) :
  markerAt s ds -> exists r, s = "["%char :: "["%char :: r.
Proof. intros (_ & _ & tl & ->). eexists. reflexivity. Qed.

Lemma markerAt_app (s ds x : str) : markerAt s ds -> markerAt (s ++ x) ds.
Proof.
  intros (Hne & Hds & tl & ->). split; [exact Hne|]. split; [exact Hds|].
  exists (tl ++ x). now rewrite <- !app_assoc.
Qed.

Lemma marker_no_newline (ds : str) :
  Forall (fun c => Chars.is_digit c = true) ds ->
  Forall (fun c => c <> nl) (L "[[PAGE:" ++ ds ++ L "]]").
Proof.
  intros Hds. apply Forall_app. split; [repeat constructor; discriminate|].
  apply Forall_app. split; [|repeat constructor; discriminate].
  eapply Forall_impl; [|exact Hds]. apply digit_not_newline.
Qed.

Lemma tag_tail_no_bracket (n : nat) :
  Forall (fun c => c <> "["%char) (L "PAGE:" ++ Str.ofNat n ++ L "]]" ++ [nl]).
Proof.
  apply Forall_app. split; [repeat constructor; discriminate|].
  apply Forall_app. split; [|repeat constructor; discriminate].
  eapply Forall_impl; [|apply ofNat_digits]. apply digit_not_bracket.
Qed.

Lemma taggedFrom_cons (i0 : nat) (t : str) (ts : list str) :
  taggedFrom i0 (t :: ts)
  = pageTag (i0 + 1) ++ t
    ++ match ts with [] => [] | _ :: _ => [nl; nl] ++ taggedFrom (S i0) ts end.
Proof.
  unfold taggedFrom. cbn [mapi Str.join].
  destruct ts as [|t' ts]; cbn [mapi]; [now rewrite app_nil_r|].
  now rewrite <- app_assoc.
Qed.

(** A marker found after the tag of a page without markers lies beyond
    the blank line that ends the page. *)
Lemma marker_after_page (t R D l suf ds : str) :
  markerFree t ->
  (R = [] \/ R = nl :: nl :: D) ->
  t ++ R = l ++ suf ->
  markerAt suf ds ->
  exists m, R = nl :: nl :: D /\ l = t ++ nl :: nl :: m /\ D = m ++ suf.
Proof.
  intros Ht HR Heq Hat.
  destruct (markerAt_head Hat) as (r & Hr).
  apply app_eq_app in Heq. destruct Heq as (m & [[Hl Hsuf] | [Hl HR']]).
  - (* the marker begins inside the page *)
    exfalso. pose proof Hat as (Hne & Hds & tl & Hmk).
    rewrite Hsuf in Hmk.
    rewrite app_assoc in Hmk. rewrite (app_assoc (L "[[PAGE:" ++ ds)) in Hmk.
    apply app_eq_app in Hmk. destruct Hmk as (x & [[Hm _] | [Hmark HRx]]).
    + apply (Ht l m ds Hl). split; [exact Hne|]. split; [exact Hds|].
      exists x. now rewrite Hm, <- !app_assoc.
    + destruct x as [|c x].
      * rewrite app_nil_r in Hmark. apply (Ht l m ds Hl).
        split; [exact Hne|]. split; [exact Hds|].
        exists []. now rewrite app_nil_r, <- Hmark, <- !app_assoc.
      * pose proof (marker_no_newline Hds) as Hno.
        rewrite app_assoc, Hmark in Hno.
        apply Forall_app in Hno. destruct Hno as [_ Hno].
        apply Forall_inv in Hno.
        destruct HR as [HR|HR]; rewrite HR in HRx; [discriminate|].
        injection HRx as <- _. congruence.
  - destruct HR as [HR|HR]; rewrite HR in HR'.
    + exfalso. destruct m; [|discriminate]. simpl in HR'. subst suf. discriminate.
    + destruct m as [|c1 [|c2 m]]; simpl in HR'.
      * exfalso. rewrite Hr in HR'. discriminate.
      * exfalso. rewrite Hr in HR'. discriminate.
      * injection HR' as <- <- HD. exists m.
        split; [exact HR | split; [exact Hl | exact HD]].
Qed.

(** In the tagged document of pages without markers, a marker is the tag
    of a page: it stands at the start or after a blank line, and a line
    break follows it. *)
Lemma markers_of_tagged :
  forall pages i0,
    Forall markerFree pages ->
    forall pre suf ds,
      taggedFrom i0 pages = pre ++ suf ->
      markerAt suf ds ->
      (exists i, i0 <= i /\ i < i0 + length pages /\ ds = Str.ofNat (i + 1))
      /\ (pre = [] \/ exists pre', pre = pre' ++ [nl; nl])
      /\ (exists tl, suf = L "[[PAGE:" ++ ds ++ L "]]" ++ nl :: tl).
Proof.
  induction pages as [|t ts IH]; intros i0 Hfree pre suf ds Hdoc Hat.
  { unfold taggedFrom in Hdoc. simpl in Hdoc.
    destruct pre; [|discriminate]. simpl in Hdoc. subst suf.
    destruct (markerAt_head Hat) as (r & Hr). discriminate. }
  inversion Hfree as [|? ? Ht Hts]; subst.
  rewrite taggedFrom_cons in Hdoc.
  set (R := match ts with [] => [] | _ :: _ => [nl; nl] ++ taggedFrom (S i0) ts end) in *.
  assert (R = [] \/ R = nl :: nl :: taggedFrom (S i0) ts) as HR
      by (unfold R; destruct ts; [now left | now right]).
  unfold pageTag in Hdoc. rewrite <- !app_assoc in Hdoc.
  destruct pre as [|c0 pre].
  - (* the tag of this page *)
    simpl in Hdoc. pose proof Hat as (Hne & Hds & tl & Hsuf).
    rewrite Hsuf in Hdoc. simpl in Hdoc.
    injection Hdoc as Hdoc.
    apply (@digit_run_unique _ _ _ _ (ofNat_digits (i0 + 1)) Hds) in Hdoc.
    destruct Hdoc as [Hds' Htl].
    split; [exists i0; repeat split; [lia | simpl; lia | now symmetry]|].
    split; [now left|].
    injection Htl as Htl. rewrite Hsuf, <- Htl. eexists. reflexivity.
  - destruct (markerAt_head Hat) as (r & Hr).
    simpl in Hdoc. injection Hdoc as <- Hdoc.
    destruct pre as [|c1 pre].
    { simpl in Hdoc. rewrite Hr in Hdoc. discriminate. }
    simpl in Hdoc. injection Hdoc as <- Hdoc.
    assert (exists l, pre = (L "PAGE:" ++ Str.ofNat (i0 + 1) ++ L "]]" ++ [nl]) ++ l
                      /\ t ++ R = l ++ suf) as (l & Hpre & Hrest).
    { assert ((L "PAGE:" ++ Str.ofNat (i0 + 1) ++ L "]]" ++ [nl]) ++ (t ++ R) = pre ++ suf)
        as Hdoc' by (rewrite <- Hdoc; simpl; now rewrite <- !app_assoc).
      apply app_eq_app in Hdoc'. destruct Hdoc' as (l & [[Htag Hsuf] | [Hpre Hrest]]).
      - destruct l as [|c l].
        + exists []. rewrite app_nil_r in *. split; [now symmetry | now rewrite Hsuf].
        + exfalso. rewrite Hr in Hsuf. simpl in Hsuf. injection Hsuf as <- _.
          pose proof (tag_tail_no_bracket (i0 + 1)) as Hno.
          rewrite Htag in Hno. apply Forall_app in Hno. destruct Hno as [_ Hno].
          apply Forall_inv in Hno. congruence.
      - exists l. split; assumption. }
    destruct (@marker_after_page t R (taggedFrom (S i0) ts) l suf ds Ht HR Hrest Hat)
      as (m & HR' & Hl & HD).
    destruct (IH (S i0) Hts m suf ds HD Hat) as ((i & Hi1 & Hi2 & Hi3) & Hm & Htl).
    split; [exists i; repeat split; [lia | simpl; lia | exact Hi3]|].
    split; [|exact Htl].
    right. destruct Hm as [->|(pre' & ->)].
    + eexists. rewrite Hpre, Hl.
      change (nl :: nl :: []) with ([nl; nl]).
      rewrite !app_comm_cons, !app_assoc. reflexivity.
    + eexists. rewrite Hpre, Hl.
      change (nl :: nl :: pre' ++ [nl; nl]) with ((nl :: nl :: pre') ++ [nl; nl]).
      rewrite !app_comm_cons, !app_assoc. reflexivity.
Qed.

End TaggedFacts.

(** ** The order of the pages of a section *)

Module PageOrderFacts.

Import Re.
Import ReFacts.
Import Sectioner.
Import Spec.
Import MarkerFacts.
Import SplitFacts.
Import TaggedFacts.

(** The first line of a block that begins with a marker. *)
Lemma marker_block_lines (ds tl : str) :
  Forall (fun c => Chars.is_digit c = true) ds ->
  (tl = [] \/ exists r, tl = nl :: r) ->
  exists rest, linesOf ((L "[[PAGE:" ++ ds ++ L "]]") ++ tl) = (L "[[PAGE:" ++ ds ++ L "]]") :: rest.
Proof.
  intros Hds Htl. unfold linesOf, split.
  destruct ((L "[[PAGE:" ++ ds ++ L "]]") ++ tl) as [|c s] eqn:E; [discriminate E|].
  rewrite <- E.
  destruct (@splitFrom_newline_head tl Htl (L "[[PAGE:" ++ ds ++ L "]]") [] 0 None
                                    (marker_no_newline Hds)) as (pieces & ->).
  cbn [rev app filter]. rewrite trim_marker.
  eexists. reflexivity.
Qed.

(** With pages that hold no marker, every block is tamed. *)
Lemma blocks_tamed (rawPages : list str) :
  Forall markerFree rawPages ->
  Forall (blockTamed (length rawPages)) (blocksOf rawPages).
Proof.
  intros Hfree. apply Forall_forall. intros b Hb.
  unfold blocksOf in Hb. apply filter_In in Hb. destruct Hb as [Hb _].
  apply in_map_iff in Hb. destruct Hb as (q & <- & Hq).
  change (Str.join [nl; nl] (mapi (fun i t => pageTag (i + 1) ++ t) 0 rawPages))
    with (taggedFrom 0 rawPages) in Hq.
  pose proof (proj1 (Forall_forall _ _) (split_blocks (taggedFrom 0 rawPages)) q Hq)
    as (pre & post & Hall & Hfirst & Hnb).
  intros k Hk.
  apply firstPageOf_some in Hk. destruct Hk as (b1 & u & ds & Hb & Hat & ->).
  destruct (trim_infix q) as (w1 & w2 & Hq').
  assert (taggedFrom 0 rawPages = (pre ++ w1 ++ b1) ++ (u ++ w2 ++ post)) as Hall'.
  { rewrite Hall, Hq', Hb, <- !app_assoc. reflexivity. }
  destruct (@markers_of_tagged rawPages 0 Hfree _ _ ds Hall'
              (markerAt_app (w2 ++ post) Hat))
    as ((i & _ & Hi & Hds) & Hpre & (tl & Htl)).
  (* the marker stands at the head of the block *)
  assert (w1 ++ b1 = []) as Hhead.
  { destruct Hpre as [Hnil | (pre' & Hpre')].
    - apply app_eq_nil in Hnil. tauto.
    - destruct (w1 ++ b1) as [|z0 z] eqn:Ez; [reflexivity|]. exfalso.
      destruct (exists_last (l := z0 :: z)) as (z' & a & Hz); [discriminate|].
      rewrite Hz in *.
      change [nl; nl] with ([nl] ++ [nl]) in Hpre'.
      rewrite !app_assoc in Hpre'. apply app_inj_tail in Hpre'.
      destruct Hpre' as [Hpre' ->].
      assert (q = (z' ++ [nl]) ++ u ++ w2) as Hqz.
      { rewrite Hq', Hb, <- Ez, <- !app_assoc. reflexivity. }
      destruct z' as [|y0 y] eqn:Ey.
      + rewrite app_nil_r in Hpre'.
        assert (pre <> []) as Hne by (rewrite Hpre'; now destruct pre').
        apply (Hfirst Hne (u ++ w2)). exact Hqz.
      + destruct (exists_last (l := y0 :: y)) as (z'' & a' & Hz'); [discriminate|].
        rewrite Hz' in *. rewrite app_assoc in Hpre'. apply app_inj_tail in Hpre'.
        destruct Hpre' as [_ ->].
        apply (Hnb z'' (u ++ w2)). rewrite Hqz, <- !app_assoc. reflexivity. }
  apply app_eq_nil in Hhead. destruct Hhead as [-> ->].
  simpl in Hb. subst u.
  pose proof Hat as (Hne & Hdig & tlb & Hmk).
  assert (tlb = [] \/ exists r, tlb = nl :: r) as Htlb.
  { rewrite Hmk in Htl. rewrite <- !app_assoc in Htl.
    apply app_inv_head in Htl. apply app_inv_head in Htl. apply app_inv_head in Htl.
    destruct tlb as [|c tlb]; [now left|]. right.
    simpl in Htl. injection Htl as -> _. now exists tlb. }
  split.
  - rewrite Hds, parseInt_ofNat. lia.
  - rewrite Hmk. rewrite !app_assoc. rewrite <- (app_assoc (L "[[PAGE:")).
    destruct (@marker_block_lines ds tlb Hdig Htlb) as (rest & ->).
    exists (L "[[PAGE:" ++ ds ++ L "]]"), rest. split; [reflexivity|].
    rewrite trim_marker. now apply isLikelyHeader_marker.
Qed.

Section WithSource.
Variable uuid : nat -> str.
Variable src : str.
Variable n : nat.

Lemma flush_none_tame (st : loopState) : tame n st -> tame n (flush uuid src None st).
Proof.
  intros [Hsec Hcur]. unfold flush.
  destruct (current st) as [cur|] eqn:Ec;
    [|split; [assumption | intros cur a Hc; rewrite Ec in Hc; discriminate]].
  split; [|discriminate]. cbn [sections].
  destruct (50 <? length (cleanTextContent (Str.join [nl; nl] (curText cur)))); [|exact Hsec].
  apply Forall_app. split; [exact Hsec|].
  constructor; [|constructor]. intros a b _ Hb. discriminate.
Qed.

Lemma flush_last_ordered (st : loopState) :
  tame n st -> Forall pagesOrdered (sections (flush uuid src (Some n) st)).
Proof.
  intros [Hsec Hcur]. unfold flush.
  destruct (current st) as [cur|] eqn:Ec; [|exact Hsec]. cbn [sections].
  destruct (50 <? length (cleanTextContent (Str.join [nl; nl] (curText cur)))); [|exact Hsec].
  apply Forall_app. split; [exact Hsec|].
  constructor; [|constructor]. intros a b Ha Hb.
  unfold newSection in Ha, Hb. cbn [startPage endPage] in Ha, Hb.
  injection Hb as <-. now apply (Hcur cur a eq_refl).
Qed.

Lemma processBlock_tame (st : loopState) (b : str) :
  1 <= n -> blockTamed n b -> tame n st -> tame n (processBlock uuid src st b).
Proof.
  intros Hn Hb Hst.
  assert (forall p, 1 <= p <= n ->
            tame n
              (let st' :=
                 match current st with
                 | Some _ => st
                 | None =>
                     mkLoop (sections st)
                            (Some (mkOpen (L "Section " ++ Str.ofNat (autoIndex st)) (Some p) []))
                            (S (autoIndex st))
                 end in
               match current st' with
               | Some cur =>
                   mkLoop (sections st')
                          (Some (mkOpen (curTitle cur) (curStartPage cur) (curText cur ++ [b])))
                          (autoIndex st')
               | None => st'
               end)) as Happend.
  { intros p Hp. destruct Hst as [Hsec Hcur]. cbv zeta.
    destruct (current st) as [cur|] eqn:Ec.
    - rewrite Ec. split; [exact Hsec|]. cbn [current].
      intros cur' a Hc Ha. injection Hc as <-. cbn [curStartPage] in Ha.
      now apply (Hcur cur a).
    - cbn [current sections autoIndex curTitle curStartPage curText].
      split; [exact Hsec|]. cbn [current].
      intros cur' a Hc Ha. injection Hc as <-. cbn [curStartPage] in Ha.
      injection Ha as <-. exact Hp. }
  unfold processBlock. fold (linesOf b). cbv zeta.
  destruct (firstPageOf b) as [k|] eqn:Ek.
  - destruct (Hb k Ek) as (Hk & line0 & rest & -> & Hnh).
    rewrite Hnh. now apply Happend.
  - destruct (linesOf b) as [|line0 rest]; [exact Hst|].
    destruct (isHeader (isLikelyHeader (Str.trim line0)));
      [destruct (headerTitle (isLikelyHeader (Str.trim line0))) as [[|c ttl]|]|];
      try (apply Happend; lia).
    unfold pageBefore. rewrite Ek.
    destruct (flush_none_tame Hst) as [Hsec _].
    split; [exact Hsec|]. cbn [current].
    intros cur a Hc Ha. injection Hc as <-. discriminate.
Qed.

Lemma fold_processBlock_tame (blocks : list str) :
  1 <= n -> Forall (blockTamed n) blocks ->
  forall st, tame n st -> tame n (fold_left (processBlock uuid src) blocks st).
Proof.
  intros Hn Hblocks. induction Hblocks as [|b blocks Hb _ IH]; intros st Hst; simpl.
  - exact Hst.
  - apply IH. now apply processBlock_tame.
Qed.
End WithSource.

Lemma detected_ordered (uuid : nat -> str) (src : str) (rawPages : list str) :
  Forall markerFree rawPages -> Forall pagesOrdered (detected uuid src rawPages).
Proof.
  intros Hfree. unfold detected.
  destruct rawPages as [|t ts] eqn:E; [constructor|]. rewrite <- E in *.
  apply flush_last_ordered. apply fold_processBlock_tame.
  - rewrite E. simpl. lia.
  - now apply blocks_tamed.
  - split; [constructor | discriminate].
Qed.

Lemma windows_ordered (uuid : nat -> str) (src : str) (rawPages : list str) :
  Forall pagesOrdered (windows uuid src (length rawPages) rawPages 0 []).
Proof.
  destruct (WindowFacts.windows_from_start uuid src rawPages) as (Hlen & Hwin & _).
  apply Forall_forall. intros s Hs. apply In_nth_error in Hs. destruct Hs as (k & Hk).
  assert (k < length (windows uuid src (length rawPages) rawPages 0 [])) as Hlt
      by (apply nth_error_Some; congruence).
  destruct (Hwin k s Hk) as (_ & Hstart & Hend & _).
  intros a b Ha Hb. rewrite Hstart in Ha. rewrite Hend in Hb.
  injection Ha as <-. injection Hb as <-.
  rewrite Hlen in Hlt.
  pose proof (Nat.div_mod_eq (length rawPages + 7) 8) as Hd.
  pose proof (Nat.mod_upper_bound (length rawPages + 7) 8) as Hm.
  lia.
Qed.

(** C2, as the code has it. When no page text holds a page marker of its
    own, every section that [splitChapters] returns with both a start and
    an end page has its start page at or before its end page. *)
Theorem splitChapters_pages_ordered :
  forall (uuid : nat -> str) (src : str) (rawPages : list str),
    Forall (fun t => firstPageOf t = None) rawPages ->
    Forall pagesOrdered (splitChapters uuid src rawPages).
Proof.
  intros uuid src rawPages Hnone.
  assert (Forall markerFree rawPages) as Hfree.
  { eapply Forall_impl; [|exact Hnone]. apply firstPageOf_none. }
  unfold splitChapters.
  pose proof (detected_ordered uuid src Hfree) as Hdet.
  destruct (detected uuid src rawPages) as [|s found]; [apply windows_ordered | exact Hdet].
Qed.

Lemma splitChapters_pages_ordered_witness :
  Forall pagesOrdered (splitChapters Samples.uuid (L "doc") Samples.originsPages).
Proof.
  apply splitChapters_pages_ordered.
  repeat constructor; vm_compute; reflexivity.
Defined.

(** C2, as stated, fails: a page whose text holds the marker of page 9
    under a heading yields a section that starts on page 9 and ends on
    page 1. *)
Lemma splitChapters_marker_in_page :
  map (fun s => (title s, startPage s, endPage s))
      (splitChapters Samples.uuid (L "doc") Samples.markerPages)
  = [ (L "Introduction", Some 9, Some 1) ]
  /\ ~ Forall pagesOrdered (splitChapters Samples.uuid (L "doc") Samples.markerPages).
Proof.
  assert (map (fun s => (title s, startPage s, endPage s))
              (splitChapters Samples.uuid (L "doc") Samples.markerPages)
          = [ (L "Introduction", Some 9, Some 1) ]) as H by (vm_compute; reflexivity).
  split; [exact H|].
  intros Hall.
  destruct (splitChapters Samples.uuid (L "doc") Samples.markerPages) as [|s r];
    [discriminate|].
  simpl in H. injection H as _ Hs He _.
  apply Forall_inv in Hall. specialize (Hall 9 1 Hs He). lia.
Qed.

End PageOrderFacts.

(** ** The composer without an AI responder *)

Module ComposerFacts.

Import Chat.
Import Search.
Import Spec.
Import MapFacts.
Import SearchFacts.
Import RankingFacts.
Import ChatFacts.
Import Ieee.

Lemma weigh_get_none (log : float -> float) (df : JsMap.t nat) (N : nat) (toks : list str)
      (k : str) :
  ~ In k toks -> JsMap.get (weigh log df N (termCounts toks)) k = None.
Proof.
  intros Hk. unfold weigh.
  rewrite (get_fold_set (fun e => (Num.ofNat (snd e) * idf log df N (fst e))%float)
                        (termCounts_wellFormed toks)).
  unfold termCounts. rewrite get_fold_bump.
  apply (count_occ_not_In (list_eq_dec ascii_dec)) in Hk. now rewrite Hk.
Qed.

Lemma weigh_keys (log : float -> float) (df : JsMap.t nat) (N : nat) (toks : list str)
      (k : str) (w : float) :
  In (k, w) (weigh log df N (termCounts toks)) -> In k toks.
Proof.
  intros Hin.
  destruct (in_dec (list_eq_dec ascii_dec) k toks) as [Hk|Hk]; [exact Hk|]. exfalso.
  pose proof (@weigh_get_none log df N toks k Hk) as Hnone.
  apply get_none in Hnone. apply Hnone.
  change k with (fst (k, w)). now apply in_map.
Qed.

(** The dot product with a map that has none of the keys is a zero or NaN:
    each term is a product with [0]. *)
Lemma dotWith_disjoint (a b : JsMap.t float) :
  Forall (fun kv => JsMap.get b (fst kv) = None) a -> nullish (Prim2SF (dotWith a b)).
Proof.
  unfold dotWith.
  assert (nullish (Prim2SF 0%float)) as H0 by exact I.
  revert H0. generalize 0%float.
  intros acc Hacc H. revert acc Hacc.
  induction H as [|kv a Hkv _ IH]; intros acc Hacc; cbn [fold_left]; [exact Hacc|].
  apply IH. rewrite Hkv. cbn [Num.orZero].
  apply FloatFacts.add_nullish_prim; [exact Hacc | apply FloatFacts.mul_zero_nullish_prim].
Qed.

(** Without a common token every score is a zero or NaN, and no paragraph
    passes the relevance floor. *)
Lemma score_no_overlap (log : float -> float) (question : str) (paras : list str) (i : nat) :
  noTermOverlap question paras ->
  let c := tfidfParagraphs log paras in
  nullish (Prim2SF (cosine (vectorizeQuery log question (vocabulary c) (length paras))
                           (nth i (vectors c) []))).
Proof.
  intros Hno c. unfold cosine. apply FloatFacts.div_nullish_prim, dotWith_disjoint.
  apply Forall_forall. intros [k w] Hkw. cbn [fst].
  apply weigh_keys in Hkw.
  generalize (nth_in_or_default i (vectors c) []). intros [Hv|Hv].
  - unfold c, tfidfParagraphs in Hv |- *. cbn [vectors] in Hv |- *.
    apply in_map_iff in Hv. destruct Hv as (d & Hd' & Hd).
    apply in_map_iff in Hd. destruct Hd as (p & <- & Hp).
    rewrite <- Hd'. apply weigh_get_none. now apply (Hno k p).
  - rewrite Hv. reflexivity.
Qed.

Lemma relevantParagraphs_no_overlap (log : float -> float) (question : str)
      (paras : list str) :
  noTermOverlap question paras -> relevantParagraphs log question paras = [].
Proof.
  intros Hno. rewrite relevantParagraphs_by_position.
  replace (filter _ (map fst (scored log question paras))) with (@nil nat); [reflexivity|].
  symmetry. induction (map fst (scored log question paras)) as [|i l IH]; [reflexivity|].
  cbn [filter]. rewrite (FloatFacts.below_floor _ (score_no_overlap log i Hno)). exact IH.
Qed.

(** C5, as the code has it. Without an AI responder [demoAnswer] is a total
    function whose answer is never empty. A blank context yields the
    guidance message. For a question that is no request for an explanation,
    a context without a paragraph of more than 50 characters yields the
    insufficient-content message, and a context none of whose best
    paragraphs passes the relevance floor, as when no token of the
    question occurs in it, yields the generic guidance. A request for an
    explanation is answered by the keyword path whatever the paragraphs
    are: a response built from the paragraphs that mention a key term, or
    one of the three educational guidance messages. *)
Theorem demoAnswer_deterministic_path :
  forall (log : float -> float) (question context : str)
         (sections : list Section_) (activeId : option str),
    let a := demoAnswer log None question context sections activeId in
    let clean := cleanContent context in
    let source := getSourceInfo sections activeId in
    let keyTerms := extractKeyTerms question in
    a <> []
    /\ (Str.trim context = [] -> a = noContent)
    /\ (Str.trim context <> [] -> isEducationalExplanationRequest question = false ->
        paragraphsOver 50 clean = [] -> a = notEnoughContent)
    /\ (Str.trim context <> [] -> isEducationalExplanationRequest question = false ->
        paragraphsOver 50 clean <> [] ->
        relevantParagraphs log question (paragraphsOver 50 clean) = []
        \/ noTermOverlap question (paragraphsOver 50 clean) ->
        a = genericGuidance source)
    /\ (Str.trim context <> [] -> isEducationalExplanationRequest question = true ->
        (findRelevantContentByTerms clean keyTerms <> []
         /\ a = generateEducationalResponse question
                                            (findRelevantContentByTerms clean keyTerms) keyTerms)
        \/ (findRelevantContentByTerms clean keyTerms = []
            /\ (a = simplerGuidance source \/ a = definitionGuidance source
                \/ a = explanationGuidance source))).
Proof.
  intros log question context sections activeId a clean source keyTerms.
  assert (Str.trim context <> [] ->
          a = generateRuleBasedAnswer log question clean sections activeId) as Hrules.
  { intros Hctx. unfold a, demoAnswer.
    destruct (Str.is_empty context || (length (Str.trim context) =? 0)%nat) eqn:E;
      [apply context_blank in E; contradiction | reflexivity]. }
  split; [apply demoAnswer_nonempty|].
  split; [|split; [|split]].
  - intros Hctx. apply context_blank in Hctx. unfold a, demoAnswer. now rewrite Hctx.
  - intros Hctx Hedu Hparas. rewrite (Hrules Hctx).
    unfold generateRuleBasedAnswer. now rewrite Hedu, Hparas.
  - intros Hctx Hedu Hparas Hrel. rewrite (Hrules Hctx).
    assert (relevantParagraphs log question (paragraphsOver 50 clean) = []) as Hnone
        by (destruct Hrel as [H|H]; [exact H | now apply relevantParagraphs_no_overlap]).
    unfold generateRuleBasedAnswer. rewrite Hedu.
    destruct (paragraphsOver 50 clean) as [|p ps] eqn:Ep; [congruence|].
    rewrite Hnone. unfold generateEnhancedFallback. now rewrite Hedu.
  - intros Hctx Hedu. rewrite (Hrules Hctx).
    unfold generateRuleBasedAnswer. rewrite Hedu.
    apply handleEducationalExplanation_cases.
Qed.

Lemma demoAnswer_deterministic_path_witness :
  demoAnswer Samples.logAtOne None Samples.zebraQuestion Samples.gravityContext [] None
  = genericGuidance (getSourceInfo [] None).
Proof.
  pose proof (demoAnswer_deterministic_path Samples.logAtOne Samples.zebraQuestion
                                            Samples.gravityContext [] None) as H.
  cbv zeta in H. destruct H as (_ & _ & _ & H & _).
  refine (H _ _ _ _).
  - vm_compute. discriminate.
  - vm_compute. reflexivity.
  - vm_compute. discriminate.
  - right. intros t p Ht Hp.
    vm_compute in Ht. destruct Ht as [<-|[]].
    vm_compute in Hp. destruct Hp as [<-|[]].
    intros Hin. apply MapFacts.has_In in Hin. vm_compute in Hin. discriminate.
Defined.

(** C5, as stated, fails: a request for an explanation over a context
    without a paragraph of more than 50 characters is not answered by the
    insufficient-content message but from the context itself. *)
Lemma demoAnswer_short_context_explanation_request :
  Str.trim Samples.briefContext <> []
  /\ paragraphsOver 50 (cleanContent Samples.briefContext) = []
  /\ demoAnswer Samples.logAtOne None Samples.explainQuestion Samples.briefContext [] None
     = L "Based on the content, here's an explanation:" ++ [nl; nl]
       ++ L "Gravity pulls objects toward the Earth" ++ [nl; nl]
       ++ L "Key concepts mentioned: gravity" ++ [nl; nl]
       ++ L "Would you like me to elaborate on any specific aspect?"
  /\ demoAnswer Samples.logAtOne None Samples.explainQuestion Samples.briefContext [] None
     <> notEnoughContent.
Proof.
  split; [|split; [|split]].
  - vm_compute. discriminate.
  - vm_compute. reflexivity.
  - vm_compute. reflexivity.
  - vm_compute. discriminate.
Qed.

End ComposerFacts.

(** ** Trimming *)

Module TrimFacts.

Import Notions.

Lemma dropWhile_app (p : ascii -> bool) (c : ascii) (t : str) :
  p c = false ->
  forall l, Str.dropWhile p (l ++ c :: t) = Str.dropWhile p l ++ c :: t.
Proof.
  intros Hc. induction l as [|a l IH]; simpl.
  - now rewrite Hc.
  - destruct (p a); [exact IH | reflexivity].
Qed.

Lemma dropWhile_head (p : ascii -> bool) (s : str) (c : ascii) (r : str) :
  Str.dropWhile p s = c :: r -> p c = false.
Proof.
  induction s as [|a s IH]; simpl; [discriminate|].
  destruct (p a) eqn:E; [exact IH|]. intros H. injection H as <- _. exact E.
Qed.

Lemma dropWhile_Forall (P : ascii -> Prop) (p : ascii -> bool) (s : str) :
  Forall P s -> Forall P (Str.dropWhile p s).
Proof.
  induction 1 as [|a s Ha Hs IH]; simpl; [constructor|].
  destruct (p a); [exact IH | now constructor].
Qed.

Lemma dropWhile_length (p : ascii -> bool) (s : str) :
  length (Str.dropWhile p s) <= length s.
Proof. induction s as [|a s IH]; simpl; [lia|]. destruct (p a); simpl; lia. Qed.

Lemma dropWhile_id (p : ascii -> bool) (s : str) :
  (forall c r, s = c :: r -> p c = false) -> Str.dropWhile p s = s.
Proof. destruct s as [|c r]; intros H; simpl; [reflexivity|]. now rewrite (H c r eq_refl). Qed.

Lemma trim_Forall (P : ascii -> Prop) (s : str) : Forall P s -> Forall P (Str.trim s).
Proof.
  intros H. unfold Str.trim, Str.trimEnd, Str.trimStart.
  apply Forall_rev, dropWhile_Forall, Forall_rev, dropWhile_Forall, H.
Qed.

Lemma trim_length (s : str) : length (Str.trim s) <= length s.
Proof.
  unfold Str.trim, Str.trimEnd, Str.trimStart.
  rewrite length_rev.
  etransitivity; [apply dropWhile_length|]. rewrite length_rev. apply dropWhile_length.
Qed.

Lemma trim_trimmed (s : str) : trimmed (Str.trim s).
Proof.
  unfold trimmed, Str.trim, Str.trimEnd, Str.trimStart.
  destruct (Str.dropWhile Chars.is_space s) as [|a t] eqn:Es.
  - split; [intros c r H | intros r c H]; simpl in H;
      [discriminate | now destruct r].
  - apply dropWhile_head in Es.
    assert (rev (Str.dropWhile Chars.is_space (rev (a :: t)))
            = a :: rev (Str.dropWhile Chars.is_space (rev t))) as Ht.
    { simpl rev at 2. rewrite (@dropWhile_app Chars.is_space a [] Es (rev t)).
      rewrite rev_app_distr. reflexivity. }
    rewrite Ht. split.
    + intros c r H. injection H as <- _. exact Es.
    + intros r c H.
      destruct (Str.dropWhile Chars.is_space (rev t)) as [|b u] eqn:Eu.
      * simpl in H. destruct r as [|x r]; simpl in H.
        -- injection H as <-. exact Es.
        -- injection H as _ H. now destruct r.
      * apply dropWhile_head in Eu.
        simpl rev in H. rewrite app_comm_cons in H.
        apply app_inj_tail in H. destruct H as [_ <-]. exact Eu.
Qed.

Lemma trimmed_trim (s : str) : trimmed s -> Str.trim s = s.
Proof.
  intros [Hl Hr]. unfold Str.trim, Str.trimEnd, Str.trimStart.
  rewrite (dropWhile_id _ Hl).
  rewrite dropWhile_id; [apply rev_involutive|].
  intros c r H. apply (Hr (rev r) c).
  rewrite <- (rev_involutive s), H. reflexivity.
Qed.

Lemma trim_idem (s : str) : Str.trim (Str.trim s) = Str.trim s.
Proof. apply trimmed_trim, trim_trimmed. Qed.

End TrimFacts.

(** ** The matcher on runs of one class, and what it keeps of the input *)

Module ClassFacts.

Import Re Notions.

Lemma In_firstn (A : Type) (x : A) :
  forall n l, In x (firstn n l) -> In x l.
Proof.
  induction n as [|n IH]; intros [|a l]; simpl; try tauto.
  intros [->|H]; [now left | right; now apply IH].
Qed.

Lemma takeWhile_dropWhile (p : ascii -> bool) (s : str) :
  takeWhile p s ++ Str.dropWhile p s = s.
Proof. induction s as [|c s IH]; simpl; [reflexivity|]. destruct (p c); simpl; congruence. Qed.

Lemma takeWhile_Forall (p : ascii -> bool) (s : str) :
  Forall (fun c => p c = true) (takeWhile p s).
Proof.
  induction s as [|c s IH]; simpl; [constructor|].
  destruct (p c) eqn:E; now constructor.
Qed.

(** A greedy run of a class takes the whole run, or fails when the run is
    shorter than the least number asked for. *)
Lemma greedy_run (p : ascii -> bool) :
  forall s mn st,
    greedy p mn Some st s
    = if mn <=? length (takeWhile p s)
      then Some (advance (takeWhile p s) (Str.dropWhile p s) st)
      else None.
Proof.
  induction s as [|c s IH]; intros mn st; cbn [greedy takeWhile Str.dropWhile].
  - destruct mn; reflexivity.
  - destruct (p c) eqn:Ep.
    + rewrite IH. cbn [length advance]. rewrite takeWhile_dropWhile.
      destruct mn as [|mn]; cbn [pred Nat.eqb Nat.leb].
      * reflexivity.
      * destruct (mn <=? length (takeWhile p s)); reflexivity.
    + destruct mn; reflexivity.
Qed.

Lemma matchAt_run (p : ascii -> bool) (mn q : nat) (pv : option ascii) (s : str) :
  matchAt (Rep (Chr p) mn None) (start q pv s)
  = if mn <=? length (takeWhile p s)
    then Some (advance (takeWhile p s) (Str.dropWhile p s) (start q pv s))
    else None.
Proof. unfold matchAt. rewrite ReFacts.run_rep_chr. apply greedy_run. Qed.

(** [p+] at a position: it matches exactly when the code unit there is in
    the class, and then it takes at least that one. *)
Lemma matchAt_plus (p : ascii -> bool) (q : nat) (pv : option ascii) (c : ascii) (s : str) :
  match matchAt (plus (Chr p)) (start q pv (c :: s)) with
  | Some e => p c = true /\ exists n, pos e - q = S n
  | None => p c = false
  end.
Proof.
  unfold plus. rewrite matchAt_run. cbn [takeWhile].
  destruct (p c) eqn:Ep; cbn [length Nat.leb].
  - split; [reflexivity|]. rewrite ReFacts.pos_advance. cbn [start pos length].
    exists (length (takeWhile p s)). lia.
  - reflexivity.
Qed.

(** The pieces of a split at runs of a class hold no code unit of the class,
    and nothing the input did not hold. *)
Lemma splitFrom_pieces (p : ascii -> bool) (P : ascii -> Prop) :
  forall s skip acc q pv,
    Forall P s ->
    Forall (fun c => P c /\ p c = false) acc ->
    Forall (Forall (fun c => P c /\ p c = false))
           (splitFrom (plus (Chr p)) skip acc q pv s).
Proof.
  induction s as [|c s IH]; intros skip acc q pv Hs Hacc; cbn [splitFrom].
  - constructor; [now apply Forall_rev | constructor].
  - inversion Hs as [|? ? Hc Hs']; subst.
    destruct skip as [|n]; [|apply IH; [exact Hs' | constructor]].
    pose proof (matchAt_plus p q pv c s) as Hm.
    destruct (matchAt (plus (Chr p)) (start q pv (c :: s))) as [e|].
    + destruct Hm as (_ & n & ->).
      constructor; [now apply Forall_rev | apply IH; [exact Hs' | constructor]].
    + apply IH; [exact Hs' | now constructor].
Qed.

Lemma split_pieces (p : ascii -> bool) (P : ascii -> Prop) (s : str) :
  Forall P s ->
  Forall (Forall (fun c => P c /\ p c = false)) (split (plus (Chr p)) s).
Proof.
  intros Hs. unfold split. destruct s as [|c s].
  - destruct (matchAt (plus (Chr p)) (start 0 None [])); repeat constructor.
  - apply splitFrom_pieces; [exact Hs | constructor].
Qed.

(** Replacing each code unit of a class by one string. *)
Lemma replaceFrom_chr (p : ascii -> bool) (x : str) :
  forall s q pv,
    replaceFrom (Chr p) (fun _ => x) 0 q pv s
    = flat_map (fun c => if p c then x else [c]) s.
Proof.
  induction s as [|c s IH]; intros q pv; cbn [replaceFrom flat_map].
  - reflexivity.
  - unfold matchAt. cbn [run start rest]. destruct (p c) eqn:Ep.
    + cbn [step pos start]. replace (S q - q) with 1 by lia.
      now rewrite IH.
    + now rewrite IH.
Qed.

Lemma replaceAll_chr (p : ascii -> bool) (x : str) (s : str) :
  replaceAll (Chr p) (fun _ => x) s = flat_map (fun c => if p c then x else [c]) s.
Proof. apply replaceFrom_chr. Qed.

Section Kept.
Variable P : ascii -> Prop.

Lemma rep_within (m : cont -> cont) (e : state) :
  (forall k st, within P st -> m k st = Some e ->
                (forall st', within P st' -> k st' = Some e -> within P e) -> within P e) ->
  forall fuel mn mx k st,
    within P st -> rep fuel m mn mx k st = Some e ->
    (forall st', within P st' -> k st' = Some e -> within P e) -> within P e.
Proof.
  intros Hm. induction fuel as [|fuel IH]; intros mn mx k st Hst H Hk; cbn [rep] in H;
    [discriminate|].
  set (d := fun st' : state =>
              if (mn =? 0) && (pos st' =? pos st) then None
              else rep fuel m (pred mn) (option_map pred mx) k st') in *.
  assert (forall st', within P st' -> d st' = Some e -> within P e) as Hd.
  { intros st' Hst' H'. unfold d in H'.
    destruct ((mn =? 0) && (pos st' =? pos st)); [discriminate|].
    exact (IH _ _ _ _ Hst' H' Hk). }
  assert (match m d st with Some e0 => Some e0 | None => k st end = Some e -> within P e) as Hopt.
  { intros H'. destruct (m d st) as [e0|] eqn:Em.
    - injection H' as ->. exact (Hm _ _ Hst Em Hd).
    - exact (Hk _ Hst H'). }
  destruct mx as [[|mx]|].
  - exact (Hk _ Hst H).
  - destruct (mn =? 0); [now apply Hopt | exact (Hm _ _ Hst H Hd)].
  - destruct (mn =? 0); [now apply Hopt | exact (Hm _ _ Hst H Hd)].
Qed.

Lemma run_within (e : state) :
  forall r k st,
    within P st -> run r k st = Some e ->
    (forall st', within P st' -> k st' = Some e -> within P e) -> within P e.
Proof.
  induction r as [|p|a IHa b IHb|a IHa b IHb|a IHa mn mx|i a IHa| | |p];
    intros k st Hst H Hk; cbn [run] in H.
  - exact (Hk _ Hst H).
  - destruct (rest st) as [|c s] eqn:Es; [discriminate|].
    destruct (p c); [|discriminate].
    apply (Hk (step c s st)); [|exact H].
    split; cbn [step rest caps]; [|apply Hst].
    destruct Hst as [Hr _]. rewrite Es in Hr. now inversion Hr.
  - apply (IHa _ _ Hst H). intros st' Hst' H'. exact (IHb _ _ Hst' H' Hk).
  - destruct (run a k st) as [e0|] eqn:Ea.
    + injection H as ->. exact (IHa _ _ Hst Ea Hk).
    + exact (IHb _ _ Hst H Hk).
  - refine (@rep_within (run a) e IHa _ _ _ _ _ Hst H Hk).
  - apply (IHa _ _ Hst H). intros st' Hst' H'.
    apply (Hk (capture i (firstn (pos st' - pos st) (rest st)) st')); [|exact H'].
    split; cbn [capture rest caps]; [apply Hst'|].
    constructor; [|apply Hst']. cbn [snd].
    destruct Hst as [Hr _]. rewrite Forall_forall in *.
    intros x Hx. apply Hr. eapply In_firstn, Hx.
  - destruct (pos st =? 0); [exact (Hk _ Hst H) | discriminate].
  - destruct (rest st); [exact (Hk _ Hst H) | discriminate].
  - destruct (prev st) as [c|]; [|discriminate].
    destruct (p c); [exact (Hk _ Hst H) | discriminate].
Qed.

Lemma matchAt_within (r : regex) (q : nat) (pv : option ascii) (s : str) (e : state) :
  Forall P s -> matchAt r (start q pv s) = Some e -> within P e.
Proof.
  intros Hs H. apply (@run_within e r Some (start q pv s)).
  - split; [exact Hs | constructor].
  - exact H.
  - intros st' Hst' H'. now injection H' as <-.
Qed.

Lemma sub_within (i : nat) (e : state) : within P e -> Forall P (sub i e).
Proof.
  intros [_ Hc]. unfold sub, cap.
  destruct (find (fun kv => fst kv =? i) (caps e)) as [kv|] eqn:Ef; [|constructor].
  apply find_some in Ef. destruct Ef as [Hin _].
  rewrite Forall_forall in Hc. exact (Hc _ Hin).
Qed.

(** A replacement writes only what the input held and what the replacer
    gives. *)
Lemma replaceFrom_Forall (r : regex) (f : state -> str) :
  (forall e, within P e -> Forall P (f e)) ->
  forall s skip q pv, Forall P s -> Forall P (replaceFrom r f skip q pv s).
Proof.
  intros Hf. induction s as [|c s IH]; intros skip q pv Hs.
  - destruct skip; cbn [replaceFrom]; [|constructor].
    destruct (matchAt r (start q pv [])) as [e|] eqn:Em; [|constructor].
    rewrite app_nil_r. apply Hf. exact (matchAt_within _ _ _ Hs Em).
  - inversion Hs as [|? ? Hc Hs']; subst.
    destruct skip as [|n]; cbn [replaceFrom]; [|now apply IH].
    destruct (matchAt r (start q pv (c :: s))) as [e|] eqn:Em.
    + apply Forall_app. split; [apply Hf; exact (matchAt_within _ _ _ Hs Em)|].
      destruct (pos e - q); [constructor; [exact Hc|] |]; now apply IH.
    + constructor; [exact Hc | now apply IH].
Qed.

Lemma replaceAll_Forall (r : regex) (f : state -> str) (s : str) :
  (forall e, within P e -> Forall P (f e)) ->
  Forall P s -> Forall P (replaceAll r f s).
Proof. intros Hf Hs. now apply replaceFrom_Forall. Qed.

End Kept.

End ClassFacts.

(** ** The alphabet of tokens and key terms *)

Module TokenFacts.

Import Re Notions.

Lemma lower_not_upper (c : ascii) : Chars.is_upper (Chars.lower c) = false.
Proof. destruct c as [[] [] [] [] [] [] [] []]; reflexivity. Qed.

Lemma lower_idem (c : ascii) : Chars.lower (Chars.lower c) = Chars.lower c.
Proof. destruct c as [[] [] [] [] [] [] [] []]; reflexivity. Qed.

Lemma toLowerCase_idem (s : str) :
  Str.toLowerCase (Str.toLowerCase s) = Str.toLowerCase s.
Proof.
  unfold Str.toLowerCase. rewrite map_map. apply map_ext, lower_idem.
Qed.

Lemma space_is_space : Chars.is_space " "%char = true.
Proof. reflexivity. Qed.

(** After the replacement of [tokenize], a code unit is a token character
    or white space. *)
Lemma tokenize_cleaned (text : str) :
  Forall (fun c => tokenChar c = true \/ Chars.is_space c = true)
         (replaceAll Search.notTokenChar (fun _ => L " ") text).
Proof.
  unfold Search.notTokenChar. rewrite ClassFacts.replaceAll_chr.
  rewrite Forall_forall. intros c Hc. apply in_flat_map in Hc.
  destruct Hc as (a & _ & Ha). unfold Chars.non, Chars.or in Ha.
  destruct (Chars.is_lower a || (Chars.is_digit a || Chars.is_space a)) eqn:E;
    cbn [negb] in Ha.
  - destruct Ha as [<-|[]]. unfold tokenChar.
    destruct (Chars.is_lower a), (Chars.is_digit a); simpl in *; auto.
  - destruct Ha as [<-|[]]. now right.
Qed.

(** X1. Every token is a non-empty run of [a-z0-9]. *)
Theorem tokenize_alphabet :
  forall (text t : str),
    In t (Search.tokenize text) ->
    t <> [] /\ Forall (fun c => tokenChar c = true) t.
Proof.
  intros text t Hin. unfold Search.tokenize in Hin.
  apply filter_In in Hin. destruct Hin as [Hin Ht]. split.
  - now apply StrFacts.truthy_nonempty.
  - pose proof (ClassFacts.split_pieces Chars.is_space
                  (tokenize_cleaned (Str.toLowerCase text))) as Hp.
    rewrite Forall_forall in Hp. specialize (Hp _ Hin).
    eapply Forall_impl; [|exact Hp]. cbv beta.
    intros c [[Hc|Hc] Hs]; [exact Hc | congruence].
Qed.

Lemma tokenize_alphabet_witness :
  L "hello" <> [] /\ Forall (fun c => tokenChar c = true) (L "hello").
Proof. apply (tokenize_alphabet (L "Hello, World!")). vm_compute. now left. Defined.

Lemma keyTerms_cleaned (question : str) :
  Forall (fun c => termChar c = true \/ Chars.is_space c = true)
         (replaceAll Chat.notWordOrSpace (fun _ => L " ") (Str.toLowerCase question)).
Proof.
  unfold Chat.notWordOrSpace. rewrite ClassFacts.replaceAll_chr.
  rewrite Forall_forall. intros c Hc. apply in_flat_map in Hc.
  destruct Hc as (a & Hin & Ha). unfold Str.toLowerCase in Hin.
  apply in_map_iff in Hin. destruct Hin as (a0 & <- & _).
  pose proof (lower_not_upper a0) as Hup.
  unfold Chars.non, Chars.or, Chars.is_word in Ha.
  destruct (Chars.is_lower (Chars.lower a0) || Chars.is_upper (Chars.lower a0)
            || Chars.is_digit (Chars.lower a0) || (Chars.code (Chars.lower a0) =? 95)
            || Chars.is_space (Chars.lower a0)) eqn:E; cbn [negb] in Ha.
  - destruct Ha as [<-|[]]. unfold termChar, tokenChar. rewrite Hup in E.
    destruct (Chars.is_lower (Chars.lower a0)), (Chars.is_digit (Chars.lower a0)),
      (Chars.code (Chars.lower a0) =? 95); simpl in *; auto.
  - destruct Ha as [<-|[]]. now right.
Qed.

(** X2. The key terms of a question: at most five, each of at least three
    code units among [a-z0-9_], none of them a stop word. *)
Theorem extractKeyTerms_terms :
  forall question : str,
    length (Chat.extractKeyTerms question) <= 5
    /\ Forall (fun w => 2 < length w
                        /\ Forall (fun c => termChar c = true) w
                        /\ ~ In w Chat.stopWords)
              (Chat.extractKeyTerms question).
Proof.
  intros question. unfold Chat.extractKeyTerms. split.
  - rewrite length_firstn. lia.
  - rewrite Forall_forall. intros w Hw.
    apply ClassFacts.In_firstn in Hw. apply filter_In in Hw.
    destruct Hw as [Hin Hw]. apply andb_true_iff in Hw. destruct Hw as [Hlen Hstop].
    apply Nat.ltb_lt in Hlen. split; [exact Hlen|]. split.
    + pose proof (ClassFacts.split_pieces Chars.is_space (keyTerms_cleaned question)) as Hp.
      rewrite Forall_forall in Hp. specialize (Hp _ Hin).
      eapply Forall_impl; [|exact Hp]. cbv beta.
      intros c [[Hc|Hc] Hs]; [exact Hc | congruence].
    + intros Hs. apply MapFacts.has_In in Hs. rewrite Hs in Hstop.
      exact (Bool.diff_false_true Hstop).
Qed.

End TokenFacts.

(** ** The cleaned context of the composer *)

Module CleanFacts.

Import Re Notions.

(** Replacing the runs of a class by one string leaves, of the class, only
    what that string holds. *)
Lemma replaceFrom_runs (p : ascii -> bool) (x : str) :
  forall s skip q pv,
    Forall (fun c => p c = false \/ In c x)
           (replaceFrom (plus (Chr p)) (fun _ => x) skip q pv s).
Proof.
  induction s as [|c s IH]; intros skip q pv.
  - destruct skip; cbn [replaceFrom]; [|constructor].
    unfold plus. rewrite ClassFacts.matchAt_run. cbn. constructor.
  - destruct skip as [|n]; cbn [replaceFrom]; [|apply IH].
    pose proof (ClassFacts.matchAt_plus p q pv c s) as Hm.
    destruct (matchAt (plus (Chr p)) (start q pv (c :: s))) as [e|].
    + destruct Hm as (_ & n & ->). apply Forall_app. split; [|apply IH].
      rewrite Forall_forall. intros a Ha. now right.
    + constructor; [now left | apply IH].
Qed.

Lemma no_break_split (s : str) :
  Forall (fun c => c <> nl) s ->
  forall acc q pv, splitFrom Sectioner.newlines2 0 acc q pv s = [rev acc ++ s].
Proof.
  induction 1 as [|c s Hc Hs IH]; intros acc q pv; cbn [splitFrom].
  - now rewrite app_nil_r.
  - rewrite SplitFacts.matchAt_newlines2_none by (intros s' H; congruence).
    rewrite IH. cbn [rev]. now rewrite <- app_assoc.
Qed.

Lemma no_break_paragraph (s : str) :
  Forall (fun c => c <> nl) s -> split Sectioner.newlines2 s = [s].
Proof.
  intros Hs. unfold split. destruct s as [|c s].
  - now rewrite SplitFacts.matchAt_newlines2_none by (intros s' H; discriminate).
  - now rewrite no_break_split.
Qed.

Lemma cleanContent_spaces (content : str) :
  Forall singleSpaced (Chat.cleanContent content).
Proof.
  unfold Chat.cleanContent.
  assert (forall e, within singleSpaced e -> Forall singleSpaced (L " ")) as Hsp.
  { intros _ _. repeat constructor. }
  apply TrimFacts.trim_Forall.
  apply ClassFacts.replaceAll_Forall; [exact Hsp|].
  apply ClassFacts.replaceAll_Forall.
  { intros e He. apply Forall_app. split; now apply ClassFacts.sub_within. }
  apply ClassFacts.replaceAll_Forall.
  { intros e He. now apply ClassFacts.sub_within. }
  unfold replaceAll, Search.spaces.
  eapply Forall_impl; [|apply replaceFrom_runs].
  intros c [Hc|Hc] Hs; [congruence|].
  destruct Hc as [<-|[]]. reflexivity.
Qed.

(** X3. The cleaned context holds no white space but single blanks, none of
    them at either end, so it is one paragraph at most: the paragraphs over
    a length are the cleaned context itself, or nothing. *)
Theorem cleanContent_one_paragraph :
  forall (content : str) (minLen : nat),
    let clean := Chat.cleanContent content in
    Forall singleSpaced clean
    /\ trimmed clean
    /\ Chat.paragraphsOver minLen clean
       = if minLen <? length clean then [clean] else [].
Proof.
  intros content minLen clean.
  pose proof (cleanContent_spaces content) as Hsp. fold clean in Hsp.
  assert (trimmed clean) as Htr by apply TrimFacts.trim_trimmed.
  split; [exact Hsp|]. split; [exact Htr|].
  unfold Chat.paragraphsOver. rewrite no_break_paragraph.
  - cbn [map filter]. now rewrite (TrimFacts.trimmed_trim Htr).
  - eapply Forall_impl; [|exact Hsp]. intros c Hc ->.
    specialize (Hc eq_refl). discriminate Hc.
Qed.

End CleanFacts.

(** ** What every section carries *)

Module SectionFacts.

Import Sectioner Spec Notions.

Section WithSource.
Variable uuid : nat -> str.
Variable src : str.

(** The sections pushed so far are well made, each at its index, and hold
    more than fifty code units; the open section has a title. *)
Let kept (st : loopState) : Prop :=
  (forall i s, nth_error (sections st) i = Some s ->
               wellMade uuid src i s /\ 50 < length (text s))
  /\ (forall cur, current st = Some cur -> curTitle cur <> []).

Lemma nth_error_snoc (A : Type) (l : list A) (x : A) (i : nat) (y : A) :
  nth_error (l ++ [x]) i = Some y ->
  nth_error l i = Some y \/ (i = length l /\ y = x).
Proof.
  intros H. destruct (Nat.lt_ge_cases i (length l)) as [Hlt|Hge].
  - left. now rewrite nth_error_app1 in H.
  - right. rewrite nth_error_app2 in H by exact Hge.
    destruct (i - length l) as [|k] eqn:E.
    + simpl in H. injection H as <-. split; [lia | reflexivity].
    + simpl in H. destruct k; discriminate.
Qed.

Lemma newSection_wellMade (n : nat) (ttl : str) (sp ep : option nat) (raw : str) :
  ttl <> [] -> wellMade uuid src n (newSection uuid src n ttl sp ep (cleanTextContent raw)).
Proof.
  intros Httl. unfold wellMade, newSection. cbn [id sourceId title text tokensEstimated].
  split; [reflexivity|]. split; [reflexivity|]. split; [exact Httl|].
  split; [apply TrimFacts.trim_trimmed | reflexivity].
Qed.

Lemma flush_kept (ep : option nat) (st : loopState) : kept st -> kept (flush uuid src ep st).
Proof.
  intros [Hsec Hcur]. unfold flush. destruct (current st) as [cur|] eqn:Ec.
  - split; [|discriminate]. cbn [sections].
    destruct (50 <? length (cleanTextContent (Str.join [nl; nl] (curText cur)))) eqn:E;
      [|exact Hsec].
    intros i s Hi. apply nth_error_snoc in Hi. destruct Hi as [Hi|[-> ->]].
    + now apply Hsec.
    + split.
      * apply newSection_wellMade. now apply Hcur.
      * apply Nat.ltb_lt in E. exact E.
  - split; [exact Hsec|]. intros cur Hc. congruence.
Qed.

Lemma section_title_nonempty (n : nat) : L "Section " ++ Str.ofNat n <> [].
Proof. discriminate. Qed.

Lemma processBlock_kept (st : loopState) (b : str) :
  kept st -> kept (processBlock uuid src st b).
Proof.
  intros Hst. unfold processBlock. cbv zeta.
  destruct (filter (fun line => Str.truthy (Str.trim line)) (Re.split newline b))
    as [|line0 rest]; [exact Hst|].
  assert (kept
            (let st' :=
               match current st with
               | Some _ => st
               | None =>
                   mkLoop (sections st)
                          (Some (mkOpen (L "Section " ++ Str.ofNat (autoIndex st))
                                        (Some (match firstPageOf b with
                                               | Some p => p
                                               | None => 1
                                               end)) []))
                          (S (autoIndex st))
               end in
             match current st' with
             | Some cur =>
                 mkLoop (sections st')
                        (Some (mkOpen (curTitle cur) (curStartPage cur) (curText cur ++ [b])))
                        (autoIndex st')
             | None => st'
             end)) as Happend.
  { destruct Hst as [Hsec Hcur]. cbv zeta. destruct (current st) as [cur|] eqn:Ec.
    - rewrite Ec. split; [exact Hsec|]. cbn [current].
      intros cur' Hc. injection Hc as <-. cbn [curTitle]. now apply Hcur.
    - cbn [current sections autoIndex curTitle curStartPage curText].
      split; [exact Hsec|]. cbn [current].
      intros cur' Hc. injection Hc as <-. cbn [curTitle]. discriminate. }
  destruct (isHeader (isLikelyHeader (Str.trim line0)));
    [destruct (headerTitle (isLikelyHeader (Str.trim line0))) as [[|c ttl]|]|];
    try exact Happend.
  destruct (flush_kept (pageBefore b) Hst) as [Hsec _].
  split; [exact Hsec|]. cbn [current].
  intros cur Hc. injection Hc as <-. cbn [curTitle]. discriminate.
Qed.

Lemma detected_kept (rawPages : list str) :
  forall i s, nth_error (detected uuid src rawPages) i = Some s ->
              wellMade uuid src i s /\ 50 < length (text s).
Proof.
  unfold detected.
  assert (forall blocks st, kept st -> kept (fold_left (processBlock uuid src) blocks st))
    as Hfold.
  { induction blocks as [|b blocks IH]; intros st Hst; simpl; [exact Hst|].
    apply IH. now apply processBlock_kept. }
  apply flush_kept, Hfold. split.
  - intros i s Hi. destruct i; discriminate.
  - discriminate.
Qed.

Lemma windows_wellMade (rawPages : list str) :
  forall fuel i acc,
    (forall k s, nth_error acc k = Some s -> wellMade uuid src k s) ->
    forall k s, nth_error (windows uuid src fuel rawPages i acc) k = Some s ->
                wellMade uuid src k s.
Proof.
  induction fuel as [|fuel IH]; intros i acc Hacc; cbn [windows]; [exact Hacc|].
  destruct (i <? length rawPages); [|exact Hacc].
  apply IH. intros k s Hk. apply nth_error_snoc in Hk. destruct Hk as [Hk|[-> ->]].
  - now apply Hacc.
  - apply newSection_wellMade. discriminate.
Qed.

Lemma splitChapters_wellMade (rawPages : list str) (i : nat) (s : Section_) :
  nth_error (splitChapters uuid src rawPages) i = Some s -> wellMade uuid src i s.
Proof.
  unfold splitChapters. destruct (detected uuid src rawPages) as [|s0 found] eqn:Ed.
  - apply windows_wellMade. intros k s' Hk. destruct k; discriminate.
  - rewrite <- Ed. intros Hi. exact (proj1 (@detected_kept rawPages i s Hi)).
Qed.

Lemma ids_in_order (r : list Section_) :
  (forall i s, nth_error r i = Some s -> id s = uuid i) ->
  map id r = map uuid (seq 0 (length r)).
Proof.
  intros H. apply nth_error_ext. intros n. rewrite !nth_error_map.
  destruct (nth_error r n) as [s|] eqn:E.
  - rewrite nth_error_seq.
    assert (n < length r) as Hlt by (apply nth_error_Some; congruence).
    apply Nat.ltb_lt in Hlt. rewrite Hlt. cbn. now rewrite (H _ _ E).
  - apply nth_error_None in E. rewrite nth_error_seq.
    apply Nat.ltb_ge in E. now rewrite E.
Qed.

End WithSource.

(** X7. The [i]-th section returned carries the [i]-th identifier drawn,
    the source given and a title that is not empty; its text has no white
    space at either end, and its token estimate is the least number of
    four-unit groups that cover the text. *)
Theorem splitChapters_sections_well_made :
  forall (uuid : nat -> str) (src : str) (rawPages : list str) (i : nat) (s : Section_),
    nth_error (splitChapters uuid src rawPages) i = Some s ->
    id s = uuid i
    /\ sourceId s = src
    /\ title s <> []
    /\ trimmed (text s)
    /\ exists t, tokensEstimated s = Some t
                 /\ length (text s) <= 4 * t < length (text s) + 4.
Proof.
  intros uuid src rawPages i s Hi.
  destruct (@splitChapters_wellMade uuid src rawPages i s Hi)
    as (Hid & Hsrc & Httl & Htr & Htok).
  split; [exact Hid|]. split; [exact Hsrc|]. split; [exact Httl|]. split; [exact Htr|].
  exists (estimateTokens (text s)). split; [exact Htok|].
  unfold estimateTokens.
  pose proof (Nat.div_mod_eq (length (text s) + 3) 4) as Hdm.
  pose proof (Nat.mod_upper_bound (length (text s) + 3) 4 ltac:(discriminate)) as Hub.
  lia.
Qed.

Lemma splitChapters_sections_well_made_witness :
  id (mkSection (L "id-0") (L "doc") (L "Section 1") (Some 1) (Some 1)
                (L "[[PAGE:1]]" ++ [nl] ++ L "short") (Some 4)) = Samples.uuid 0.
Proof.
  apply (@splitChapters_sections_well_made Samples.uuid (L "doc") Samples.onePage 0
           (mkSection (L "id-0") (L "doc") (L "Section 1") (Some 1) (Some 1)
                      (L "[[PAGE:1]]" ++ [nl] ++ L "short") (Some 4))).
  vm_compute. reflexivity.
Defined.

Lemma map_injective_NoDup (A B : Type) (f : A -> B) (l : list A) :
  (forall x y, f x = f y -> x = y) -> NoDup l -> NoDup (map f l).
Proof.
  intros Hf. induction 1 as [|x l Hx _ IH]; simpl; constructor; [|exact IH].
  intros Hin. apply in_map_iff in Hin. destruct Hin as (y & Hy & Hin).
  apply Hf in Hy. now subst y.
Qed.

(** X8. When the generator of identifiers never repeats itself, no two
    sections returned share an identifier. *)
Theorem splitChapters_ids_distinct :
  forall (uuid : nat -> str) (src : str) (rawPages : list str),
    (forall i j, uuid i = uuid j -> i = j) ->
    NoDup (map id (splitChapters uuid src rawPages)).
Proof.
  intros uuid src rawPages Hinj.
  rewrite (@ids_in_order uuid (splitChapters uuid src rawPages)).
  - apply map_injective_NoDup; [exact Hinj | apply seq_NoDup].
  - intros i s Hi. exact (proj1 (@splitChapters_wellMade uuid src rawPages i s Hi)).
Qed.

Lemma uuid_injective (i j : nat) : Samples.uuid i = Samples.uuid j -> i = j.
Proof.
  unfold Samples.uuid. intros H. apply app_inv_head in H.
  rewrite <- (MarkerFacts.parseInt_ofNat i), <- (MarkerFacts.parseInt_ofNat j).
  now rewrite H.
Qed.

Lemma splitChapters_ids_distinct_witness :
  NoDup (map id (splitChapters Samples.uuid (L "doc") Samples.originsPages)).
Proof.
  apply (@splitChapters_ids_distinct Samples.uuid (L "doc") Samples.originsPages).
  exact uuid_injective.
Defined.

(** X9. No page, no section; and some page, some section. *)
Theorem splitChapters_empty_iff :
  forall (uuid : nat -> str) (src : str) (rawPages : list str),
    splitChapters uuid src rawPages = [] <-> rawPages = [].
Proof.
  intros uuid src rawPages. split.
  - intros He. destruct rawPages as [|p ps]; [reflexivity|].
    exfalso. revert He. apply WindowFacts.splitChapters_nonempty. discriminate.
  - intros ->. reflexivity.
Qed.

(** X10. Either every section returned holds more than fifty code units of
    text, or the pass over the blocks kept no section and the sections are
    the windows of eight pages. *)
Theorem splitChapters_substantial_or_windows :
  forall (uuid : nat -> str) (src : str) (rawPages : list str),
    let r := splitChapters uuid src rawPages in
    Forall (fun s => 50 < length (text s)) r
    \/ (detected uuid src rawPages = []
        /\ r = windows uuid src (length rawPages) rawPages 0 []).
Proof.
  intros uuid src rawPages r. unfold r, splitChapters.
  destruct (detected uuid src rawPages) as [|s0 found] eqn:Ed.
  - right. split; reflexivity.
  - left. rewrite <- Ed. rewrite Forall_forall. intros s Hin.
    apply In_nth_error in Hin. destruct Hin as (i & Hi).
    exact (proj2 (@detected_kept uuid src rawPages i s Hi)).
Qed.

End SectionFacts.

(** ** Retrieval by key terms, and the citation of the active section *)

Module RetrievalFacts.

Import Chat Spec Notions.

Lemma count_positive (A : Type) (f : A -> bool) (l : list A) :
  forall n, (0 <? fold_left (fun n x => if f x then n + 1 else n) l n)
            = (0 <? n) || existsb f l.
Proof.
  induction l as [|x l IH]; intros n; cbn [fold_left existsb].
  - now rewrite orb_false_r.
  - rewrite IH. destruct (f x); cbn [orb].
    + replace (0 <? n + 1) with true by (symmetry; apply Nat.ltb_lt; lia).
      now rewrite orb_true_r.
    + reflexivity.
Qed.

(** The paragraphs kept are the first three that mention a key term. *)
Lemma findRelevantContentByTerms_eq (context : str) (keyTerms : list str) :
  findRelevantContentByTerms context keyTerms
  = firstn 3 (filter (fun p => existsb (fun t => Str.includes (Str.toLowerCase p) t) keyTerms)
                     (paragraphsOver 30 context)).
Proof.
  unfold findRelevantContentByTerms. destruct keyTerms as [|t ts].
  - cbn [existsb]. symmetry.
    replace (filter (fun _ : str => false) (paragraphsOver 30 context)) with (@nil str);
      [reflexivity|].
    induction (paragraphsOver 30 context); simpl; congruence.
  - f_equal. apply filter_ext. intros p.
    now rewrite (count_positive (fun term => Str.includes (Str.toLowerCase p) term)).
Qed.

Lemma filter_subsequence (A : Type) (f : A -> bool) (l : list A) :
  subsequence (filter f l) l.
Proof.
  induction l as [|x l IH]; simpl; [constructor|].
  destruct (f x); now constructor.
Qed.

Lemma firstn_subsequence (A : Type) (l : list A) :
  forall n, subsequence (firstn n l) l.
Proof.
  induction l as [|x l IH]; intros [|n]; simpl.
  - constructor.
  - constructor.
  - apply ArrFacts.subsequence_nil.
  - apply sub_take, IH.
Qed.

Lemma subsequence_trans (A : Type) (xs ys zs : list A) :
  subsequence xs ys -> subsequence ys zs -> subsequence xs zs.
Proof.
  intros Hxy Hyz. revert xs Hxy.
  induction Hyz as [|z ys zs Hyz IH|z ys zs Hyz IH]; intros xs Hxy.
  - exact Hxy.
  - apply sub_skip. now apply IH.
  - inversion Hxy; subst.
    + apply sub_skip. now apply IH.
    + apply sub_take. now apply IH.
Qed.

(** X11. Retrieval by key terms keeps the first three paragraphs of more
    than thirty code units that mention a key term, in the order of the
    context: it does not rank them by the number of terms they mention. *)
Theorem findRelevantContentByTerms_first_three :
  forall (context : str) (keyTerms : list str),
    let found := findRelevantContentByTerms context keyTerms in
    found = firstn 3 (filter (fun p => existsb (fun t => Str.includes (Str.toLowerCase p) t)
                                               keyTerms)
                             (paragraphsOver 30 context))
    /\ length found <= 3
    /\ subsequence found (paragraphsOver 30 context)
    /\ Forall (fun p => 30 < length p
                        /\ trimmed p
                        /\ exists t, In t keyTerms
                                     /\ Str.includes (Str.toLowerCase p) t = true) found.
Proof.
  intros context keyTerms found. unfold found.
  rewrite findRelevantContentByTerms_eq.
  split; [reflexivity|]. split; [rewrite length_firstn; lia|]. split.
  - eapply subsequence_trans; [apply firstn_subsequence | apply filter_subsequence].
  - rewrite Forall_forall. intros p Hp.
    apply ClassFacts.In_firstn in Hp. apply filter_In in Hp. destruct Hp as [Hp Hex].
    unfold paragraphsOver in Hp. apply filter_In in Hp. destruct Hp as [Hp Hlen].
    apply in_map_iff in Hp. destruct Hp as (q & <- & _).
    split; [now apply Nat.ltb_lt|]. split; [apply TrimFacts.trim_trimmed|].
    apply existsb_exists in Hex. exact Hex.
Qed.

Lemma find_unique (sections : list Section_) (s : Section_) :
  NoDup (map id sections) -> In s sections ->
  find (fun x => Str.eqb (id x) (id s)) sections = Some s.
Proof.
  induction sections as [|x l IH]; intros Hnd Hin; [contradiction|].
  cbn [map] in Hnd. inversion Hnd as [|? ? Hx Hl]; subst.
  cbn [find]. destruct Hin as [->|Hin].
  - now rewrite StrFacts.eqb_refl.
  - destruct (Str.eqb (id x) (id s)) eqn:E; [|now apply IH].
    apply StrFacts.eqb_eq in E. exfalso. apply Hx. rewrite E. now apply in_map.
Qed.

(** X12. When the sections have distinct identifiers and the active one is
    among them, the citation names that section, with both pages, the
    first page alone, or no page. *)
Theorem getSourceInfo_cites_active_section :
  forall (sections : list Section_) (s : Section_),
    NoDup (map id sections) ->
    In s sections ->
    getSourceInfo sections (Some (id s))
    = L "Based on " ++ [dq] ++ title s ++ [dq] ++ L " from "
      ++ match startPage s, endPage s with
         | Some (S a), Some (S b) =>
             L "pages " ++ Str.ofNat (S a) ++ L "-" ++ Str.ofNat (S b)
         | Some (S a), _ => L "page " ++ Str.ofNat (S a)
         | _, _ => L "source document"
         end.
Proof.
  intros sections s Hnd Hin. unfold getSourceInfo, findActive.
  rewrite (@find_unique sections s Hnd Hin). unfold pageInfo, pageGiven, pageText.
  destruct (startPage s) as [[|a]|], (endPage s) as [[|b]|]; reflexivity.
Qed.

Lemma getSourceInfo_cites_active_section_witness :
  getSourceInfo Samples.twoSections (Some (L "id-2"))
  = L "Based on " ++ [dq] ++ L "Growth" ++ [dq] ++ L " from page 4".
Proof.
  apply (@getSourceInfo_cites_active_section Samples.twoSections
           (mkSection (L "id-2") (L "doc") (L "Growth") (Some 4) None (L "b") (Some 1))).
  - vm_compute. constructor; [|constructor; [|constructor]].
    + intros [H|[]]. discriminate H.
    + intros [].
  - vm_compute. right. left. reflexivity.
Defined.

End RetrievalFacts.

(** ** The times of the player *)

Module PlayerFacts.

Import Notions.

Lemma two_digits (r : nat) :
  r < 60 ->
  length (Tts.padStart 2 "0"%char (Str.ofNat r)) = 2
  /\ Forall (fun c => Chars.is_digit c = true) (Tts.padStart 2 "0"%char (Str.ofNat r))
  /\ Str.parseInt (Tts.padStart 2 "0"%char (Str.ofNat r)) = r.
Proof.
  intros Hr.
  assert (forallb (fun r => (length (Tts.padStart 2 "0"%char (Str.ofNat r)) =? 2)
                            && forallb Chars.is_digit (Tts.padStart 2 "0"%char (Str.ofNat r))
                            && (Str.parseInt (Tts.padStart 2 "0"%char (Str.ofNat r)) =? r))
                  (seq 0 60) = true) as Hall by (vm_compute; reflexivity).
  rewrite forallb_forall in Hall.
  specialize (Hall r ltac:(apply in_seq; lia)).
  apply andb_true_iff in Hall. destruct Hall as [Hall Hp].
  apply andb_true_iff in Hall. destruct Hall as [Hl Hd].
  apply Nat.eqb_eq in Hl, Hp. rewrite forallb_forall in Hd.
  split; [exact Hl|]. split; [|exact Hp].
  rewrite Forall_forall. exact Hd.
Qed.

(** X13. For a time of a whole number of milliseconds from 0 to 2^53 - 1,
    [formatTime] writes the minutes, a colon and the seconds on two digits;
    read back, the two numbers give the whole seconds of the time. *)
Theorem formatTime_reads_back :
  forall ms : Z,
    (0 <= ms < 2 ^ 53)%Z ->
    exists m ss,
      Tts.formatTime ms = m ++ L ":" ++ ss
      /\ m <> [] /\ Forall (fun c => Chars.is_digit c = true) m
      /\ length ss = 2 /\ Forall (fun c => Chars.is_digit c = true) ss
      /\ Str.parseInt ss < 60
      /\ 60 * Str.parseInt m + Str.parseInt ss = Z.to_nat (ms / 1000).
Proof.
  intros ms [Hms _]. unfold Tts.formatTime. cbv zeta.
  set (seconds := (ms / 1000)%Z).
  assert (0 <= seconds)%Z as Hs by (apply Z.div_pos; lia).
  assert (0 <= seconds / 60)%Z as Hm by (apply Z.div_pos; lia).
  rewrite Z.rem_mod_nonneg by lia.
  pose proof (Z.mod_pos_bound seconds 60 ltac:(lia)) as Hr.
  pose proof (Z.div_mod seconds 60 ltac:(lia)) as Hdm.
  unfold Tts.ofInt.
  replace (seconds / 60 <? 0)%Z with false by (symmetry; apply Z.ltb_ge; lia).
  replace (seconds mod 60 <? 0)%Z with false by (symmetry; apply Z.ltb_ge; lia).
  destruct (@two_digits (Z.to_nat (seconds mod 60)) ltac:(lia)) as (Hl & Hd & Hp).
  exists (Str.ofNat (Z.to_nat (seconds / 60))),
         (Tts.padStart 2 "0"%char (Str.ofNat (Z.to_nat (seconds mod 60)))).
  split; [reflexivity|].
  split; [apply MarkerFacts.ofNat_nonempty|].
  split; [apply MarkerFacts.ofNat_digits|].
  split; [exact Hl|]. split; [exact Hd|].
  rewrite Hp, MarkerFacts.parseInt_ofNat. split; lia.
Qed.

Lemma formatTime_reads_back_witness :
  exists m ss,
    Tts.formatTime 65000%Z = m ++ L ":" ++ ss
    /\ m <> [] /\ Forall (fun c => Chars.is_digit c = true) m
    /\ length ss = 2 /\ Forall (fun c => Chars.is_digit c = true) ss
    /\ Str.parseInt ss < 60
    /\ 60 * Str.parseInt m + Str.parseInt ss = Z.to_nat (65000 / 1000)%Z.
Proof. apply (@formatTime_reads_back 65000%Z). lia. Defined.

Lemma totalTime_thirds (script : Podcast.PodcastScript) :
  Tts.totalTime script = 1000 * thirds (Podcast.segments script).
Proof.
  unfold Tts.totalTime, thirds, Tts.estimateSegmentDuration.
  generalize (Podcast.segments script). intros segs.
  assert (forall acc,
            fold_left (fun total segment =>
                         total + (length (Podcast.text segment) + 2) / 3 * 1000) segs acc
            = acc + 1000 * list_sum (map (fun s => (length (Podcast.text s) + 2) / 3) segs))
    as H.
  { induction segs as [|s segs IH]; intros acc; cbn [fold_left map].
    - unfold list_sum. cbn [fold_right]. lia.
    - rewrite IH. unfold list_sum. cbn [fold_right]. lia. }
  apply H.
Qed.

Lemma estimateTotalDuration_characters (segs : list Podcast.PodcastSegment) :
  Podcast.estimateTotalDuration segs = (characters segs + 2) / 3.
Proof.
  unfold Podcast.estimateTotalDuration, characters. cbv zeta. f_equal. f_equal.
  assert (forall acc,
            fold_left (fun sum segment => sum + length (Podcast.text segment)) segs acc
            = acc + list_sum (map (fun s => length (Podcast.text s)) segs)) as H.
  { induction segs as [|s segs IH]; intros acc; cbn [fold_left map].
    - unfold list_sum. cbn [fold_right]. lia.
    - rewrite IH. unfold list_sum. cbn [fold_right]. lia. }
  apply H.
Qed.

Lemma thirds_characters (segs : list Podcast.PodcastSegment) :
  characters segs <= 3 * thirds segs <= characters segs + 2 * length segs.
Proof.
  unfold characters, thirds.
  unfold list_sum in *.
  induction segs as [|s segs IH]; cbn [map fold_right length]; [lia|].
  pose proof (Nat.div_mod_eq (length (Podcast.text s) + 2) 3) as Hdm.
  pose proof (Nat.mod_upper_bound (length (Podcast.text s) + 2) 3 ltac:(discriminate)) as Hub.
  lia.
Qed.

(** X14. The total time the player shows is a whole number of seconds; it
    is never below the duration the script estimates for itself, and
    exceeds it by less than one second for each segment (none, for an empty
    script). *)
Theorem totalTime_brackets_script_estimate :
  forall script : Podcast.PodcastScript,
    let segs := Podcast.segments script in
    let estimate := Podcast.estimateTotalDuration segs in
    exists secs,
      Tts.totalTime script = 1000 * secs
      /\ estimate <= secs <= estimate + length segs
      /\ (segs <> [] -> secs < estimate + length segs).
Proof.
  intros script segs estimate. exists (thirds segs).
  split; [apply totalTime_thirds|].
  unfold estimate. rewrite estimateTotalDuration_characters.
  pose proof (thirds_characters segs) as Hc.
  pose proof (Nat.div_mod_eq (characters segs + 2) 3) as Hdm.
  pose proof (Nat.mod_upper_bound (characters segs + 2) 3 ltac:(discriminate)) as Hub.
  split; [lia|]. intros Hne.
  assert (0 < length segs) by (destruct segs; [congruence | cbn; lia]). lia.
Qed.

End PlayerFacts.

(** ** The question box *)

Module AskFacts.

Lemma join_nil_texts : Str.join [nl; nl] (map text (@nil Section_)) = [].
Proof. reflexivity. Qed.

Lemma demoAnswer_no_context (log : float -> float) (aiService : option Chat.responder)
      (question : str) (sections : list Section_) (activeId : option str) :
  Chat.demoAnswer log aiService question [] sections activeId = Chat.noContent.
Proof. reflexivity. Qed.

(** X15. A blank input adds no turn. Any other input adds the trimmed
    question and then an answer that is not empty; the answer is the
    no-content message when the scope is the current chapter and no section
    has the active identifier, and when there is no section at all,
    whatever the question and whether or not the AI service is there. *)
Theorem ask_turns :
  forall (log : float -> float) (aiService : option Chat.responder) (scope : Ui.Scope)
         (input : str) (sections : list Section_) (activeSectionId : option str),
    (Str.trim input = [] -> Ui.ask log aiService scope input sections activeSectionId = [])
    /\ (Str.trim input <> [] ->
        exists answer,
          Ui.ask log aiService scope input sections activeSectionId
          = [ Ui.mkTurn Ui.user (Str.trim input); Ui.mkTurn Ui.assistant answer ]
          /\ answer <> []
          /\ (scope = Ui.current -> Chat.findActive sections activeSectionId = None ->
              answer = Chat.noContent)
          /\ (sections = [] -> answer = Chat.noContent)).
Proof.
  intros log aiService scope input sections activeSectionId. unfold Ui.ask. cbv zeta. split.
  - intros ->. reflexivity.
  - intros Hne. destruct (Str.trim input) as [|c q] eqn:Eq; [congruence|].
    cbn [Str.is_empty]. eexists. split; [reflexivity|]. split; [|split].
    + apply ChatFacts.demoAnswer_nonempty.
    + intros -> Hnone. unfold Ui.contextOf. rewrite Hnone. reflexivity.
    + intros ->. destruct scope; unfold Ui.contextOf.
      * reflexivity.
      * destruct activeSectionId; reflexivity.
Qed.

End AskFacts.

(** ** The podcast script from the template *)

Module PodcastFacts.

Import Notions.

Lemma mapped_trimmed (f : str -> bool) (n : nat) (pieces : list str) :
  Forall trimmed (firstn n (filter f (map Str.trim pieces))).
Proof.
  rewrite Forall_forall. intros p Hp.
  apply ClassFacts.In_firstn in Hp. apply filter_In in Hp. destruct Hp as [Hp _].
  apply in_map_iff in Hp. destruct Hp as (q & <- & _). apply TrimFacts.trim_trimmed.
Qed.

Lemma firstn_filter_over (k n : nat) (l : list str) :
  Forall (fun p => k < length p) (firstn n (filter (fun p => k <? length p) l)).
Proof.
  rewrite Forall_forall. intros p Hp.
  apply ClassFacts.In_firstn in Hp. apply filter_In in Hp. destruct Hp as [_ Hp].
  now apply Nat.ltb_lt.
Qed.

(** X16. There is always a key point, and never more than eight; no key
    point has white space at either end; and either the cleaned content is
    the only key point, or every key point has more than twenty code
    units. *)
Theorem extractKeyPoints_shape :
  forall content : str,
    let points := Podcast.extractKeyPoints content in
    1 <= length points <= 8
    /\ Forall trimmed points
    /\ (points = [Podcast.cleanContent content]
        \/ Forall (fun p => 20 < length p) points).
Proof.
  intros content points. unfold points, Podcast.extractKeyPoints. cbv zeta.
  set (sentences := firstn 8 (filter (fun s => 30 <? length s)
                     (map Str.trim (Re.split Chat.sentenceEnds (Podcast.cleanContent content))))).
  set (phrases := firstn 6 (filter (fun p => 20 <? length p)
                     (map Str.trim (Re.split Podcast.listMarks (Podcast.cleanContent content))))).
  assert (length sentences <= 8) as Hs8 by (unfold sentences; rewrite length_firstn; lia).
  assert (length phrases <= 6) as Hp6 by (unfold phrases; rewrite length_firstn; lia).
  assert (Forall trimmed phrases) as Hpt by apply mapped_trimmed.
  assert (Forall (fun p => 20 < length p) phrases) as Hpo by apply firstn_filter_over.
  assert (Forall trimmed sentences) as Hst by apply mapped_trimmed.
  assert (Forall (fun p => 30 < length p) sentences) as Hso by apply firstn_filter_over.
  clearbody sentences phrases. unfold str in *.
  destruct (length sentences <? 3) eqn:E.
  - destruct phrases as [|p ps].
    + split; [cbn; lia|]. split; [|now left].
      constructor; [apply TrimFacts.trim_trimmed | constructor].
    + split; [cbn [length] in *; lia|]. split; [exact Hpt | now right].
  - apply Nat.ltb_ge in E. split; [lia|]. split; [exact Hst|]. right.
    eapply Forall_impl; [|exact Hso]. cbv beta. intros p Hp. lia.
Qed.

Lemma prefix_app (p b : str) : Str.prefix p (p ++ b) = true.
Proof.
  induction p as [|c p IH]; [reflexivity|].
  cbn [app Str.prefix]. now rewrite Ascii.eqb_refl, IH.
Qed.

Lemma includes_app (a p b : str) : Str.includes (a ++ p ++ b) p = true.
Proof.
  induction a as [|c a IH].
  - cbn [app]. destruct (p ++ b) as [|x s] eqn:E.
    + destruct p; [reflexivity | discriminate].
    + cbn [Str.includes]. rewrite <- E, prefix_app. reflexivity.
  - cbn [app Str.includes]. rewrite IH. apply orb_true_r.
Qed.

Section WithRandom.
Variable random : nat -> nat -> nat.

Lemma discussPoint_mentions (total index : nat) (point : str) (calls : nat) :
  exists seg, In seg (fst (Podcast.discussPoint random total index point calls))
              /\ Str.includes (Podcast.text seg) point = true.
Proof.
  unfold Podcast.discussPoint. cbv zeta.
  set (lead := if index mod 2 =? 0 then Podcast.host1 else Podcast.host2).
  destruct ((index mod 3 =? 2) && (index <? total - 1)); cbn [fst];
    destruct (index =? 0).
  - eexists. split; [left; reflexivity|]. cbn [Podcast.text].
    rewrite <- (app_nil_r point) at 1. apply includes_app.
  - eexists. split; [left; reflexivity|]. cbn [Podcast.text].
    rewrite <- (app_nil_r point) at 1. rewrite app_assoc. apply includes_app.
  - eexists. split; [left; reflexivity|]. cbn [Podcast.text].
    rewrite <- (app_nil_r point) at 1. apply includes_app.
  - eexists. split; [left; reflexivity|]. cbn [Podcast.text].
    rewrite <- (app_nil_r point) at 1. rewrite app_assoc. apply includes_app.
Qed.

Lemma discuss_mentions (total : nat) (points : list str) :
  forall index calls p,
    In p points ->
    exists seg, In seg (fst (Podcast.discuss random total index points calls))
                /\ Str.includes (Podcast.text seg) p = true.
Proof.
  induction points as [|point rest IH]; intros index calls p Hin; [contradiction|].
  cbn [Podcast.discuss]. cbv zeta. cbn [fst]. destruct Hin as [->|Hin].
  - destruct (discussPoint_mentions total index p calls) as (seg & Hseg & Hp).
    exists seg. split; [apply in_or_app; now left | exact Hp].
  - destruct (IH (S index) (snd (Podcast.discussPoint random total index point calls)) p Hin)
      as (seg & Hseg & Hp).
    exists seg. split; [apply in_or_app; now right | exact Hp].
Qed.

Lemma discuss_length (points : list str) :
  length points <= 8 ->
  length (fst (Podcast.discuss random (length points) 0 points 2))
  = 2 * length points + (length points - 1) / 3.
Proof.
  intros Hlen.
  destruct points as [|p1 [|p2 [|p3 [|p4 [|p5 [|p6 [|p7 [|p8 [|p9 rest]]]]]]]]];
    try reflexivity.
  cbn [length] in Hlen. lia.
Qed.

End WithRandom.

(** X17. The script from the template carries the title behind its
    prefix; it opens with the first host and then the second, and closes
    with the second and then the first; between them stand two segments for
    each key point and one more after every third point that is not the
    last, six to twenty-two segments in all; each key point is read out in
    a segment; and the duration is a third of the code units, rounded up. *)
Theorem template_script_shape :
  forall (random : nat -> nat -> nat) (title content : str),
    let script := Podcast.generateTemplatePodcastScript random title content in
    let points := Podcast.extractKeyPoints content in
    Podcast.title script = L "Podcast Discussion: " ++ title
    /\ (exists o r middle c1 c2,
          Podcast.segments script
          = Podcast.mkSegment Podcast.host1 o None
            :: Podcast.mkSegment Podcast.host2 r None
            :: middle ++ [ Podcast.mkSegment Podcast.host2 c1 None;
                           Podcast.mkSegment Podcast.host1 c2 None ])
    /\ length (Podcast.segments script) = 4 + 2 * length points + (length points - 1) / 3
    /\ 6 <= length (Podcast.segments script) <= 22
    /\ Forall (fun p => exists seg, In seg (Podcast.segments script)
                                    /\ Str.includes (Podcast.text seg) p = true) points
    /\ Podcast.totalDuration script
       = Some ((characters (Podcast.segments script) + 2) / 3).
Proof.
  intros random title content script points.
  destruct (extractKeyPoints_shape content) as ([Hlo Hhi] & _ & _). fold points in Hlo, Hhi.
  unfold script, Podcast.generateTemplatePodcastScript. cbv zeta. fold points.
  cbn [Podcast.title Podcast.segments Podcast.totalDuration].
  set (middle := Podcast.discuss random (length points) 0 points 2).
  pose proof (discuss_length random points Hhi) as Hmid. fold middle in Hmid.
  assert (length ([Podcast.mkSegment Podcast.host1
                     (Podcast.choose random 0 (Podcast.openings title)) None;
                   Podcast.mkSegment Podcast.host2
                     (Podcast.choose random 1 Podcast.responses) None]
                  ++ fst middle
                  ++ [Podcast.mkSegment Podcast.host2
                        (Podcast.choose random (snd middle) Podcast.conclusions) None;
                      Podcast.mkSegment Podcast.host1
                        (Podcast.choose random (snd middle + 1) Podcast.closings) None])
          = 4 + 2 * length points + (length points - 1) / 3) as Hlen.
  { rewrite !length_app, Hmid. cbn [length]. lia. }
  split; [reflexivity|]. split; [|split; [exact Hlen|split; [|split]]].
  - now exists (Podcast.choose random 0 (Podcast.openings title)),
               (Podcast.choose random 1 Podcast.responses), (fst middle),
               (Podcast.choose random (snd middle) Podcast.conclusions),
               (Podcast.choose random (snd middle + 1) Podcast.closings).
  - rewrite Hlen.
    pose proof (Nat.div_mod_eq (length points - 1) 3) as Hdm.
    pose proof (Nat.mod_upper_bound (length points - 1) 3 ltac:(discriminate)) as Hub.
    lia.
  - rewrite Forall_forall. intros p Hp.
    destruct (discuss_mentions random (length points) points 0 2 p Hp) as (seg & Hseg & Hinc).
    exists seg. split; [|exact Hinc].
    apply in_or_app. right. apply in_or_app. now left.
  - now rewrite PlayerFacts.estimateTotalDuration_characters.
Qed.

End PodcastFacts.

(** ** The cleaned text of a section *)

Module CleanTextFacts.

Import Re Sectioner Notions.

Lemma matchAt_spaces2 (q : nat) (pv : option ascii) (s : str) :
  matchAt spaces2 (start q pv s)
  = if 2 <=? length (takeWhile Chars.is_space s)
    then Some (advance (takeWhile Chars.is_space s) (Str.dropWhile Chars.is_space s)
                       (start q pv s))
    else None.
Proof. apply ClassFacts.matchAt_run. Qed.

Lemma sparse_cons (c : ascii) (s : str) :
  sparse s -> (Chars.is_space c = true -> ~ startsBlank s) -> sparse (c :: s).
Proof.
  intros Hs Hc. destruct s as [|y s']; [exact I|].
  split; [|exact Hs]. intros Hsp. specialize (Hc Hsp). cbn in Hc.
  destruct (Chars.is_space y); [now exfalso | reflexivity].
Qed.

Lemma sparse_tail (c : ascii) (s : str) : sparse (c :: s) -> sparse s.
Proof. destruct s as [|y s']; [intros _; exact I | intros [_ H]; exact H]. Qed.

Lemma sparse_app (a b : str) : sparse (a ++ b) -> sparse a /\ sparse b.
Proof.
  induction a as [|x a IH]; [intros H; split; [exact I | exact H]|].
  intros H. pose proof (sparse_tail _ _ H) as Ht. destruct (IH Ht) as [Ha Hb].
  split; [|exact Hb]. destruct a as [|y a']; [exact I|].
  split; [|exact Ha]. cbn [app sparse] in H. apply H.
Qed.

Lemma replaceFrom_skip (r : regex) (f : state -> str) (tl : str) :
  forall cs q pv,
    exists q' pv',
      replaceFrom r f (length cs) q pv (cs ++ tl) = replaceFrom r f 0 q' pv' tl.
Proof.
  induction cs as [|c cs IH]; intros q pv.
  - now exists q, pv.
  - cbn [length app replaceFrom]. apply IH.
Qed.

Lemma dropWhile_not_blank (s : str) : ~ startsBlank (Str.dropWhile Chars.is_space s).
Proof.
  destruct (Str.dropWhile Chars.is_space s) as [|c r] eqn:E; [intros []|].
  apply TrimFacts.dropWhile_head in E. cbn. congruence.
Qed.

(** The runs of two white-space code units or more, replaced by one
    blank: what is written has no two in a row, and starts as the input
    does when that is no white space. *)
Lemma collapse_sparse :
  forall n s, length s <= n ->
  forall q pv,
    sparse (replaceFrom spaces2 (fun _ => L " ") 0 q pv s)
    /\ (~ startsBlank s -> ~ startsBlank (replaceFrom spaces2 (fun _ => L " ") 0 q pv s)).
Proof.
  induction n as [|n IH]; intros s Hn q pv.
  - destruct s; [|cbn in Hn; lia]. cbn [replaceFrom].
    rewrite matchAt_spaces2. cbn.
    split; [exact I | intros _ []].
  - destruct s as [|c s]; [apply (IH [] ltac:(cbn; lia))|].
    cbn [replaceFrom]. rewrite matchAt_spaces2.
    destruct (2 <=? length (takeWhile Chars.is_space (c :: s))) eqn:E2.
    + apply Nat.leb_le in E2.
      rewrite ReFacts.pos_advance. cbn [start pos].
      replace (q + length (takeWhile Chars.is_space (c :: s)) - q)
        with (length (takeWhile Chars.is_space (c :: s))) by lia.
      cbn [takeWhile Str.dropWhile] in *.
      destruct (Chars.is_space c) eqn:Ec; [|cbn in E2; lia].
      cbn [length] in *.
      pose proof (ClassFacts.takeWhile_dropWhile Chars.is_space s) as Hsplit.
      destruct (@replaceFrom_skip spaces2 (fun _ => L " ") (Str.dropWhile Chars.is_space s)
                  (takeWhile Chars.is_space s) (S q) (Some c)) as (q' & pv' & Hskip).
      rewrite Hsplit in Hskip. rewrite Hskip.
      assert (length (Str.dropWhile Chars.is_space s) <= n) as Hlen.
      { pose proof (TrimFacts.dropWhile_length Chars.is_space s). cbn in Hn. lia. }
      destruct (IH _ Hlen q' pv') as [Hsp Hst].
      split.
      * cbn [L list_ascii_of_string app]. apply sparse_cons; [exact Hsp|].
        intros _. apply Hst, dropWhile_not_blank.
      * intros Hnb. cbn in Hnb. congruence.
    + apply Nat.leb_gt in E2.
      assert (length s <= n) as Hlen by (cbn in Hn; lia).
      destruct (IH _ Hlen (S q) (Some c)) as [Hsp Hst].
      split.
      * apply sparse_cons; [exact Hsp|]. intros Hc. apply Hst.
        cbn [takeWhile] in E2. rewrite Hc in E2. cbn [length] in E2.
        destruct s as [|y s']; [intros []|]. cbn [takeWhile] in E2. cbn.
        destruct (Chars.is_space y); [cbn in E2; lia | congruence].
      * intros Hnb. cbn in Hnb |- *. exact Hnb.
Qed.

(** In a string with no two white-space code units in a row, no blank
    line is found. *)
Lemma matchAt_blankLines_sparse (q : nat) (pv : option ascii) (s : str) :
  sparse s -> matchAt blankLines (start q pv s) = None.
Proof.
  intros Hs. destruct (matchAt blankLines (start q pv s)) as [e|] eqn:Em; [|reflexivity].
  exfalso. destruct s as [|c s]; [cbn in Em; discriminate|].
  unfold matchAt, blankLines in Em. cbn [seqs] in Em.
  change (run (Seq newline (Seq (star space) newline)) Some (start q pv (c :: s)))
    with (if Ascii.eqb nl c
          then run (Seq (star space) newline) Some (step c s (start q pv (c :: s)))
          else None) in Em.
  destruct (Ascii.eqb nl c) eqn:Ec; [|discriminate].
  apply Ascii.eqb_eq in Ec. subst c.
  cbn [run] in Em. unfold star, space in Em.
  change (rep _ (run (Chr Chars.is_space)) 0 None ?k ?st)
    with (run (Rep (Chr Chars.is_space) 0 None) k st) in Em.
  rewrite ReFacts.run_rep_chr in Em. cbn [step rest] in Em.
  apply ReFacts.greedy_some in Em.
  destruct Em as (cs & tl & -> & Hcs & _ & Hk).
  unfold newline in Hk. cbn [run] in Hk.
  rewrite (ReFacts.rest_advance cs tl) in Hk by reflexivity.
  destruct tl as [|c tl]; [discriminate|].
  unfold Chars.eq in Hk. destruct (Ascii.eqb nl c) eqn:Ec; [|discriminate].
  apply Ascii.eqb_eq in Ec. subst c.
  destruct cs as [|c1 cs].
  - cbn [app sparse] in Hs. destruct Hs as [Hs _]. specialize (Hs eq_refl). discriminate.
  - cbn [app sparse] in Hs. destruct Hs as [Hs _]. specialize (Hs eq_refl).
    inversion Hcs; subst. congruence.
Qed.

Lemma blankLines_unchanged (f : state -> str) :
  forall s q pv, sparse s -> replaceFrom blankLines f 0 q pv s = s.
Proof.
  induction s as [|c s IH]; intros q pv Hs; cbn [replaceFrom];
    rewrite (matchAt_blankLines_sparse _ _ _ Hs); [reflexivity|].
  f_equal. apply IH. exact (sparse_tail _ _ Hs).
Qed.

Lemma trim_sparse (s : str) : sparse s -> sparse (Str.trim s).
Proof.
  intros Hs. destruct (SplitFacts.trim_infix s) as (w1 & w2 & Hw).
  rewrite Hw in Hs. apply sparse_app in Hs. destruct Hs as [_ Hs].
  apply sparse_app in Hs. apply Hs.
Qed.

(** The text before the blank lines are looked for. *)
Lemma cleanTextContent_eq (text : str) :
  cleanTextContent text
  = Str.trim
      (replaceAll spaces2 (fun _ => L " ")
        (replaceAll spaceBeforePunct (sub 1)
          (replaceAll hyphenBreak (fun e => sub 1 e ++ sub 2 e) text)))
  /\ sparse (cleanTextContent text).
Proof.
  unfold cleanTextContent.
  set (t := replaceAll spaceBeforePunct (sub 1)
              (replaceAll hyphenBreak (fun e => sub 1 e ++ sub 2 e) text)).
  pose proof (proj1 (@collapse_sparse (length t) t (Nat.le_refl _) 0 None)) as Hsp.
  fold (replaceAll spaces2 (fun _ => L " ") t) in Hsp.
  assert (replaceAll blankLines (fun _ => [nl; nl]) (replaceAll spaces2 (fun _ => L " ") t)
          = replaceAll spaces2 (fun _ => L " ") t) as Hsame
    by (apply blankLines_unchanged; exact Hsp).
  rewrite Hsame. split; [reflexivity | apply trim_sparse; exact Hsp].
Qed.

(** X18. The cleaned text has no white space at either end and no two
    white-space code units in a row; the last replacement of
    [cleanTextContent], meant for blank lines, never finds one. *)
Theorem cleanTextContent_sparse :
  forall text : str,
    trimmed (cleanTextContent text)
    /\ sparse (cleanTextContent text)
    /\ cleanTextContent text
       = Str.trim
           (replaceAll spaces2 (fun _ => L " ")
             (replaceAll spaceBeforePunct (sub 1)
               (replaceAll hyphenBreak (fun e => sub 1 e ++ sub 2 e) text))).
Proof.
  intros text. destruct (cleanTextContent_eq text) as [Heq Hsp].
  split; [apply TrimFacts.trim_trimmed|]. split; [exact Hsp | exact Heq].
Qed.

Lemma sparse_noBlankLine (s : str) : sparse s -> Spec.noBlankLine s.
Proof.
  intros Hs a b ->. apply sparse_app in Hs. destruct Hs as [_ Hs].
  cbn [sparse] in Hs. destruct Hs as [Hs _]. specialize (Hs eq_refl). discriminate.
Qed.

Section WithSource.
Variable uuid : nat -> str.
Variable src : str.

(** What holds of every section made from a cleaned text holds of every
    section returned. *)
Variable Q : Section_ -> Prop.
Hypothesis made :
  forall n ttl sp ep raw, Q (newSection uuid src n ttl sp ep (cleanTextContent raw)).

Lemma flush_all (ep : option nat) (st : loopState) :
  Forall Q (sections st) -> Forall Q (sections (flush uuid src ep st)).
Proof.
  intros Hst. unfold flush. destruct (current st) as [cur|]; [|exact Hst].
  cbn [sections].
  destruct (50 <? length (cleanTextContent (Str.join [nl; nl] (curText cur)))); [|exact Hst].
  apply Forall_app. split; [exact Hst|]. constructor; [apply made | constructor].
Qed.

Lemma processBlock_all (st : loopState) (b : str) :
  Forall Q (sections st) -> Forall Q (sections (processBlock uuid src st b)).
Proof.
  intros Hst. unfold processBlock. cbv zeta.
  destruct (filter (fun line => Str.truthy (Str.trim line)) (Re.split newline b))
    as [|line0 rest]; [exact Hst|].
  assert (forall p,
            Forall Q (sections
              (let st' :=
                 match current st with
                 | Some _ => st
                 | None =>
                     mkLoop (sections st)
                            (Some (mkOpen (L "Section " ++ Str.ofNat (autoIndex st)) p []))
                            (S (autoIndex st))
                 end in
               match current st' with
               | Some cur =>
                   mkLoop (sections st')
                          (Some (mkOpen (curTitle cur) (curStartPage cur) (curText cur ++ [b])))
                          (autoIndex st')
               | None => st'
               end))) as Happend.
  { intros p. cbv zeta. destruct (current st) as [cur|] eqn:Ec.
    - rewrite Ec. exact Hst.
    - exact Hst. }
  destruct (isHeader (isLikelyHeader (Str.trim line0)));
    [destruct (headerTitle (isLikelyHeader (Str.trim line0))) as [[|c ttl]|]|];
    try apply Happend.
  cbn [sections]. now apply flush_all.
Qed.

Lemma splitChapters_all (rawPages : list str) : Forall Q (splitChapters uuid src rawPages).
Proof.
  assert (Forall Q (detected uuid src rawPages)) as Hd.
  { unfold detected. apply flush_all.
    assert (forall blocks st, Forall Q (sections st) ->
              Forall Q (sections (fold_left (processBlock uuid src) blocks st))) as Hfold.
    { induction blocks as [|b blocks IH]; intros st Hst; simpl; [exact Hst|].
      apply IH. now apply processBlock_all. }
    apply Hfold. constructor. }
  assert (forall fuel i acc, Forall Q acc ->
            Forall Q (windows uuid src fuel rawPages i acc)) as Hw.
  { induction fuel as [|fuel IH]; intros i acc Hacc; cbn [windows]; [exact Hacc|].
    destruct (i <? length rawPages); [|exact Hacc].
    apply IH. apply Forall_app. split; [exact Hacc|].
    constructor; [apply made | constructor]. }
  unfold splitChapters. destruct (detected uuid src rawPages) as [|s0 found].
  - apply Hw. constructor.
  - exact Hd.
Qed.

End WithSource.

(** X19. Although the blocks of a section are joined by blank lines, the
    text of a section returned has no two white-space code units in a
    row, and so no blank line: it is one paragraph. *)
Theorem splitChapters_text_one_paragraph :
  forall (uuid : nat -> str) (src : str) (rawPages : list str),
    Forall (fun s => sparse (text s) /\ Spec.noBlankLine (text s))
           (splitChapters uuid src rawPages).
Proof.
  intros uuid src rawPages. apply splitChapters_all.
  intros n ttl sp ep raw. unfold newSection. cbn [text].
  pose proof (proj2 (cleanTextContent_eq raw)) as Hsp.
  split; [exact Hsp | now apply sparse_noBlankLine].
Qed.

End CleanTextFacts.

(** ** The scores the sorts compare *)

Module ScoreFacts.

Import Ieee.

Lemma unsigned_not_negative (x : float) : unsigned x -> (0 <=? x)%float = true.
Proof.
  unfold unsigned. rewrite leb_spec, FloatFacts.Prim2SF_zero.
  destruct (Prim2SF x) as [s|s| |s m e]; cbn [signed]; try contradiction; intros ->; reflexivity.
Qed.

(** X20. The comparators of the two sorts, [b.score - a.score] of the
    composer and [b.sc - a.sc] of the summarizer, read the sign of a
    difference. For two scores that are no NaN the difference is negative,
    zero or NaN exactly when the second score is at most the first: the
    rounding of the subtraction, its overflow and the NaN it gives for two
    equal infinities never put two scores in the wrong order. *)
Theorem comparators_order_scores :
  forall a b : nat * float,
    PrimFloat.is_nan (snd a) = false ->
    PrimFloat.is_nan (snd b) = false ->
    Chat.byScoreDesc a b = (snd b <=? snd a)%float
    /\ Summarize.byScoreDesc a b = (snd b <=? snd a)%float.
Proof.
  intros a b Ha Hb. unfold Chat.byScoreDesc, Summarize.byScoreDesc.
  split; now apply FloatFacts.notPositive_sub.
Qed.

Lemma comparators_order_scores_witness :
  Chat.byScoreDesc (0, PrimFloat.infinity) (1, PrimFloat.infinity) = true
  /\ Summarize.byScoreDesc (0, 1e308%float) (1, (-1e308)%float) = true.
Proof.
  split.
  - rewrite (proj1 (@comparators_order_scores (0, PrimFloat.infinity) (1, PrimFloat.infinity)
                                              eq_refl eq_refl)).
    reflexivity.
  - rewrite (proj2 (@comparators_order_scores (0, 1e308%float) (1, (-1e308)%float)
                                              eq_refl eq_refl)).
    reflexivity.
Defined.

(** X21. The score the summarizer gives a sentence is never NaN and never
    negative, whatever the sentence and the table of frequencies: the
    comparator of its sort is consistent on the scores it meets. *)
Theorem sentence_scores_are_numbers :
  forall (freq : JsMap.t nat) (s : str),
    PrimFloat.is_nan (Summarize.score freq s) = false
    /\ (0 <=? Summarize.score freq s)%float = true.
Proof.
  intros freq s. pose proof (SummaryFacts.score_unsigned freq s) as H. split.
  - now apply FloatFacts.unsigned_not_nan.
  - now apply unsigned_not_negative.
Qed.

End ScoreFacts.
